(** * Flow simulation core of the control tower: CaseEngine and ParticleSystem

    A shallow embedding of [src/services/ParticleSystem.ts] and
    [src/services/CaseEngine.ts].

    JavaScript numbers are IEEE 754 binary64 values and are embedded as
    Rocq's primitive floats, so division by zero, NaN and rounding behave as
    they do in the program.  Array lengths and indices ([edgeIndex],
    [currentStageIndex], the trail bound) only ever hold integers and are
    embedded as [nat] or [Z]; an array length that meets a number in a
    comparison is converted to its binary64 value there.

    The curve geometry is written once over an interface of number
    operations; it is run on floats inside the simulation, and read over the
    real numbers where a statement is about the exact curve. *)

From Stdlib Require Import ZArith List String Floats Reals Lra Lia Bool.
From Stdlib Require Import DecimalString DecimalNat.
From stdpp Require Import base option list gmap strings.

Set Warnings "-inexact-float".

(** ** Numbers *)

(** The operations of a JavaScript [number] that the geometry uses. *)
Class JsNumber (A : Type) := {
  lit : Z -> A;                 (* an integer literal *)
  nadd : A -> A -> A;
  nsub : A -> A -> A;
  nmul : A -> A -> A;
  ndiv : A -> A -> A;
  nneg : A -> A;
  Math_sqrt : A -> A;
  ngt : A -> A -> bool;         (* a > b *)
  nne : A -> A -> bool;         (* a !== b *)
}.

Declare Scope js_scope.
Delimit Scope js_scope with js.
Infix "+" := nadd : js_scope.
Infix "-" := nsub : js_scope.
Infix "*" := nmul : js_scope.
Infix "/" := ndiv : js_scope.
Notation "- x" := (nneg x) : js_scope.
Infix ">" := ngt : js_scope.
Infix "!==" := nne (at level 70, no associativity) : js_scope.

(** Non-negative integer literals are exact in binary64 below 2^53. *)
Definition float_of_Z (z : Z) : float :=
  if (z <? 0)%Z
  then PrimFloat.opp (PrimFloat.of_uint63 (Uint63.of_Z (- z)))
  else PrimFloat.of_uint63 (Uint63.of_Z z).

(** An array length as the number it is in a comparison. *)
Definition countOf (n : nat) : float := float_of_Z (Z.of_nat n).

#[export] Instance float_JsNumber : JsNumber float := {|
  lit := float_of_Z;
  nadd := PrimFloat.add;
  nsub := PrimFloat.sub;
  nmul := PrimFloat.mul;
  ndiv := PrimFloat.div;
  nneg := PrimFloat.opp;
  Math_sqrt := PrimFloat.sqrt;
  ngt := fun a b => PrimFloat.ltb b a;
  nne := fun a b => negb (PrimFloat.eqb a b);
|}.

(** Exact arithmetic: the same operations over the real numbers. *)
#[export] Instance R_JsNumber : JsNumber R := {|
  lit := IZR;
  nadd := Rplus;
  nsub := Rminus;
  nmul := Rmult;
  ndiv := Rdiv;
  nneg := Ropp;
  Math_sqrt := sqrt;
  ngt := fun a b => if Rlt_dec b a then true else false;
  nne := fun a b => if Req_dec_T a b then false else true;
|}.

(** ** Curve geometry *)

Module Curve.

Record EdgePath (A : Type) := {
  sourceX : A;
  sourceY : A;
  targetX : A;
  targetY : A;
}.
Arguments sourceX {A} _.
Arguments sourceY {A} _.
Arguments targetX {A} _.
Arguments targetY {A} _.

Record Point (A : Type) := { x : A; y : A }.
Arguments x {A} _.
Arguments y {A} _.
Arguments Build_Point {A} _ _.
Arguments Build_EdgePath {A} _ _ _ _.

Section Geometry.
Context {A : Type} `{JsNumber A}.
Local Open Scope js_scope.

(** [ParticleSystem._getPositionAlongEdge]; [lateralSpread] is read from
    [this.config].  The declared result is [{x, y} | null]; the body
    always returns a point. *)
Definition _getPositionAlongEdge (lateralSpread : A) (edgeData : EdgePath A)
    (t : A) (lateralOffset : A) : option (Point A) :=
  let centerY := (sourceY edgeData + targetY edgeData) / lit 2 in
  let p0 := {| x := sourceX edgeData; y := sourceY edgeData |} in
  let p1 := {| x := sourceX edgeData; y := centerY |} in
  let p2 := {| x := targetX edgeData; y := centerY |} in
  let p3 := {| x := targetX edgeData; y := targetY edgeData |} in
  let mt := lit 1 - t in
  let mt2 := mt * mt in
  let mt3 := mt2 * mt in
  let t2 := t * t in
  let t3 := t2 * t in
  let x0 := mt3 * x p0 + lit 3 * mt2 * t * x p1 + lit 3 * mt * t2 * x p2 + t3 * x p3 in
  let y0 := mt3 * y p0 + lit 3 * mt2 * t * y p1 + lit 3 * mt * t2 * y p2 + t3 * y p3 in
  if (lateralSpread > lit 0) && (lateralOffset !== lit 0) then
    let dx := lit 3 * mt2 * (x p1 - x p0) + lit 6 * mt * t * (x p2 - x p1)
              + lit 3 * t2 * (x p3 - x p2) in
    let dy := lit 3 * mt2 * (y p1 - y p0) + lit 6 * mt * t * (y p2 - y p1)
              + lit 3 * t2 * (y p3 - y p2) in
    let len := Math_sqrt (dx * dx + dy * dy) in
    if len > lit 0 then
      let nx := - dy / len in
      let ny := dx / len in
      Some {| x := x0 + nx * lateralOffset * lateralSpread;
              y := y0 + ny * lateralOffset * lateralSpread |}
    else Some {| x := x0; y := y0 |}
  else Some {| x := x0; y := y0 |}.
End Geometry.

(** The cubic Bezier curve as the specification names it, in Bernstein
    form: (1-t)^3 p0 + 3 (1-t)^2 t p1 + 3 (1-t) t^2 p2 + t^3 p3, evaluated
    with the operations of the number type. *)
Definition cubicBezier {A : Type} `{JsNumber A} (p0 p1 p2 p3 : Point A) (t : A)
    : Point A :=
  let mt := (lit 1 - t)%js in
  {| x := (mt * mt * mt * x p0 + lit 3 * (mt * mt) * t * x p1
           + lit 3 * mt * (t * t) * x p2 + t * t * t * x p3)%js;
     y := (mt * mt * mt * y p0 + lit 3 * (mt * mt) * t * y p1
           + lit 3 * mt * (t * t) * y p2 + t * t * t * y p3)%js |}.

(** The curve of an edge in the program's numbers: control points
    (sourceX, midY) and (targetX, midY), midY the average of the two Y
    values. *)
Definition midY (e : EdgePath float) : float :=
  PrimFloat.div (PrimFloat.add (sourceY e) (targetY e)) 2.

Definition edgeBezier (e : EdgePath float) (t : float) : Point float :=
  cubicBezier {| x := sourceX e; y := sourceY e |}
              {| x := sourceX e; y := midY e |}
              {| x := targetX e; y := midY e |}
              {| x := targetX e; y := targetY e |} t.

(** The same curve over the reals, by de Casteljau's repeated linear
    interpolation. *)
Definition lerp (a b t : R) : R := ((1 - t) * a + t * b)%R.

Definition lerpPoint (p q : Point R) (t : R) : Point R :=
  {| x := lerp (x p) (x q) t; y := lerp (y p) (y q) t |}.

Definition bezierPoint (p0 p1 p2 p3 : Point R) (t : R) : Point R :=
  let q0 := lerpPoint p0 p1 t in
  let q1 := lerpPoint p1 p2 t in
  let q2 := lerpPoint p2 p3 t in
  lerpPoint (lerpPoint q0 q1 t) (lerpPoint q1 q2 t) t.

(** The curve of an edge: control points (sourceX, midY) and (targetX, midY),
    midY the average of the two Y values. *)
Definition edgeCurve (e : EdgePath R) (t : R) : Point R :=
  let midY := ((sourceY e + targetY e) / 2)%R in
  bezierPoint {| x := sourceX e; y := sourceY e |}
              {| x := sourceX e; y := midY |}
              {| x := targetX e; y := midY |}
              {| x := targetX e; y := targetY e |} t.

End Curve.

(** ** Particle system *)

Module ParticleSystem.
Import Curve.

Record Particle := {
  id : float;                  (* the draw that the program prints in base 36 *)
  edgePath : list string;
  edgeIndex : nat;
  progress : float;
  speed : float;
  color : option string;       (* colors[i]; undefined when i is out of range *)
  trail : list (Point float);
  maxTrailLength : Z;
  size : float;
  lateralOffset : float;
}.

Record ParticleSystemConfig := {
  maxParticles : float;        (* a number: nothing checks that it is whole *)
  spawnRate : float;
  flowSpeed : float;
  colors : list string;
  trailLength : Z;
  particleSizeRange : float * float;
  speedVariation : float * float;
  startNodeId : option string;
  showTrails : bool;
  trajectoryColor : string;
  trajectoryOpacity : float;
  trajectoryWidth : float;
  lateralSpread : float;
}.

Record EdgeInfo := {
  edgeId : string;
  target : string;
  weight : float;
}.

(** The fields of the class. *)
Record System := {
  particles : list Particle;
  edgePaths : gmap string (EdgePath float);
  adjacency : gmap string (list EdgeInfo);
  selectedEdgeIds : gset string;
  config : ParticleSystemConfig;
  _lastSpawnTime : float;
  _completedCount : nat;
  _recentCompletions : list float;
}.

Definition set_particles (ps : list Particle) (s : System) : System :=
  {| particles := ps; edgePaths := edgePaths s; adjacency := adjacency s;
     selectedEdgeIds := selectedEdgeIds s; config := config s;
     _lastSpawnTime := _lastSpawnTime s; _completedCount := _completedCount s;
     _recentCompletions := _recentCompletions s |}.

Definition set_lastSpawnTime (t : float) (s : System) : System :=
  {| particles := particles s; edgePaths := edgePaths s; adjacency := adjacency s;
     selectedEdgeIds := selectedEdgeIds s; config := config s;
     _lastSpawnTime := t; _completedCount := _completedCount s;
     _recentCompletions := _recentCompletions s |}.

Definition set_recentCompletions (l : list float) (s : System) : System :=
  {| particles := particles s; edgePaths := edgePaths s; adjacency := adjacency s;
     selectedEdgeIds := selectedEdgeIds s; config := config s;
     _lastSpawnTime := _lastSpawnTime s; _completedCount := _completedCount s;
     _recentCompletions := l |}.

(** One completion: [_completedCount++] and a push of [Date.now()]. *)
Definition record_completion (wall : float) (s : System) : System :=
  {| particles := particles s; edgePaths := edgePaths s; adjacency := adjacency s;
     selectedEdgeIds := selectedEdgeIds s; config := config s;
     _lastSpawnTime := _lastSpawnTime s; _completedCount := S (_completedCount s);
     _recentCompletions := _recentCompletions s ++ [wall] |}.

(** The default configuration of the constructor. *)
Definition defaultConfig : ParticleSystemConfig := {|
  maxParticles := 50%float;
  spawnRate := 3%float;
  flowSpeed := 1%float;
  colors := ["#6366f1"; "#8b5cf6"; "#a78bfa"]%string;
  trailLength := 25;
  particleSizeRange := (3, 5)%float;
  speedVariation := (0.4, 0.8)%float;
  startNodeId := None;
  showTrails := true;
  trajectoryColor := "#000000"%string;
  trajectoryOpacity := 0.06%float;
  trajectoryWidth := 1.5%float;
  lateralSpread := 0%float;
|}.

Definition new (cfg : ParticleSystemConfig) : System := {|
  particles := []; edgePaths := ∅; adjacency := ∅; selectedEdgeIds := ∅;
  config := cfg; _lastSpawnTime := 0%float; _completedCount := 0;
  _recentCompletions := [];
|}.

(** An edge of the graph as [buildAdjacency] receives it. *)
Record FlowEdge := {
  fe_id : string;
  fe_source : string;
  fe_target : string;
  fe_weight : option float;    (* edge.data?.weight *)
}.

Definition buildAdjacency (edges : list FlowEdge) (s : System) : System :=
  let adj :=
    fold_left (fun (m : gmap string (list EdgeInfo)) edge =>
      let info := {| edgeId := fe_id edge; target := fe_target edge;
                     weight := default 1%float (fe_weight edge) |} in
      <[ fe_source edge := default [] (m !! fe_source edge) ++ [info] ]> m)
      edges ∅ in
  {| particles := particles s; edgePaths := edgePaths s; adjacency := adj;
     selectedEdgeIds := selectedEdgeIds s; config := config s;
     _lastSpawnTime := _lastSpawnTime s; _completedCount := _completedCount s;
     _recentCompletions := _recentCompletions s |}.

(** [Math.floor] of a finite number, as an integer. *)
Definition Math_floor (v : float) : option Z :=
  match Prim2SF v with
  | S754_zero _ => Some 0%Z
  | S754_finite sign m e =>
      Some (Z.shiftl (if sign then Z.neg m else Z.pos m) e)
  | _ => None
  end.

(** [arr[i]] for an array index computed as a number. *)
Definition index_by_number {T} (arr : list T) (i : float) : option T :=
  match Math_floor i with
  | Some z => if (z <? 0)%Z then None else arr !! Z.to_nat z
  | None => None
  end.

(** A string is falsy exactly when it is empty. *)
Definition truthy (s : string) : bool := negb (String.eqb s "").

Section Simulation.
(** [random k] is the value returned by the k-th call of [Math.random()]. *)
Variable random : nat -> float.
Local Open Scope float_scope.

(** The [for (const edge of edges)] loop of the weighted selection. *)
Fixpoint selectEdge (edges : list EdgeInfo) (r : float) (chosen : EdgeInfo) : EdgeInfo :=
  match edges with
  | [] => chosen
  | edge :: rest =>
      let r := r - weight edge in
      if r <=? 0 then edge else selectEdge rest r chosen
  end.

(** The [while] loop of [_generatePath]: [fuel] bounds the number of
    evaluations of the loop condition; [None] means the bound was reached
    with the loop still running.  [k] counts the draws consumed. *)
Fixpoint generatePath_loop (adj : gmap string (list EdgeInfo)) (fuel : nat)
    (path : list string) (current : string) (k : nat) : option (list string * nat) :=
  match fuel with
  | O => None
  | S fuel' =>
      match adj !! current with
      | Some ((e0 :: _) as edges) =>
          let totalWeight := fold_left (fun sum e => sum + weight e) edges 0 in
          let r := random k * totalWeight in
          let chosen := selectEdge edges r e0 in
          generatePath_loop adj fuel' (path ++ [edgeId chosen]) (target chosen) (S k)
      | _ => Some (path, k)
      end
  end.

Definition _generatePath (adj : gmap string (list EdgeInfo)) (fuel : nat)
    (startNodeId : string) (k : nat) : option (list string * nat) :=
  generatePath_loop adj fuel [] startNodeId k.

(** The object literal pushed by [_spawnParticle], [spawnOne] and
    [spawnFrom]; its five draws are taken in the order of the fields. *)
Definition newParticle (cfg : ParticleSystemConfig) (path : list string) (k : nat) : Particle :=
  let '(minSize, maxSize) := particleSizeRange cfg in
  let '(minSpeed, maxSpeed) := speedVariation cfg in
  {| id := random k;
     edgePath := path;
     edgeIndex := 0;
     progress := 0;
     speed := minSpeed + random (k + 1)%nat * (maxSpeed - minSpeed);
     color := index_by_number (colors cfg)
                (random (k + 2)%nat * float_of_Z (Z.of_nat (length (colors cfg))));
     trail := [];
     maxTrailLength := trailLength cfg;
     size := minSize + random (k + 3)%nat * (maxSize - minSize);
     lateralOffset := random (k + 4)%nat * 2 - 1 |}.

Definition push_particle (path : list string) (k : nat) (s : System) : System :=
  set_particles (particles s ++ [newParticle (config s) path k]) s.

(** [this.particles.length >= this.config.maxParticles], a comparison of
    two binary64 numbers. *)
Definition atCapacity (s : System) : bool :=
  PrimFloat.leb (maxParticles (config s)) (countOf (length (particles s))).

Definition _spawnParticle (fuel : nat) (time : float) (s : System) (k : nat)
    : option (System * nat) :=
  match startNodeId (config s) with
  | None => Some (s, k)
  | Some start =>
      if negb (truthy start) then Some (s, k)
      else if atCapacity s then Some (s, k)
      else
        let spawnInterval := 1000 / spawnRate (config s) in
        if time - _lastSpawnTime s <? spawnInterval then Some (s, k)
        else
          let s := set_lastSpawnTime time s in
          match _generatePath (adjacency s) fuel start k with
          | None => None
          | Some (path, k) =>
              if (length path =? 0)%nat then Some (s, k)
              else Some (push_particle path k s, (k + 5)%nat)
          end
  end.

Definition spawnOne (fuel : nat) (s : System) (k : nat) : option (System * nat) :=
  match startNodeId (config s) with
  | None => Some (s, k)
  | Some start =>
      if negb (truthy start) then Some (s, k)
      else if atCapacity s then Some (s, k)
      else
        match _generatePath (adjacency s) fuel start k with
        | None => None
        | Some (path, k) =>
            if (length path =? 0)%nat then Some (s, k)
            else Some (push_particle path k s, (k + 5)%nat)
        end
  end.

Definition spawnFrom (fuel : nat) (nodeId : string) (s : System) (k : nat)
    : option (System * nat) :=
  if atCapacity s then Some (s, k)
  else
    match _generatePath (adjacency s) fuel nodeId k with
    | None => None
    | Some (path, k) =>
        if (length path =? 0)%nat then Some (s, k)
        else Some (push_particle path k s, (k + 5)%nat)
    end.

(** The part of the [forEach] callback of [_updateParticles] after the
    completion check: progress, trail and edge change of one particle. *)
Definition advanceParticle (cfg : ParticleSystemConfig)
    (paths : gmap string (EdgePath float)) (dt : float) (p : Particle) : Particle :=
  let speedMultiplier := flowSpeed cfg * speed p in
  let progress1 := progress p + dt * speedMultiplier * 0.001 in
  let edgeData :=
    match edgePath p !! edgeIndex p with
    | Some currentEdgeId => paths !! currentEdgeId
    | None => None
    end in
  let trail1 :=
    match edgeData with
    | Some e =>
        match _getPositionAlongEdge (lateralSpread cfg) e progress1 (lateralOffset p) with
        | Some pos =>
            let t := {| x := x pos; y := y pos |} :: trail p in
            if (maxTrailLength p <? Z.of_nat (length t))%Z then removelast t else t
        | None => trail p
        end
    | None => trail p
    end in
  {| id := id p; edgePath := edgePath p;
     edgeIndex := if 1 <=? progress1 then S (edgeIndex p) else edgeIndex p;
     progress := if 1 <=? progress1 then 0 else progress1;
     speed := speed p; color := color p; trail := trail1;
     maxTrailLength := maxTrailLength p; size := size p;
     lateralOffset := lateralOffset p |}.

(** [p.edgeIndex >= p.edgePath.length] *)
Definition completed (p : Particle) : bool :=
  (length (edgePath p) <=? edgeIndex p)%nat.

(** One call of the [forEach] callback, at [index]: the particle is
    mutated in place in the array; [toRemove] and the completion counters
    grow when it has completed.  [wall] is the value of [Date.now()]. *)
Definition visitParticle (dt wall : float) (st : System * list nat) (index : nat)
    : System * list nat :=
  let '(s, toRemove) := st in
  match particles s !! index with
  | None => st
  | Some p =>
      if completed p then (record_completion wall s, toRemove ++ [index])
      else (set_particles (<[index := advanceParticle (config s) (edgePaths s) dt p]>
                             (particles s)) s, toRemove)
  end.

(** The state after the first [n] callbacks of the [forEach]. *)
Definition forEachParticle (dt wall : float) (n : nat) (s : System) : System * list nat :=
  fold_left (visitParticle dt wall) (seq 0 n) (s, []).

(** [toRemove.reverse().forEach(i => this.particles.splice(i, 1))] *)
Definition spliceAll (toRemove : list nat) (arr : list Particle) : list Particle :=
  fold_left (fun arr i => delete i arr) (rev toRemove) arr.

Definition _updateParticles (dt wall : float) (s : System) : System :=
  let '(s1, toRemove) := forEachParticle dt wall (length (particles s)) s in
  set_particles (spliceAll toRemove (particles s1)) s1.

Definition _cleanupCompletions (wall : float) (s : System) : System :=
  let fiveSecondsAgo := wall - 5000 in
  set_recentCompletions
    (List.filter (fun t => fiveSecondsAgo <? t) (_recentCompletions s)) s.

(** [update(dt, time)]; one reading [wall] of the clock serves the whole call. *)
Definition update (fuel : nat) (dt time wall : float) (s : System) (k : nat)
    : option (System * nat) :=
  match _spawnParticle fuel time s k with
  | None => None
  | Some (s, k) => Some (_cleanupCompletions wall (_updateParticles dt wall s), k)
  end.

Definition clear (s : System) : System := set_particles [] s.

(** [getStats]: active count, completed count, and the throughput before
    it is formatted to one decimal. *)
Definition getStats (s : System) : nat * nat * float :=
  (length (particles s), _completedCount s,
   float_of_Z (Z.of_nat (length (_recentCompletions s))) / 5).

(** The calls a client makes on a running system. *)
Inductive Call :=
| CallUpdate (dt time wall : float)
| CallSpawnOne
| CallSpawnFrom (nodeId : string).

Definition call (fuel : nat) (c : Call) (s : System) (k : nat) : option (System * nat) :=
  match c with
  | CallUpdate dt time wall => update fuel dt time wall s k
  | CallSpawnOne => spawnOne fuel s k
  | CallSpawnFrom nodeId => spawnFrom fuel nodeId s k
  end.

Fixpoint calls (fuel : nat) (cs : list Call) (s : System) (k : nat) : option (System * nat) :=
  match cs with
  | [] => Some (s, k)
  | c :: cs =>
      match call fuel c s k with
      | None => None
      | Some (s, k) => calls fuel cs s k
      end
  end.

End Simulation.

Definition setEdgePaths (paths : gmap string (EdgePath float)) (s : System) : System :=
  {| particles := particles s; edgePaths := paths; adjacency := adjacency s;
     selectedEdgeIds := selectedEdgeIds s; config := config s;
     _lastSpawnTime := _lastSpawnTime s; _completedCount := _completedCount s;
     _recentCompletions := _recentCompletions s |}.

(** [this.selectedEdgeIds = new Set(edgeIds)] *)
Definition setSelectedEdges (edgeIds : list string) (s : System) : System :=
  {| particles := particles s; edgePaths := edgePaths s; adjacency := adjacency s;
     selectedEdgeIds := list_to_set edgeIds; config := config s;
     _lastSpawnTime := _lastSpawnTime s; _completedCount := _completedCount s;
     _recentCompletions := _recentCompletions s |}.

(** *** Small graphs used in the examples *)

Definition edge (i s t : string) : FlowEdge :=
  {| fe_id := i; fe_source := s; fe_target := t; fe_weight := None |}.

(** entry -> exit *)
Definition twoNodes : list FlowEdge := [edge "e1" "entry" "exit"].
(** a -> b -> c *)
Definition chain : list FlowEdge := [edge "e1" "a" "b"; edge "e2" "b" "c"].
(** a -> a *)
Definition selfLoop : list FlowEdge := [edge "e1" "a" "a"].

Definition withStart (n : string) (maxP : float) (lateral : float) : ParticleSystemConfig :=
  {| maxParticles := maxP; spawnRate := 10%float; flowSpeed := 1%float;
     colors := ["#4f46e5"]%string; trailLength := 18;
     particleSizeRange := (2, 2)%float; speedVariation := (0.4, 0.8)%float;
     startNodeId := Some n; showTrails := true; trajectoryColor := "#000000"%string;
     trajectoryOpacity := 0.06%float; trajectoryWidth := 1.5%float;
     lateralSpread := lateral |}.

Definition halves : nat -> float := fun _ => 0.5%float.

End ParticleSystem.

(** ** Case engine *)

Module CaseEngine.

Inductive CaseState :=
| at_inbox
| transitioning
| at_procedure
| at_procedure_stage
| at_outbox.

#[export] Instance CaseState_eq_dec : EqDecision CaseState.
Proof. solve_decision. Defined.

Record Case := {
  id : string;
  state : CaseState;
  currentNodeId : string;
  currentStageIndex : Z;       (* -1 if not at a procedure, 0+ for stage index *)
  progress : float;
  spawnedAt : float;
  stateStartedAt : float;
  holdDuration : option float; (* the property attached by spawnCase *)
}.

Record CaseEngineConfig := {
  transitionDuration : float;
  stageDuration : float;
}.

Record InboxConfig := {
  casesPerMinute : float;
  holdDurationMin : float;
  holdDurationMax : float;
}.

Record OutboxConfig := { retentionSeconds : float }.

Inductive StageType := ai | manual | user | approval | default_type.

Record ProcedureStage := {
  label : string;
  type : StageType;
  details : option string;
}.

Record ProcedureConfig := { stages : list ProcedureStage }.

(** The [data] of a node, as far as the engine looks into it. *)
Record NodeData := {
  data_casesPerMinute : option float;
  data_holdDurationMin : option float;
  data_holdDurationMax : option float;
  data_retentionSeconds : option float;
  data_stages : option (list ProcedureStage);
}.

Record Node := {
  node_id : string;
  node_type : option string;
  data : NodeData;
}.

Definition DEFAULT_CONFIG : CaseEngineConfig :=
  {| transitionDuration := 100%float; stageDuration := 500%float |}.

Definition stage (l : string) (t : StageType) : ProcedureStage :=
  {| label := l; type := t; details := None |}.

Definition DEFAULT_PROCEDURE_STAGES : list ProcedureStage := [
  stage "Verify Email Recipient" ai;
  stage "Categorize Email" manual;
  stage "Extract Customer Details" user;
  stage "Find Master Service Agreement" manual;
  stage "Review Master Service Agreement" ai;
  stage "Verify Information Completeness" approval;
  stage "If Missing Info, Compose Response" ai;
  stage "Prepare Work Order" ai;
  stage "Select Subcontractor" ai;
  stage "Obtain Approval" approval
].

(** The fields of the class; [onUpdate] is the listener, whose calls are
    returned as outputs by the methods that notify it.  The JavaScript
    [Map] of cases is a finite map together with the order in which its
    keys were inserted, which is the order it is iterated in. *)
Record Engine := {
  cases : gmap string Case;
  caseOrder : list string;
  config : CaseEngineConfig;
  proceduralOrder : list string;
  nodes : list Node;
  lastSpawnTime : float;
  animationFrameId : option Z;
  caseIdCounter : nat;
}.

Definition new (cfg : CaseEngineConfig) : Engine := {|
  cases := ∅; caseOrder := []; config := cfg; proceduralOrder := []; nodes := [];
  lastSpawnTime := 0%float; animationFrameId := None; caseIdCounter := 0;
|}.

Definition setProceduralOrder (order : list string) (e : Engine) : Engine :=
  {| cases := cases e; caseOrder := caseOrder e; config := config e;
     proceduralOrder := order; nodes := nodes e;
     lastSpawnTime := lastSpawnTime e; animationFrameId := animationFrameId e;
     caseIdCounter := caseIdCounter e |}.

Definition setNodes (ns : list Node) (e : Engine) : Engine :=
  {| cases := cases e; caseOrder := caseOrder e; config := config e;
     proceduralOrder := proceduralOrder e;
     nodes := ns; lastSpawnTime := lastSpawnTime e;
     animationFrameId := animationFrameId e; caseIdCounter := caseIdCounter e |}.

(** The map after the loop of [tick]: a key that was deleted leaves the
    iteration order, an entry that was replaced keeps its place. *)
Definition set_cases (m : gmap string Case) (e : Engine) : Engine :=
  {| cases := m;
     caseOrder := List.filter (fun id => bool_decide (is_Some (m !! id))) (caseOrder e);
     config := config e; proceduralOrder := proceduralOrder e;
     nodes := nodes e; lastSpawnTime := lastSpawnTime e;
     animationFrameId := animationFrameId e; caseIdCounter := caseIdCounter e |}.

Definition set_lastSpawnTime (t : float) (e : Engine) : Engine :=
  {| cases := cases e; caseOrder := caseOrder e; config := config e;
     proceduralOrder := proceduralOrder e;
     nodes := nodes e; lastSpawnTime := t;
     animationFrameId := animationFrameId e; caseIdCounter := caseIdCounter e |}.

Definition set_animationFrameId (f : option Z) (e : Engine) : Engine :=
  {| cases := cases e; caseOrder := caseOrder e; config := config e;
     proceduralOrder := proceduralOrder e;
     nodes := nodes e; lastSpawnTime := lastSpawnTime e;
     animationFrameId := f; caseIdCounter := caseIdCounter e |}.

Local Open Scope float_scope.

(** [this.nodes.find(n => n.id === nodeId)] *)
Definition findNode (e : Engine) (nodeId : string) : option Node :=
  List.find (fun n => String.eqb (node_id n) nodeId) (nodes e).

Definition getInboxConfig (e : Engine) : InboxConfig :=
  let inbox := findNode e "inbox" in
  {| casesPerMinute := default 2 (inbox ≫= fun n => data_casesPerMinute (data n));
     holdDurationMin := default 500 (inbox ≫= fun n => data_holdDurationMin (data n));
     holdDurationMax := default 2000 (inbox ≫= fun n => data_holdDurationMax (data n)) |}.

Definition getOutboxConfig (e : Engine) : OutboxConfig :=
  let outbox := findNode e "outbox" in
  {| retentionSeconds := default 3 (outbox ≫= fun n => data_retentionSeconds (data n)) |}.

Definition getProcedureConfig (e : Engine) (nodeId : string) : ProcedureConfig :=
  let node := findNode e nodeId in
  {| stages := default DEFAULT_PROCEDURE_STAGES (node ≫= fun n => data_stages (data n)) |}.

(** [Array.prototype.indexOf]; [None] stands for -1. *)
Fixpoint indexOf (l : list string) (v : string) : option nat :=
  match l with
  | [] => None
  | a :: l' => if String.eqb a v then Some O else option_map S (indexOf l' v)
  end.

Definition getNextNodeId (e : Engine) (currentNodeId : string) : option string :=
  match indexOf (proceduralOrder e) currentNodeId with
  | None => None
  | Some currentIndex =>
      if (Z.of_nat (length (proceduralOrder e)) - 1 <=? Z.of_nat currentIndex)%Z
      then None
      else proceduralOrder e !! (currentIndex + 1)%nat
  end.

Definition getNodeType (e : Engine) (nodeId : string) : option string :=
  findNode e nodeId ≫= node_type.

(** [Math.min] of two numbers: NaN when either is NaN. *)
Definition Math_min (a b : float) : float :=
  if PrimFloat.is_nan a || PrimFloat.is_nan b then PrimFloat.nan
  else if a <? b then a else b.

(** ["case-" + n] *)
Definition caseId (n : nat) : string :=
  String.append "case-" (NilEmpty.string_of_uint (Nat.to_uint n)).

(** [spawnCase]; [now] is the value of [Date.now()] and [rnd] the value of
    [Math.random()]. *)
Definition spawnCase (now rnd : float) (e : Engine) : Engine :=
  let counter := S (caseIdCounter e) in
  let id := caseId counter in
  let inboxConfig := getInboxConfig e in
  let holdDuration := holdDurationMin inboxConfig
      + rnd * (holdDurationMax inboxConfig - holdDurationMin inboxConfig) in
  let newCase := {| id := id; state := at_inbox; currentNodeId := "inbox";
                    currentStageIndex := -1; progress := 0; spawnedAt := now;
                    stateStartedAt := now; holdDuration := Some holdDuration |} in
  {| cases := <[ id := newCase ]> (cases e);
     caseOrder := (if bool_decide (is_Some (cases e !! id)) then caseOrder e
                   else caseOrder e ++ [id]);
     config := config e;
     proceduralOrder := proceduralOrder e; nodes := nodes e;
     lastSpawnTime := lastSpawnTime e; animationFrameId := animationFrameId e;
     caseIdCounter := counter |}.

(** The object spreads of [updateCase]. *)
Definition enter (st : CaseState) (node : string) (stageIndex : Z) (now : float)
    (c : Case) : Case :=
  {| id := id c; state := st; currentNodeId := node; currentStageIndex := stageIndex;
     progress := 0; spawnedAt := spawnedAt c; stateStartedAt := now;
     holdDuration := holdDuration c |}.

Definition with_progress (p : float) (c : Case) : Case :=
  {| id := id c; state := state c; currentNodeId := currentNodeId c;
     currentStageIndex := currentStageIndex c; progress := p;
     spawnedAt := spawnedAt c; stateStartedAt := stateStartedAt c;
     holdDuration := holdDuration c |}.

(** A string-or-null value is truthy when it is a non-empty string. *)
Definition truthy (v : option string) : bool :=
  match v with Some s => negb (String.eqb s "") | None => false end.

(** [updateCase]; [None] is the [null] that asks for removal. *)
Definition updateCase (e : Engine) (caseItem : Case) (now : float) : option Case :=
  let elapsed := now - stateStartedAt caseItem in
  match state caseItem with
  | at_inbox =>
      let holdDuration := default 1000 (holdDuration caseItem) in
      if holdDuration <=? elapsed then
        let nextNodeId := getNextNodeId e (currentNodeId caseItem) in
        if truthy nextNodeId then
          Some (enter transitioning (currentNodeId caseItem)
                  (currentStageIndex caseItem) now caseItem)
        else Some caseItem
      else Some caseItem
  | transitioning =>
      let progress := Math_min 1 (elapsed / transitionDuration (config e)) in
      if 1 <=? progress then
        match getNextNodeId e (currentNodeId caseItem) with
        | Some nextNodeId =>
            if negb (truthy (Some nextNodeId)) then Some caseItem
            else
              let nextType := getNodeType e nextNodeId in
              if bool_decide (nextType = Some "outbox"%string) then
                Some (enter at_outbox nextNodeId (-1) now caseItem)
              else if bool_decide (nextType = Some "procedure"%string) then
                Some (enter at_procedure_stage nextNodeId 0 now caseItem)
              else Some (with_progress progress caseItem)
        | None => Some caseItem
        end
      else Some (with_progress progress caseItem)
  | at_procedure_stage =>
      let progress := Math_min 1 (elapsed / stageDuration (config e)) in
      let procConfig := getProcedureConfig e (currentNodeId caseItem) in
      if 1 <=? progress then
        if (currentStageIndex caseItem <? Z.of_nat (length (stages procConfig)) - 1)%Z then
          Some (enter at_procedure_stage (currentNodeId caseItem)
                  (currentStageIndex caseItem + 1)%Z now caseItem)
        else
          Some (enter transitioning (currentNodeId caseItem)
                  (currentStageIndex caseItem) now caseItem)
      else Some (with_progress progress caseItem)
  | at_outbox =>
      let outboxConfig := getOutboxConfig e in
      if retentionSeconds outboxConfig * 1000 <=? elapsed then None
      else Some (with_progress (elapsed / (retentionSeconds outboxConfig * 1000)) caseItem)
  | at_procedure => Some caseItem
  end.

(** The update loop of [tick] over the entries of the map, followed by the
    removals. *)
Definition updateCases (e : Engine) (now : float) (m : gmap string Case) : gmap string Case :=
  let '(m1, casesToRemove) :=
    map_fold (fun id caseItem (acc : gmap string Case * list string) =>
                match updateCase e caseItem now with
                | None => (acc.1, acc.2 ++ [id])
                | Some updated => (<[ id := updated ]> acc.1, acc.2)
                end) (m, []) m in
  fold_left (fun m id => delete id m) casesToRemove m1.

(** [Array.from(this.cases.values())]: the values in insertion order. *)
Definition getCases (e : Engine) : list Case :=
  omap (fun id => cases e !! id) (caseOrder e).

(** [tick]: [now] is its reading of the clock, [spawnNow] the reading
    inside [spawnCase], [rnd] the draw of [spawnCase], [frame] the handle
    returned by [requestAnimationFrame].  The second component is the
    argument passed to the listener. *)
Definition tick (now spawnNow rnd : float) (frame : Z) (e : Engine) : Engine * list Case :=
  let inboxConfig := getInboxConfig e in
  let e1 :=
    if 0 <? casesPerMinute inboxConfig then
      let spawnInterval := 60000 / casesPerMinute inboxConfig in
      if spawnInterval <=? now - lastSpawnTime e
      then set_lastSpawnTime now (spawnCase spawnNow rnd e)
      else e
    else e in
  let e2 := set_cases (updateCases e1 now (cases e1)) e1 in
  (set_animationFrameId (Some frame) e2, getCases e2).

Definition start (now : float) (frame : Z) (e : Engine) : Engine :=
  match animationFrameId e with
  | Some _ => e
  | None => set_animationFrameId (Some frame) (set_lastSpawnTime now e)
  end.

Definition stop (e : Engine) : Engine :=
  match animationFrameId e with
  | Some _ => set_animationFrameId None e
  | None => e
  end.

(** [reset]; the second component is the argument passed to the listener. *)
Definition reset (e : Engine) : Engine * list Case :=
  let e1 := stop e in
  ({| cases := ∅; caseOrder := []; config := config e1; proceduralOrder := proceduralOrder e1;
      nodes := nodes e1; lastSpawnTime := lastSpawnTime e1;
      animationFrameId := animationFrameId e1; caseIdCounter := 0 |}, []).

Definition getCasesAtNode (e : Engine) (nodeId : string) : list Case :=
  List.filter (fun c => String.eqb (currentNodeId c) nodeId
                        && negb (bool_decide (state c = transitioning))) (getCases e).

Definition getCasesTransitioningFrom (e : Engine) (nodeId : string) : list Case :=
  List.filter (fun c => String.eqb (currentNodeId c) nodeId
                        && bool_decide (state c = transitioning)) (getCases e).

(** *** A three-node workflow used in the examples *)

Definition noData : NodeData :=
  {| data_casesPerMinute := None; data_holdDurationMin := None;
     data_holdDurationMax := None; data_retentionSeconds := None;
     data_stages := None |}.

Definition procData (ss : list ProcedureStage) : NodeData :=
  {| data_casesPerMinute := None; data_holdDurationMin := None;
     data_holdDurationMax := None; data_retentionSeconds := None;
     data_stages := Some ss |}.

Definition workflow : Engine :=
  setNodes [ {| node_id := "inbox"; node_type := Some "inbox"%string; data := noData |};
             {| node_id := "proc"; node_type := Some "procedure"%string;
                data := procData [stage "Review" ai] |};
             {| node_id := "outbox"; node_type := Some "outbox"%string; data := noData |} ]
    (setProceduralOrder ["inbox"; "proc"; "outbox"]%string (new DEFAULT_CONFIG)).

End CaseEngine.

(** ** The canvas that drives the particle system *)

Module ParticleCanvas.
Import Curve ParticleSystem.

(** A node of the flow as [computeEdgePaths] reads it: its id and position,
    the size of its DOM element when there is one, and its measured size. *)
Record FlowNode := {
  n_id : string;
  position_x : float;
  position_y : float;
  element : option (float * float);   (* el.clientWidth, el.clientHeight *)
  measured_width : option float;
  measured_height : option float;
}.

(** An entry of [nodeMap]: the node with its resolved dimensions. *)
Record SizedNode := {
  node : FlowNode;
  width : float;
  height : float;
}.

(** An edge of the flow with its [selected] flag ([e.selected === true]). *)
Record CanvasEdge := {
  flow : FlowEdge;
  selected : bool;
}.

Local Open Scope float_scope.

Definition sized (n : FlowNode) : SizedNode :=
  {| node := n;
     width := default (default 160 (measured_width n)) (fst <$> element n);
     height := default (default 60 (measured_height n)) (snd <$> element n) |}.

Definition nodeMapOf (nodes : list FlowNode) : gmap string SizedNode :=
  fold_left (fun (m : gmap string SizedNode) n => <[ n_id n := sized n ]> m) nodes ∅.

(** The connection points of an edge: bottom centre of the source, top
    centre of the target. *)
Definition connect (sourceNode targetNode : SizedNode) : EdgePath float :=
  {| sourceX := position_x (node sourceNode) + width sourceNode / 2;
     sourceY := position_y (node sourceNode) + height sourceNode;
     targetX := position_x (node targetNode) + width targetNode / 2;
     targetY := position_y (node targetNode) |}.

Definition computeEdgePaths (nodes : list FlowNode) (edges : list FlowEdge)
    : gmap string (EdgePath float) :=
  let nodeMap := nodeMapOf nodes in
  fold_left (fun (edgePaths : gmap string (EdgePath float)) edge =>
               match nodeMap !! fe_source edge, nodeMap !! fe_target edge with
               | Some sourceNode, Some targetNode =>
                   <[ fe_id edge := connect sourceNode targetNode ]> edgePaths
               | _, _ => edgePaths
               end) edges ∅.

(** [updateEdgePaths]: the three calls made on the particle system at the
    start of every frame. *)
Definition updateEdgePaths (nodes : list FlowNode) (edges : list CanvasEdge)
    (s : System) : System :=
  let flows := map flow edges in
  let s := setEdgePaths (computeEdgePaths nodes flows) s in
  let s := buildAdjacency flows s in
  let selectedEdgeIds := map (fun e => fe_id (flow e)) (List.filter selected edges) in
  setSelectedEdges selectedEdgeIds s.

(** The delta time of a frame of [animate]: [lastTime] is null on the first
    frame. *)
Definition frameDelta (lastTime : option float) (time : float) : float :=
  let lastTime := default time lastTime in
  CaseEngine.Math_min (time - lastTime) 100.

End ParticleCanvas.

(** * Properties *)

(** ** Binary64 arithmetic *)

Module Binary64.
Import SpecFloat.

(** Neither NaN nor an infinity. *)
Definition isFinite (a : float) : bool :=
  match Prim2SF a with
  | S754_zero _ | S754_finite _ _ _ => true
  | _ => false
  end.

Definition isZero (a : float) : bool :=
  match Prim2SF a with
  | S754_zero _ => true
  | _ => false
  end.

(** The same number, up to the sign of a zero. *)
Definition sameNumber (a b : float) : Prop :=
  match Prim2SF a, Prim2SF b with
  | S754_zero _, S754_zero _ => True
  | u, v => u = v
  end.

(** The mantissa of the binary64 value of a positive integer below 2^53:
    the integer shifted left until it has 53 binary digits. *)
Definition mantissaOf (p : positive) : positive :=
  match (Z.pos (digits2_pos p) - 53)%Z with
  | Zneg d => Pos.iter xO p d
  | _ => p
  end.

Lemma digits_shifted (m : positive) :
  Z.pos (digits2_pos (4503599627370496 * m)) = (Z.pos (digits2_pos m) + 52)%Z.
Proof.
  cbv [Pos.mul PosDef.Pos.mul]. cbn [digits2_pos].
  change PosDef.Pos.succ with Pos.succ.
  rewrite !Pos2Z.inj_succ. unfold Z.succ. lia.
Qed.

(** The product of 1 = 2^52 * 2^-52 with a finite number is rounded from
    a mantissa that ends in 52 zero bits: nothing is lost. *)
Lemma SF64mul_1_l (s : bool) (m : positive) (e : Z) :
  bounded prec emax m e = true ->
  SF64mul (S754_finite false 4503599627370496 (-52)) (S754_finite s m e)
  = S754_finite s m e.
Proof.
  intros Hb. unfold bounded, canonical_mantissa in Hb.
  apply andb_prop in Hb as [Hc He]. apply Z.eqb_eq in Hc.
  unfold SF64mul, SFmul, binary_round_aux.
  assert (H1 : shr_fexp prec emax (Z.pos (4503599627370496 * m)) (-52 + e) loc_Exact
               = ({| shr_m := Z.pos m; shr_r := false; shr_s := false |}, e)).
  { unfold shr_fexp. cbn [Zdigits2]. rewrite digits_shifted.
    replace (Z.pos (digits2_pos m) + 52 + (-52 + e))%Z
      with (Z.pos (digits2_pos m) + e)%Z by lia.
    rewrite Hc. replace (e - (-52 + e))%Z with 52%Z by lia.
    cbn [shr shr_record_of_loc iter_pos shr_1 orb Pos.mul]. f_equal. lia. }
  rewrite H1. cbn [shr_m loc_of_shr_record round_nearest_even].
  unfold shr_fexp. cbn [Zdigits2]. rewrite Hc, Z.sub_diag.
  cbn [shr shr_record_of_loc shr_m]. rewrite He. destruct s; reflexivity.
Qed.

Lemma float_mul_1_l (a : float) :
  isFinite a = true -> sameNumber (PrimFloat.mul 1 a) a.
Proof.
  unfold isFinite, sameNumber. intros Ha. rewrite mul_spec.
  pose proof (Prim2SF_valid a) as Hv.
  change (Prim2SF 1) with (S754_finite false 4503599627370496 (-52)).
  destruct (Prim2SF a) as [s | s | | s m e]; try discriminate.
  - exact I.
  - rewrite SF64mul_1_l by exact Hv. reflexivity.
Qed.

Lemma float_mul_0_l (a : float) :
  isFinite a = true -> isZero (PrimFloat.mul 0 a) = true.
Proof.
  unfold isFinite, isZero. intros Ha. rewrite mul_spec.
  change (Prim2SF 0) with (S754_zero false).
  destruct (Prim2SF a); try discriminate; reflexivity.
Qed.

Lemma float_add_zero_r (a z b : float) :
  isFinite b = true -> sameNumber a b -> isZero z = true ->
  sameNumber (PrimFloat.add a z) b.
Proof.
  unfold isFinite, sameNumber, isZero. intros Hb Ha Hz. rewrite add_spec.
  destruct (Prim2SF b) as [sb | sb | | sb mb eb]; try discriminate;
    destruct (Prim2SF a) as [sa | sa | | sa ma ea]; try discriminate; try contradiction;
    destruct (Prim2SF z) as [sz | sz | | sz mz ez]; try discriminate.
  - destruct sa, sz; exact I.
  - exact Ha.
Qed.

Lemma float_add_zero_l (z a b : float) :
  isFinite b = true -> isZero z = true -> sameNumber a b ->
  sameNumber (PrimFloat.add z a) b.
Proof.
  unfold isFinite, sameNumber, isZero. intros Hb Hz Ha. rewrite add_spec.
  destruct (Prim2SF b) as [sb | sb | | sb mb eb]; try discriminate;
    destruct (Prim2SF a) as [sa | sa | | sa ma ea]; try discriminate; try contradiction;
    destruct (Prim2SF z) as [sz | sz | | sz mz ez]; try discriminate.
  - destruct sa, sz; exact I.
  - exact Ha.
Qed.

Lemma float_add_zero_zero (a b : float) :
  isZero a = true -> isZero b = true -> isZero (PrimFloat.add a b) = true.
Proof.
  unfold isZero. intros Ha Hb. rewrite add_spec.
  destruct (Prim2SF a) as [sa | | |]; try discriminate.
  destruct (Prim2SF b) as [sb | | |]; try discriminate.
  destruct sa, sb; reflexivity.
Qed.

(** Numbers that are the same up to the sign of a zero are [===]. *)
Lemma sameNumber_eqb (a b : float) :
  isFinite b = true -> sameNumber a b -> PrimFloat.eqb a b = true.
Proof.
  unfold isFinite, sameNumber. intros Hb Ha. rewrite FloatAxioms.eqb_spec.
  destruct (Prim2SF b) as [sb | sb | | sb mb eb]; try discriminate;
    destruct (Prim2SF a) as [sa | sa | | sa ma ea]; try discriminate; try contradiction.
  - reflexivity.
  - injection Ha as -> -> ->. unfold SFeqb, SFcompare.
    rewrite Z.compare_refl, Pos.compare_cont_refl. destruct sb; reflexivity.
Qed.

(** *** Whole numbers below 2^53 *)

Section Counts.
Local Open Scope Z_scope.

Lemma digits_bounds (p : positive) :
  2 ^ (Z.pos (digits2_pos p) - 1) <= Z.pos p < 2 ^ Z.pos (digits2_pos p).
Proof.
  induction p as [p IH | p IH |]; cbn [digits2_pos].
  - rewrite Pos2Z.inj_succ, Z.pow_succ_r by lia.
    replace (Z.succ (Z.pos (digits2_pos p)) - 1) with (Z.succ (Z.pos (digits2_pos p) - 1)) by lia.
    rewrite Z.pow_succ_r by lia. lia.
  - rewrite Pos2Z.inj_succ, Z.pow_succ_r by lia.
    replace (Z.succ (Z.pos (digits2_pos p)) - 1) with (Z.succ (Z.pos (digits2_pos p) - 1)) by lia.
    rewrite Z.pow_succ_r by lia. lia.
  - simpl. lia.
Qed.

Lemma iter_xO_value (p d : positive) :
  Z.pos (Pos.iter xO p d) = Z.pos p * 2 ^ Z.pos d.
Proof.
  induction d as [| d IH] using Pos.peano_ind.
  - simpl. lia.
  - rewrite Pos.iter_succ, Pos2Z.inj_succ, Z.pow_succ_r by lia.
    rewrite Pos2Z.inj_xO, IH. lia.
Qed.

Lemma iter_xO_digits (p d : positive) :
  Z.pos (digits2_pos (Pos.iter xO p d)) = Z.pos (digits2_pos p) + Z.pos d.
Proof.
  induction d as [| d IH] using Pos.peano_ind.
  - simpl. lia.
  - rewrite Pos.iter_succ. cbn [digits2_pos]. rewrite !Pos2Z.inj_succ, IH. lia.
Qed.

Lemma normalize_small (p : positive) :
  Z.pos p < 2 ^ 53 ->
  binary_normalize prec emax (Z.pos p) 0 false
  = S754_finite false (mantissaOf p) (Z.pos (digits2_pos p) - 53).
Proof.
  intros Hp. pose proof (digits_bounds p) as [Hlo Hhi].
  assert (Hd : Z.pos (digits2_pos p) <= 53).
  { destruct (Z_le_gt_dec (Z.pos (digits2_pos p)) 53) as [H | H]; [exact H |].
    assert (2 ^ 53 <= 2 ^ (Z.pos (digits2_pos p) - 1)) by (apply Z.pow_le_mono_r; lia).
    lia. }
  unfold binary_normalize, binary_round.
  assert (Hfexp : fexp prec emax (Z.pos (digits2_pos p) + 0) = Z.pos (digits2_pos p) - 53).
  { unfold fexp, emin, prec, emax. lia. }
  rewrite Hfexp. unfold shl_align, mantissaOf. rewrite Z.sub_0_r.
  set (e := Z.pos (digits2_pos p) - 53) in *.
  assert (Hdig : forall mz, Z.pos (digits2_pos mz) = 53 -> -52 <= e <= 0 ->
            binary_round_aux prec emax false (Z.pos mz) e loc_Exact = S754_finite false mz e).
  { intros mz Hmz He. unfold binary_round_aux.
    assert (Hsh : shr_fexp prec emax (Z.pos mz) e loc_Exact
                  = ({| shr_m := Z.pos mz; shr_r := false; shr_s := false |}, e)).
    { unfold shr_fexp. cbn [Zdigits2]. rewrite Hmz.
      replace (fexp prec emax (53 + e) - e) with 0 by (unfold fexp, emin, prec, emax; lia).
      reflexivity. }
    rewrite Hsh. cbn [shr_m loc_of_shr_record round_nearest_even]. rewrite Hsh.
    cbn [shr_m]. replace (e <=? emax - prec) with true; [reflexivity |].
    symmetry. apply Z.leb_le. unfold emax, prec. lia. }
  destruct e as [| d | d] eqn:He.
  - apply Hdig; lia.
  - lia.
  - apply Hdig; [| lia]. rewrite iter_xO_digits. lia.
Qed.

Lemma mantissaOf_value (p : positive) :
  Z.pos (digits2_pos p) <= 53 ->
  Z.pos (mantissaOf p) = Z.pos p * 2 ^ (53 - Z.pos (digits2_pos p)).
Proof.
  intros Hd. unfold mantissaOf.
  destruct (Z.pos (digits2_pos p) - 53) as [| d | d] eqn:He.
  - replace (53 - Z.pos (digits2_pos p)) with 0 by lia. lia.
  - lia.
  - rewrite iter_xO_value. f_equal. f_equal. lia.
Qed.

Lemma digits_small (p : positive) : Z.pos p < 2 ^ 53 -> Z.pos (digits2_pos p) <= 53.
Proof.
  intros Hp. pose proof (digits_bounds p) as [Hlo Hhi].
  destruct (Z_le_gt_dec (Z.pos (digits2_pos p)) 53) as [H | H]; [exact H |].
  assert (2 ^ 53 <= 2 ^ (Z.pos (digits2_pos p) - 1)) by (apply Z.pow_le_mono_r; lia).
  lia.
Qed.

Lemma compare_small (a b : positive) :
  Z.pos a < 2 ^ 53 -> Z.pos b < 2 ^ 53 ->
  SFcompare (binary_normalize prec emax (Z.pos a) 0 false)
            (binary_normalize prec emax (Z.pos b) 0 false)
  = Some (Z.pos a ?= Z.pos b).
Proof.
  intros Ha Hb. rewrite !normalize_small by assumption.
  pose proof (digits_small a Ha) as Hda. pose proof (digits_small b Hb) as Hdb.
  pose proof (digits_bounds a) as [Halo Hahi].
  pose proof (digits_bounds b) as [Hblo Hbhi].
  unfold SFcompare. f_equal.
  destruct (Z.compare_spec (Z.pos (digits2_pos a) - 53) (Z.pos (digits2_pos b) - 53))
    as [Heq | Hlt | Hgt].
  - change (Pos.compare_cont Eq (mantissaOf a) (mantissaOf b))
      with (Z.pos (mantissaOf a) ?= Z.pos (mantissaOf b)).
    rewrite !mantissaOf_value by assumption.
    replace (Z.pos (digits2_pos a)) with (Z.pos (digits2_pos b)) by lia.
    assert (Hpos : 0 < 2 ^ (53 - Z.pos (digits2_pos b))) by (apply Z.pow_pos_nonneg; lia).
    destruct (Z.compare_spec (Z.pos a) (Z.pos b)) as [E | L | G].
    + rewrite E. apply Z.compare_refl.
    + apply Z.compare_lt_iff. apply Z.mul_lt_mono_pos_r; assumption.
    + apply Z.compare_gt_iff. apply Z.mul_lt_mono_pos_r; assumption.
  - symmetry. apply Z.compare_lt_iff.
    assert (2 ^ Z.pos (digits2_pos a) <= 2 ^ (Z.pos (digits2_pos b) - 1))
      by (apply Z.pow_le_mono_r; lia).
    lia.
  - symmetry. apply Z.compare_gt_iff.
    assert (2 ^ Z.pos (digits2_pos b) <= 2 ^ (Z.pos (digits2_pos a) - 1))
      by (apply Z.pow_le_mono_r; lia).
    lia.
Qed.

Lemma countOf_SF (n : nat) :
  Z.of_nat n < 2 ^ 53 ->
  Prim2SF (countOf n) = binary_normalize prec emax (Z.of_nat n) 0 false.
Proof.
  intros Hn. unfold countOf, float_of_Z.
  replace (Z.of_nat n <? 0) with false by (symmetry; apply Z.ltb_ge; lia).
  rewrite of_uint63_spec. f_equal.
  rewrite Uint63.of_Z_spec. apply Z.mod_small.
  split; [lia |]. eapply Z.lt_trans; [exact Hn |]. reflexivity.
Qed.

Lemma countOf_compare (m n : nat) :
  Z.of_nat m < 2 ^ 53 -> Z.of_nat n < 2 ^ 53 ->
  SFcompare (Prim2SF (countOf m)) (Prim2SF (countOf n)) = Some (Z.of_nat m ?= Z.of_nat n).
Proof.
  intros Hm Hn. rewrite !countOf_SF by assumption.
  destruct (Z.of_nat m) as [| a | a] eqn:Ea; [| | lia];
    destruct (Z.of_nat n) as [| b | b] eqn:Eb; try lia.
  - reflexivity.
  - rewrite normalize_small by assumption. reflexivity.
  - rewrite normalize_small by assumption. reflexivity.
  - apply compare_small; assumption.
Qed.

Lemma countOf_leb (m n : nat) :
  Z.of_nat m < 2 ^ 53 -> Z.of_nat n < 2 ^ 53 ->
  PrimFloat.leb (countOf m) (countOf n) = (m <=? n)%nat.
Proof.
  intros Hm Hn. rewrite FloatAxioms.leb_spec. unfold SFleb. rewrite countOf_compare by assumption.
  destruct (Z.compare_spec (Z.of_nat m) (Z.of_nat n));
    symmetry; [apply Nat.leb_le | apply Nat.leb_le | apply Nat.leb_gt]; lia.
Qed.

Lemma countOf_ltb (m n : nat) :
  Z.of_nat m < 2 ^ 53 -> Z.of_nat n < 2 ^ 53 ->
  PrimFloat.ltb (countOf m) (countOf n) = (m <? n)%nat.
Proof.
  intros Hm Hn. rewrite FloatAxioms.ltb_spec. unfold SFltb. rewrite countOf_compare by assumption.
  destruct (Z.compare_spec (Z.of_nat m) (Z.of_nat n));
    symmetry; [apply Nat.ltb_ge | apply Nat.ltb_lt | apply Nat.ltb_ge]; lia.
Qed.

End Counts.

End Binary64.

(** ** Curve geometry *)

Module CurveProperties.
Import Curve Binary64.

(** *** In exact arithmetic *)

(** Over the reals the Bernstein form is the curve of de Casteljau's
    construction. *)
Lemma cubicBezier_deCasteljau (p0 p1 p2 p3 : Point R) (t : R) :
  cubicBezier p0 p1 p2 p3 t = bezierPoint p0 p1 p2 p3 t.
Proof.
  unfold cubicBezier, bezierPoint, lerpPoint, lerp.
  cbn [nadd nsub nmul lit R_JsNumber x y]. f_equal; ring.
Qed.

Lemma position_without_offset (lateralSpread : R) (e : EdgePath R) (t off : R) :
  (lateralSpread <= 0 \/ off = 0)%R ->
  _getPositionAlongEdge lateralSpread e t off = Some (edgeCurve e t).
Proof.
  intros Hno. unfold _getPositionAlongEdge, edgeCurve, bezierPoint, lerpPoint, lerp.
  cbn [ngt nne nadd nsub nmul ndiv lit R_JsNumber x y].
  assert (Hguard : (if Rlt_dec 0 lateralSpread then true else false)
                   && (if Req_dec_T off 0 then false else true) = false).
  { destruct Hno as [Hs | Ho].
    - destruct (Rlt_dec 0 lateralSpread); [lra | reflexivity].
    - destruct (Rlt_dec 0 lateralSpread), (Req_dec_T off 0); try reflexivity; contradiction. }
  rewrite Hguard. f_equal. f_equal; ring.
Qed.

Lemma edgeCurve_start (e : EdgePath R) :
  edgeCurve e 0 = {| x := sourceX e; y := sourceY e |}.
Proof.
  unfold edgeCurve, bezierPoint, lerpPoint, lerp; cbn [x y]. f_equal; field.
Qed.

Lemma edgeCurve_end (e : EdgePath R) :
  edgeCurve e 1 = {| x := targetX e; y := targetY e |}.
Proof.
  unfold edgeCurve, bezierPoint, lerpPoint, lerp; cbn [x y]. f_equal; field.
Qed.

(** With a positive spread and a non-zero offset the returned point lies at
    distance |lateralOffset * lateralSpread| from the point of the curve,
    unless the tangent vanishes there. *)
Lemma position_with_offset (lateralSpread : R) (e : EdgePath R) (t off : R) :
  (0 < lateralSpread)%R -> off <> 0%R ->
  exists p, _getPositionAlongEdge lateralSpread e t off = Some p
    /\ (p = edgeCurve e t
        \/ ((x p - x (edgeCurve e t)) * (x p - x (edgeCurve e t))
            + (y p - y (edgeCurve e t)) * (y p - y (edgeCurve e t))
            = (off * lateralSpread) * (off * lateralSpread))%R).
Proof.
  intros Hs Ho. unfold _getPositionAlongEdge, edgeCurve, bezierPoint, lerpPoint, lerp.
  cbn [ngt nne nadd nsub nmul ndiv nneg lit Math_sqrt R_JsNumber x y].
  destruct (Rlt_dec 0 lateralSpread) as [_ | Hn]; [| contradiction].
  destruct (Req_dec_T off 0) as [Hz | _]; [contradiction |].
  cbn [andb].
  match goal with
  | |- context [sqrt (?a * ?a + ?b * ?b)] => set (dx := a); set (dy := b)
  end.
  set (D := (dx * dx + dy * dy)%R).
  destruct (Rlt_dec 0 (sqrt D)) as [Hlen | _].
  - eexists. split; [reflexivity |]. right. cbn [x y].
    assert (HD : (sqrt D * sqrt D = D)%R) by (apply sqrt_sqrt; unfold D; nra).
    set (L := sqrt D) in *.
    match goal with
    | |- ((?x0 + ?u - ?xb) * _ + (?y0 + ?v - ?yb) * _ = _)%R =>
        replace (x0 + u - xb)%R with u by ring;
        replace (y0 + v - yb)%R with v by (unfold Rdiv; ring)
    end.
    replace (- dy / L * off * lateralSpread * (- dy / L * off * lateralSpread)
             + dx / L * off * lateralSpread * (dx / L * off * lateralSpread))%R
      with (D / (L * L) * ((off * lateralSpread) * (off * lateralSpread)))%R
      by (unfold D; field; lra).
    rewrite HD. field. rewrite <- HD. nra.
  - eexists. split; [reflexivity |]. left. f_equal; unfold Rdiv; ring.
Qed.

(** When no lateral displacement applies, the position is exactly the
    point of the curve, the source at t = 0 and the target at t = 1. *)
Corollary exact_position_on_curve (lateralSpread : R) (e : EdgePath R) (t off : R) :
  (lateralSpread <= 0 \/ off = 0)%R ->
  _getPositionAlongEdge lateralSpread e t off = Some (edgeCurve e t)
  /\ _getPositionAlongEdge lateralSpread e (lit 0) off
     = Some {| x := sourceX e; y := sourceY e |}
  /\ _getPositionAlongEdge lateralSpread e (lit 1) off
     = Some {| x := targetX e; y := targetY e |}.
Proof.
  intros Hno. repeat split.
  - apply position_without_offset; assumption.
  - rewrite position_without_offset by assumption. f_equal. apply edgeCurve_start.
  - rewrite position_without_offset by assumption. f_equal. apply edgeCurve_end.
Qed.

(** *** In binary64, as the program runs *)

Local Open Scope float_scope.

(** The four coordinates of the edge are finite and the sum of the two Y
    values does not overflow. *)
Definition finiteEdge (e : EdgePath float) : bool :=
  isFinite (sourceX e) && isFinite (sourceY e) && isFinite (targetX e)
  && isFinite (targetY e) && isFinite (midY e).

(** [lateralSpread > 0 && lateralOffset !== 0], the condition under which
    the point is moved off the curve. *)
Definition displaced (lateralSpread lateralOffset : float) : bool :=
  PrimFloat.ltb 0 lateralSpread && negb (PrimFloat.eqb lateralOffset 0).

Lemma position_is_bezier (lateralSpread : float) (e : EdgePath float) (t off : float) :
  displaced lateralSpread off = false ->
  _getPositionAlongEdge lateralSpread e t off = Some (edgeBezier e t).
Proof.
  unfold displaced. intros Hg. unfold _getPositionAlongEdge.
  cbn [ngt nne lit float_JsNumber]. change (float_of_Z 0) with 0.
  rewrite Hg. reflexivity.
Qed.

(** At t = 0 the weights of the four control points are 1, 0, 0, 0 and at
    t = 1 they are 0, 0, 0, 1. *)
Lemma edgeBezier_start (e : EdgePath float) :
  edgeBezier e 0
  = {| x := 1 * sourceX e + 0 * sourceX e + 0 * targetX e + 0 * targetX e;
       y := 1 * sourceY e + 0 * midY e + 0 * midY e + 0 * targetY e |}.
Proof. reflexivity. Qed.

Lemma edgeBezier_end (e : EdgePath float) :
  edgeBezier e 1
  = {| x := 0 * sourceX e + 0 * sourceX e + 0 * targetX e + 1 * targetX e;
       y := 0 * sourceY e + 0 * midY e + 0 * midY e + 1 * targetY e |}.
Proof. reflexivity. Qed.

Lemma start_coordinate (a b c d : float) :
  isFinite a = true -> isFinite b = true -> isFinite c = true -> isFinite d = true ->
  PrimFloat.eqb (1 * a + 0 * b + 0 * c + 0 * d) a = true.
Proof.
  intros Ha Hb Hc Hd. apply sameNumber_eqb; [exact Ha |].
  repeat (apply float_add_zero_r; [exact Ha | | apply float_mul_0_l; assumption]).
  apply float_mul_1_l; exact Ha.
Qed.

Lemma end_coordinate (a b c d : float) :
  isFinite a = true -> isFinite b = true -> isFinite c = true -> isFinite d = true ->
  PrimFloat.eqb (0 * a + 0 * b + 0 * c + 1 * d) d = true.
Proof.
  intros Ha Hb Hc Hd. apply sameNumber_eqb; [exact Hd |].
  apply float_add_zero_l; [exact Hd | | apply float_mul_1_l; exact Hd].
  repeat (apply float_add_zero_zero; [| apply float_mul_0_l; assumption]).
  apply float_mul_0_l; exact Ha.
Qed.

(** C3 (as amended).  When no lateral displacement applies (the configured
    spread is not positive, or the particle's offset is zero), the position
    function returns, for every t, the binary64 evaluation of the cubic
    Bezier with control points (sourceX, midY) and (targetX, midY), midY the
    average of the two Y values.  When moreover the coordinates of the edge
    are finite and the sum of the two Y values does not overflow, the point
    returned at t = 0 equals the source and the point returned at t = 1
    equals the target, coordinate by coordinate under [===]. *)
Theorem C3_position_on_curve (lateralSpread : float) (e : EdgePath float) (t off : float) :
  displaced lateralSpread off = false ->
  _getPositionAlongEdge lateralSpread e t off = Some (edgeBezier e t)
  /\ (finiteEdge e = true ->
      exists p q,
        _getPositionAlongEdge lateralSpread e 0 off = Some p
        /\ PrimFloat.eqb (x p) (sourceX e) = true
        /\ PrimFloat.eqb (y p) (sourceY e) = true
        /\ _getPositionAlongEdge lateralSpread e 1 off = Some q
        /\ PrimFloat.eqb (x q) (targetX e) = true
        /\ PrimFloat.eqb (y q) (targetY e) = true).
Proof.
  intros Hg. split; [apply position_is_bezier; exact Hg |].
  unfold finiteEdge. intros Hfin.
  apply andb_prop in Hfin as [Hfin Hm]. apply andb_prop in Hfin as [Hfin Hty].
  apply andb_prop in Hfin as [Hfin Htx]. apply andb_prop in Hfin as [Hsx Hsy].
  exists (edgeBezier e 0), (edgeBezier e 1).
  rewrite !position_is_bezier by exact Hg.
  rewrite edgeBezier_start, edgeBezier_end. cbn [x y].
  repeat split; first [apply start_coordinate | apply end_coordinate]; assumption.
Qed.

Definition verticalF : EdgePath float :=
  {| sourceX := 0; sourceY := 0; targetX := 0; targetY := 100 |}.

(** An edge from (40, 1e308) to (90, 1e308): the coordinates are finite,
    the sum of the two Y values is not. *)
Definition farF : EdgePath float :=
  {| sourceX := 40; sourceY := 1e308; targetX := 90; targetY := 1e308 |}.

(** An edge that starts at an infinite X coordinate. *)
Definition unboundedF : EdgePath float :=
  {| sourceX := infinity; sourceY := 0; targetX := 0; targetY := 0 |}.

(** An edge from (40.5, 10) to (90, 110.25). *)
Definition slantedF : EdgePath float :=
  {| sourceX := 40.5; sourceY := 10; targetX := 90; targetY := 110.25 |}.

(** An edge whose source X is the negative zero. *)
Definition fromMinusZeroF : EdgePath float :=
  {| sourceX := -0; sourceY := 0; targetX := 5; targetY := 0 |}.

(** History mode (spread 25) with a particle on the centre line (offset 0),
    on the edge from (40.5, 10) to (90, 110.25). *)
Lemma C3_position_on_curve_witness :
  _getPositionAlongEdge 25 slantedF 0.5 0 = Some (edgeBezier slantedF 0.5)
  /\ exists p q,
       _getPositionAlongEdge 25 slantedF 0 0 = Some p
       /\ PrimFloat.eqb (x p) (sourceX slantedF) = true
       /\ PrimFloat.eqb (y p) (sourceY slantedF) = true
       /\ _getPositionAlongEdge 25 slantedF 1 0 = Some q
       /\ PrimFloat.eqb (x q) (targetX slantedF) = true
       /\ PrimFloat.eqb (y q) (targetY slantedF) = true.
Proof.
  destruct (C3_position_on_curve 25 slantedF 0.5 0) as [Hcurve Hends].
  - vm_compute. reflexivity.
  - split; [exact Hcurve |]. apply Hends. vm_compute. reflexivity.
Defined.

(** The midpoint of the vertical edge. *)
Example verticalF_midpoint : edgeBezier verticalF 0.5 = {| x := 0; y := 50 |}.
Proof. vm_compute. reflexivity. Qed.

(** The sign of a zero coordinate is the one thing [===] does not see: from
    a source X of -0 the function returns +0 at t = 0. *)
Example minus_zero_source :
  option_map (fun p => PrimFloat.classify (x p))
    (_getPositionAlongEdge 0 fromMinusZeroF 0 0) = Some PZero
  /\ PrimFloat.classify (sourceX fromMinusZeroF) = NZero
  /\ PrimFloat.eqb 0 (sourceX fromMinusZeroF) = true.
Proof. vm_compute. repeat split. Qed.

(** With a lateral spread of 10 pixels and a particle offset of 1, the
    position at t = 0 on the edge from (0, 0) to (0, 100) is (-10, 0), not
    the source (0, 0).  With no displacement at all, on the edge from
    (40, 1e308) to (90, 1e308) the sum of the two Y values overflows, midY
    is infinite, and the Y coordinate returned at t = 0 is NaN, which equals
    nothing; and on an edge whose source X is infinite the X coordinate
    returned at t = 0 is NaN as well. *)
Lemma C3_lateral_offset_moves_endpoint :
  (_getPositionAlongEdge 10 verticalF 0 1 = Some {| x := -10; y := 0 |}
   /\ _getPositionAlongEdge 10 verticalF 0 1
      <> Some {| x := sourceX verticalF; y := sourceY verticalF |})
  /\ (displaced 0 0 = false
      /\ isFinite (sourceX farF) && isFinite (sourceY farF)
         && isFinite (targetX farF) && isFinite (targetY farF) = true
      /\ (exists p, _getPositionAlongEdge 0 farF 0 0 = Some p
            /\ PrimFloat.is_nan (y p) = true
            /\ PrimFloat.eqb (y p) (sourceY farF) = false)
      /\ (exists p, _getPositionAlongEdge 0 unboundedF 0 0 = Some p
            /\ PrimFloat.is_nan (x p) = true
            /\ PrimFloat.eqb (x p) (sourceX unboundedF) = false)).
Proof.
  split; [split |].
  - vm_compute. reflexivity.
  - intros Heq.
    apply (f_equal (fun o => match o with
                             | Some p => PrimFloat.eqb (x p) 0
                             | None => false
                             end)) in Heq.
    vm_compute in Heq. discriminate.
  - split; [vm_compute; reflexivity |]. split; [vm_compute; reflexivity |].
    split.
    + exists (edgeBezier farF 0). split; [apply position_is_bezier; reflexivity |].
      split; vm_compute; reflexivity.
    + exists (edgeBezier unboundedF 0).
      split; [apply position_is_bezier; reflexivity |].
      split; vm_compute; reflexivity.
Qed.

End CurveProperties.

(** ** Weighted random walk router *)

Module RouterProperties.
Import ParticleSystem.

(** A node is a sink when the loop condition of the router fails on it. *)
Definition sink (adj : gmap string (list EdgeInfo)) (n : string) : Prop :=
  adj !! n = None \/ adj !! n = Some [].

(** [Walk adj n p m]: following the edges named by [p] from [n] leads to [m]. *)
Inductive Walk (adj : gmap string (list EdgeInfo)) : string -> list string -> string -> Prop :=
| Walk_here n : Walk adj n [] n
| Walk_edge n es e p m :
    adj !! n = Some es -> e ∈ es -> Walk adj (target e) p m ->
    Walk adj n (edgeId e :: p) m.

Section Router.
Variable random : nat -> float.
Variable adj : gmap string (list EdgeInfo).

Lemma selectEdge_cases (es : list EdgeInfo) (r : float) (c : EdgeInfo) :
  selectEdge es r c = c \/ selectEdge es r c ∈ es.
Proof.
  revert r. induction es as [| e es IH]; intros r; simpl.
  - left; reflexivity.
  - destruct (PrimFloat.leb _ _).
    + right. apply list_elem_of_here.
    + destruct (IH (PrimFloat.sub r (weight e))) as [-> | Hin]; [left; reflexivity |].
      right. apply list_elem_of_further; exact Hin.
Qed.

Lemma selectEdge_in (e0 : EdgeInfo) (es : list EdgeInfo) (r : float) :
  selectEdge (e0 :: es) r e0 ∈ e0 :: es.
Proof.
  destruct (selectEdge_cases (e0 :: es) r e0) as [-> | Hin]; [apply list_elem_of_here | exact Hin].
Qed.

Lemma selectEdge_single (e : EdgeInfo) (r : float) : selectEdge [e] r e = e.
Proof. simpl. destruct (PrimFloat.leb _ _); reflexivity. Qed.

Lemma sink_step (fuel : nat) (path : list string) (n : string) (k : nat) :
  sink adj n -> generatePath_loop random adj (S fuel) path n k = Some (path, k).
Proof. intros [Hn | Hn]; simpl; rewrite Hn; reflexivity. Qed.

Lemma sink_dec (n : string) : {sink adj n} + {exists e0 es, adj !! n = Some (e0 :: es)}.
Proof.
  unfold sink. destruct (adj !! n) as [[| e0 es] |].
  - left; right; reflexivity.
  - right; eauto.
  - left; left; reflexivity.
Qed.

(** The accumulated path is a prefix of the result and plays no other
    part in the loop. *)
Lemma generatePath_loop_acc (fuel : nat) :
  forall path current k,
    generatePath_loop random adj fuel path current k
    = option_map (fun r => (path ++ r.1, r.2))
        (generatePath_loop random adj fuel [] current k).
Proof.
  induction fuel as [| fuel IH]; intros path current k; [reflexivity |].
  simpl. destruct (adj !! current) as [[| e0 es] |]; simpl;
    rewrite ?app_nil_r; try reflexivity.
  rewrite IH. rewrite (IH [_]).
  destruct (generatePath_loop random adj fuel [] _ (S k)) as [[p k'] |]; simpl;
    [rewrite <- app_assoc |]; reflexivity.
Qed.

(** Whatever the loop returns extends the accumulated path by a walk that
    ends in a sink, and one draw is consumed per hop. *)
Lemma generatePath_loop_sound (fuel : nat) :
  forall path current k p k',
    generatePath_loop random adj fuel path current k = Some (p, k') ->
    exists rest last, p = path ++ rest /\ k' = k + length rest
                      /\ Walk adj current rest last /\ sink adj last.
Proof.
  induction fuel as [| fuel IH]; intros path current k p k' Hrun; [discriminate |].
  simpl in Hrun.
  destruct (adj !! current) as [[| e0 es] |] eqn:Hlook.
  - injection Hrun as <- <-. exists [], current.
    rewrite app_nil_r, Nat.add_0_r. repeat split; [constructor | right; exact Hlook].
  - apply IH in Hrun as (rest & last & -> & -> & Hwalk & Hsink).
    eexists (_ :: rest), last. rewrite <- app_assoc. simpl.
    repeat split; [lia | | exact Hsink].
    eapply Walk_edge; [exact Hlook | apply selectEdge_in | exact Hwalk].
  - injection Hrun as <- <-. exists [], current.
    rewrite app_nil_r, Nat.add_0_r. repeat split; [constructor | left; exact Hlook].
Qed.

(** More fuel does not change a result. *)
Lemma generatePath_loop_mono (fuel : nat) :
  forall fuel' path current k r,
    fuel <= fuel' ->
    generatePath_loop random adj fuel path current k = Some r ->
    generatePath_loop random adj fuel' path current k = Some r.
Proof.
  induction fuel as [| fuel IH]; intros fuel' path current k r Hle Hrun; [discriminate |].
  destruct fuel' as [| fuel']; [lia |].
  simpl in *. destruct (adj !! current) as [[| e0 es] |]; try exact Hrun.
  apply IH; [lia | exact Hrun].
Qed.

(** An empty result means that the start node is a sink and no draw was
    taken. *)
Lemma generatePath_empty (fuel : nat) (start : string) (k k' : nat) :
  _generatePath random adj fuel start k = Some ([], k') -> k' = k /\ sink adj start.
Proof.
  intros Hrun. apply generatePath_loop_sound in Hrun as (rest & last & Hp & -> & Hwalk & Hsink).
  simpl in Hp. subst rest. inversion Hwalk; subst. split; [simpl; lia | exact Hsink].
Qed.

Section Ranked.
(** A rank that strictly decreases along every edge: the graph has no
    cycle. *)
Variable rank : string -> nat.
Hypothesis rank_decreases :
  forall n es e, adj !! n = Some es -> e ∈ es -> rank (target e) < rank n.

Lemma generatePath_loop_terminates (fuel : nat) :
  forall path current k,
    rank current < fuel ->
    exists rest, generatePath_loop random adj fuel path current k
                 = Some (path ++ rest, k + length rest)
                 /\ length rest <= rank current.
Proof.
  induction fuel as [| fuel IH]; intros path current k Hfuel; [lia |].
  simpl. destruct (adj !! current) as [[| e0 es] |] eqn:Hlook.
  - exists []. rewrite app_nil_r, Nat.add_0_r. split; [reflexivity | simpl; lia].
  - set (chosen := selectEdge (e0 :: es) _ e0).
    assert (Hin : chosen ∈ e0 :: es) by apply selectEdge_in.
    pose proof (rank_decreases _ _ _ Hlook Hin) as Hlt.
    destruct (IH (path ++ [edgeId chosen]) (target chosen) (S k)) as (rest & Hrun & Hlen);
      [lia |].
    exists (edgeId chosen :: rest). rewrite Hrun, <- app_assoc. simpl.
    split; [f_equal; f_equal; lia | lia].
  - exists []. rewrite app_nil_r, Nat.add_0_r. split; [reflexivity | simpl; lia].
Qed.

(** C2 (as amended).  On an adjacency map without cycles (some rank
    strictly decreases along every edge) the router returns for every
    start node and every sequence of draws: it follows edges until it
    reaches a sink, after at most rank-of-start hops.  The loop has no
    hop bound of its own. *)
Theorem C2_router_terminates_without_cycles (start : string) (k fuel : nat) :
  rank start < fuel ->
  exists path last,
    _generatePath random adj fuel start k = Some (path, k + length path)
    /\ length path <= rank start
    /\ Walk adj start path last /\ sink adj last.
Proof.
  intros Hfuel.
  destruct (generatePath_loop_terminates fuel [] start k Hfuel) as (rest & Hrun & Hlen).
  simpl in Hrun.
  destruct (generatePath_loop_sound _ _ _ _ _ _ Hrun)
    as (rest' & last & Hp & _ & Hwalk & Hsink).
  simpl in Hp. subst rest'. exists rest, last. repeat split; assumption.
Qed.
End Ranked.

(** C4 (as amended).  For every adjacency map and every sequence of draws:
    started at a sink the router returns the empty path.  Started at a node
    with exactly one outgoing edge, of any weight, it takes that edge with
    one draw and goes on from the edge's target: it returns exactly when the
    router started at the target returns, one iteration earlier, and its
    path is then that edge followed by the path generated from the target;
    when the target is a sink it returns that one edge alone. *)
Theorem C4_router_sink_and_single_edge (start : string) (k fuel : nat) :
  (sink adj start -> _generatePath random adj (S fuel) start k = Some ([], k))
  /\ (forall e, adj !! start = Some [e] ->
        _generatePath random adj (S fuel) start k
        = option_map (fun r => (edgeId e :: r.1, r.2))
            (_generatePath random adj fuel (target e) (S k))
        /\ (sink adj (target e) ->
             _generatePath random adj (S (S fuel)) start k = Some ([edgeId e], S k))).
Proof.
  split; [apply sink_step |].
  intros e Hone. split.
  - unfold _generatePath. cbn [generatePath_loop].
    rewrite Hone, selectEdge_single. apply generatePath_loop_acc.
  - intros Hsink. unfold _generatePath.
    cbn [generatePath_loop]. rewrite Hone, selectEdge_single.
    destruct Hsink as [-> | ->]; reflexivity.
Qed.

End Router.

(** *** The example graphs *)

Definition adjTwo : gmap string (list EdgeInfo) :=
  adjacency (buildAdjacency twoNodes (new defaultConfig)).
Definition adjChain : gmap string (list EdgeInfo) :=
  adjacency (buildAdjacency chain (new defaultConfig)).
Definition adjLoop : gmap string (list EdgeInfo) :=
  adjacency (buildAdjacency selfLoop (new defaultConfig)).

Definition hop (i t : string) : EdgeInfo :=
  {| edgeId := i; target := t; weight := 1%float |}.

Definition rankChain (n : string) : nat :=
  if String.eqb n "a" then 2 else if String.eqb n "b" then 1 else 0.

Lemma adjChain_eq : adjChain = <["b" := [hop "e2" "c"]]> (<["a" := [hop "e1" "b"]]> ∅).
Proof. vm_compute. reflexivity. Qed.

Lemma rankChain_decreases (n : string) (es : list EdgeInfo) (e : EdgeInfo) :
  adjChain !! n = Some es -> e ∈ es -> rankChain (target e) < rankChain n.
Proof.
  rewrite adjChain_eq. intros Hlook Hin.
  destruct (decide (n = "b"%string)) as [-> | Hb].
  - rewrite lookup_insert_eq in Hlook. injection Hlook as <-.
    apply list_elem_of_singleton in Hin as ->. vm_compute. lia.
  - rewrite lookup_insert_ne in Hlook by congruence.
    destruct (decide (n = "a"%string)) as [-> | Ha].
    + rewrite lookup_insert_eq in Hlook. injection Hlook as <-.
      apply list_elem_of_singleton in Hin as ->. vm_compute. lia.
    + rewrite lookup_insert_ne, lookup_empty in Hlook by congruence. discriminate.
Qed.

Lemma C2_router_terminates_without_cycles_witness :
  exists path last,
    _generatePath halves adjChain 3 "a" 0 = Some (path, 0 + length path)
    /\ length path <= rankChain "a"
    /\ Walk adjChain "a" path last /\ sink adjChain last.
Proof.
  apply (C2_router_terminates_without_cycles halves adjChain rankChain
           rankChain_decreases "a" 0 3).
  vm_compute. lia.
Defined.

Lemma selfLoop_runs_out (random : nat -> float) (fuel : nat) :
  forall path k, generatePath_loop random adjLoop fuel path "a" k = None.
Proof.
  assert (Hlook : adjLoop !! "a"%string = Some [hop "e1" "a"]) by (vm_compute; reflexivity).
  induction fuel as [| fuel IH]; intros path k; [reflexivity |].
  cbn [generatePath_loop]. rewrite Hlook, selectEdge_single. apply IH.
Qed.

(** On the graph with the single edge a -> a the router never returns,
    whatever the draws and however many iterations it is given: nothing
    bounds the number of hops. *)
Lemma C2_self_loop_never_returns :
  ~ exists (random : nat -> float) (fuel k : nat) r,
      _generatePath random adjLoop fuel "a" k = Some r.
Proof.
  intros (random & fuel & k & r & Hrun).
  unfold _generatePath in Hrun. rewrite selfLoop_runs_out in Hrun. discriminate.
Qed.

Lemma C4_router_sink_and_single_edge_witness :
  _generatePath halves adjChain 1 "c" 0 = Some ([], 0)
  /\ _generatePath halves adjChain 3 "a" 0
     = option_map (fun r => ("e1"%string :: r.1, r.2))
         (_generatePath halves adjChain 2 "b" 1)
  /\ _generatePath halves adjTwo 2 "entry" 0 = Some (["e1"%string], 1).
Proof.
  split; [| split].
  - apply (C4_router_sink_and_single_edge halves adjChain "c" 0 0).
    left. vm_compute. reflexivity.
  - destruct (C4_router_sink_and_single_edge halves adjChain "a" 0 2) as [_ Hone].
    destruct (Hone (hop "e1" "b")) as [Hgo _]; [vm_compute; reflexivity |].
    exact Hgo.
  - destruct (C4_router_sink_and_single_edge halves adjTwo "entry" 0 0) as [_ Hone].
    destruct (Hone (hop "e1" "exit")) as [_ Hsink]; [vm_compute; reflexivity |].
    apply Hsink. left. vm_compute. reflexivity.
Defined.

(** In the chain a -> b -> c the node a has exactly one outgoing edge, of
    weight 1, and the path generated from a has two edges.  In the graph
    a -> a the node a has exactly one outgoing edge, of weight 1, and the
    router yields no path, however many iterations it is given. *)
Lemma C4_single_edge_path_continues :
  (exists e, adjChain !! "a"%string = Some [e] /\ weight e = 1%float
     /\ _generatePath halves adjChain 3 "a" 0 = Some (["e1"; "e2"]%string, 2)
     /\ ~ exists k', _generatePath halves adjChain 3 "a" 0 = Some ([edgeId e], k'))
  /\ (exists e, adjLoop !! "a"%string = Some [e] /\ weight e = 1%float
        /\ forall fuel k, _generatePath halves adjLoop fuel "a" k = None).
Proof.
  split.
  - exists (hop "e1" "b"). repeat split; try (vm_compute; reflexivity).
    intros (k' & Hrun).
    assert (Hreal : _generatePath halves adjChain 3 "a" 0 = Some (["e1"; "e2"]%string, 2))
      by (vm_compute; reflexivity).
    rewrite Hreal in Hrun. discriminate.
  - exists (hop "e1" "a"). repeat split; try (vm_compute; reflexivity).
    intros fuel k. unfold _generatePath. apply selfLoop_runs_out.
Qed.

End RouterProperties.

(** ** Particle pool and scheduler *)

Module PoolProperties.
Import Curve ParticleSystem RouterProperties Binary64.

(** The edge index of a particle is within [0, edgePath.length]. *)
Definition inRange (p : Particle) : Prop := edgeIndex p <= length (edgePath p).

(** In the comparisons [count >= limit] and [count > limit] of the program
    the limit answers, for every count up to [upto], as the whole number
    [m] does.  A limit of 1.5 does not: it answers [>=] as 2 and [>] as 1. *)
Definition wholeLimit (limit : float) (m upto : nat) : Prop :=
  forall n, n <= upto ->
    PrimFloat.leb limit (countOf n) = (m <=? n)
    /\ PrimFloat.ltb limit (countOf n) = (m <? n).

(** What the [forEach] callback leaves in the array for a particle. *)
Definition settle (cfg : ParticleSystemConfig) (paths : gmap string (EdgePath float))
    (dt : float) (p : Particle) : Particle :=
  if completed p then p else advanceParticle cfg paths dt p.

(** The indices, counted from [i], of the completed particles of a list. *)
Fixpoint completedFrom (i : nat) (l : list Particle) : list nat :=
  match l with
  | [] => []
  | p :: l => if completed p then i :: completedFrom (S i) l else completedFrom (S i) l
  end.

Lemma completedFrom_snoc (l : list Particle) (p : Particle) :
  forall i, completedFrom i (l ++ [p])
            = completedFrom i l ++ (if completed p then [i + length l] else []).
Proof.
  induction l as [| q l IH]; intros i; simpl.
  - rewrite Nat.add_0_r. destruct (completed p); reflexivity.
  - rewrite IH. replace (S i + length l) with (i + S (length l)) by lia.
    destruct (completed q); reflexivity.
Qed.

Lemma completedFrom_shift (l : list Particle) :
  forall i, completedFrom (S i) l = map S (completedFrom i l).
Proof.
  induction l as [| q l IH]; intros i; simpl; [reflexivity |].
  rewrite IH. destruct (completed q); reflexivity.
Qed.

Lemma length_completedFrom (l : list Particle) :
  forall i, length (completedFrom i l) = length (List.filter completed l).
Proof.
  induction l as [| q l IH]; intros i; simpl; [reflexivity |].
  destruct (completed q); simpl; rewrite IH; reflexivity.
Qed.

Lemma advanceParticle_edgePath cfg paths dt p :
  edgePath (advanceParticle cfg paths dt p) = edgePath p.
Proof. reflexivity. Qed.

Lemma advanceParticle_inRange cfg paths dt p :
  completed p = false -> inRange (advanceParticle cfg paths dt p).
Proof.
  unfold completed, inRange. intros Hlive. apply Nat.leb_gt in Hlive.
  simpl. destruct (PrimFloat.leb _ _); lia.
Qed.

Lemma settle_inRange cfg paths dt p : inRange p -> inRange (settle cfg paths dt p).
Proof.
  intros Hp. unfold settle. destruct (completed p) eqn:Hc; [exact Hp |].
  apply advanceParticle_inRange; exact Hc.
Qed.

Section Pass.
Variables dt wall : float.
Variable s : System.

Let ps := particles s.
Let step := settle (config s) (edgePaths s) dt.

(** The state after the first [n] callbacks of the [forEach]. *)
Definition afterVisits (n : nat) : System :=
  let done := completedFrom 0 (take n ps) in
  {| particles := map step (take n ps) ++ drop n ps;
     edgePaths := edgePaths s; adjacency := adjacency s;
     selectedEdgeIds := selectedEdgeIds s; config := config s;
     _lastSpawnTime := _lastSpawnTime s;
     _completedCount := _completedCount s + length done;
     _recentCompletions := _recentCompletions s ++ replicate (length done) wall |}.

Lemma forEachParticle_state (n : nat) :
  n <= length ps ->
  forEachParticle dt wall n s = (afterVisits n, completedFrom 0 (take n ps)).
Proof.
  induction n as [| n IH]; intros Hn.
  - unfold forEachParticle, afterVisits. simpl. rewrite Nat.add_0_r, app_nil_r.
    subst ps. destruct s; reflexivity.
  - unfold forEachParticle in *. rewrite seq_S, fold_left_app, IH by lia. simpl.
    destruct (lookup_lt_is_Some_2 ps n) as [p Hp]; [lia |].
    assert (Hlen : length (map step (take n ps)) = n)
      by (rewrite length_map, length_take_le; lia).
    assert (Hget : (map step (take n ps) ++ drop n ps) !! n = Some p).
    { rewrite lookup_app_r by lia. rewrite Hlen, Nat.sub_diag, lookup_drop, Nat.add_0_r.
      exact Hp. }
    rewrite Hget.
    assert (Htake : length (take n ps) = n) by (rewrite length_take_le; lia).
    unfold afterVisits.
    rewrite (take_S_r ps n p Hp), completedFrom_snoc, map_app, Htake. simpl.
    destruct (completed p) eqn:Hc.
    + assert (Hs : step p = p) by (unfold step, settle; rewrite Hc; reflexivity).
      unfold record_completion. simpl.
      rewrite length_app, replicate_add, <- !app_assoc. simpl.
      rewrite (drop_S ps p n Hp), Hs. simpl.
      f_equal. f_equal. lia.
    + assert (Hs : step p = advanceParticle (config s) (edgePaths s) dt p)
        by (unfold step, settle; rewrite Hc; reflexivity).
      unfold set_particles. simpl. rewrite ?app_nil_r, ?Nat.add_0_r.
      rewrite insert_app_r_alt by lia. rewrite Hlen, Nat.sub_diag.
      rewrite (drop_S ps p n Hp), Hs. simpl.
      rewrite <- app_assoc. reflexivity.
Qed.
End Pass.

Lemma fold_delete_shift (A : Type) (idx : list nat) :
  forall (a : A) (l : list A),
    fold_left (fun arr i => delete i arr) (map S idx) (a :: l)
    = a :: fold_left (fun arr i => delete i arr) idx l.
Proof.
  induction idx as [| i idx IH]; intros a l; simpl; [reflexivity |].
  apply IH.
Qed.

(** Splicing out the recorded indices, last first, leaves the particles that
    had not completed, each as the callback left it. *)
Lemma spliceAll_completed cfg paths dt (l : list Particle) :
  spliceAll (completedFrom 0 l) (map (settle cfg paths dt) l)
  = map (advanceParticle cfg paths dt) (List.filter (fun p => negb (completed p)) l).
Proof.
  unfold spliceAll. induction l as [| p l IH]; [reflexivity |].
  simpl. rewrite completedFrom_shift. unfold settle at 1.
  destruct (completed p) eqn:Hc; simpl.
  - rewrite <- map_rev, fold_left_app, fold_delete_shift. simpl. exact IH.
  - rewrite <- map_rev, fold_delete_shift. f_equal. exact IH.
Qed.

Lemma updateParticles_eq dt wall s :
  _updateParticles dt wall s
  = {| particles := map (advanceParticle (config s) (edgePaths s) dt)
                      (List.filter (fun p => negb (completed p)) (particles s));
       edgePaths := edgePaths s; adjacency := adjacency s;
       selectedEdgeIds := selectedEdgeIds s; config := config s;
       _lastSpawnTime := _lastSpawnTime s;
       _completedCount := _completedCount s + length (List.filter completed (particles s));
       _recentCompletions := _recentCompletions s
         ++ replicate (length (List.filter completed (particles s))) wall |}.
Proof.
  unfold _updateParticles. rewrite forEachParticle_state by lia.
  unfold afterVisits, set_particles. simpl.
  rewrite firstn_all, skipn_all, app_nil_r, spliceAll_completed, length_completedFrom.
  reflexivity.
Qed.

(** *** Spawning *)

(** The outcome of a spawn attempt: the rest of the state is kept up to the
    time of the last spawn, and the array either is unchanged or, when the
    system was below capacity, has one new particle at the start of a
    non-empty path. *)
Definition spawnOutcome (s s' : System) : Prop :=
  config s' = config s /\ adjacency s' = adjacency s /\ edgePaths s' = edgePaths s
  /\ _completedCount s' = _completedCount s
  /\ (particles s' = particles s
      \/ (atCapacity s = false
          /\ exists p, particles s' = particles s ++ [p]
                       /\ edgeIndex p = 0 /\ edgePath p <> [])).

Lemma spawnOutcome_same (s : System) : spawnOutcome s s.
Proof. unfold spawnOutcome; auto 10. Qed.

Lemma newParticle_fresh random cfg path k :
  edgeIndex (newParticle random cfg path k) = 0
  /\ edgePath (newParticle random cfg path k) = path.
Proof.
  unfold newParticle. destruct (particleSizeRange cfg), (speedVariation cfg). split; reflexivity.
Qed.

Lemma push_outcome random path k s s0 :
  (length path =? 0) = false -> atCapacity s0 = false ->
  config s = config s0 -> adjacency s = adjacency s0 -> edgePaths s = edgePaths s0 ->
  _completedCount s = _completedCount s0 -> particles s = particles s0 ->
  spawnOutcome s0 (push_particle random path k s).
Proof.
  intros Hne Hcap Hc Ha He Hn Hp. unfold spawnOutcome, push_particle; simpl.
  repeat split; try assumption. right. split; [assumption |].
  destruct (newParticle_fresh random (config s) path k) as [Hi Hpath].
  eexists. rewrite Hp. repeat split; [exact Hi |].
  rewrite Hpath. intros ->. discriminate.
Qed.

Ltac spawn_cases :=
  repeat match goal with
         | H : Some _ = Some _ |- _ => injection H as <- <-
         | H : None = Some _ |- _ => discriminate H
         | H : context [match ?x with _ => _ end] |- _ => destruct x eqn:?
         | |- spawnOutcome ?s ?s => apply spawnOutcome_same
         end.

Lemma spawnOne_outcome random fuel s k s' k' :
  spawnOne random fuel s k = Some (s', k') -> spawnOutcome s s'.
Proof.
  unfold spawnOne. intros Hrun. spawn_cases.
  eapply push_outcome; eauto.
Qed.

Lemma spawnFrom_outcome random fuel nodeId s k s' k' :
  spawnFrom random fuel nodeId s k = Some (s', k') -> spawnOutcome s s'.
Proof.
  unfold spawnFrom. intros Hrun. spawn_cases.
  eapply push_outcome; eauto.
Qed.

Lemma spawnParticle_outcome random fuel time s k s' k' :
  _spawnParticle random fuel time s k = Some (s', k') -> spawnOutcome s s'.
Proof.
  unfold _spawnParticle. intros Hrun. spawn_cases.
  - unfold spawnOutcome; simpl; auto 10.
  - eapply push_outcome; eauto.
Qed.

(** Every call keeps the configuration and the graph. *)
Lemma call_frame random fuel c s k s' k' :
  call random fuel c s k = Some (s', k') ->
  config s' = config s /\ adjacency s' = adjacency s.
Proof.
  destruct c as [dt time wall | | nodeId]; simpl; intros Hrun.
  - unfold update in Hrun.
    destruct (_spawnParticle random fuel time s k) as [[s1 k1] |] eqn:Hsp; [| discriminate].
    injection Hrun as <- <-. apply spawnParticle_outcome in Hsp as (Hc & Ha & _).
    rewrite updateParticles_eq. simpl. auto.
  - apply spawnOne_outcome in Hrun as (Hc & Ha & _). auto.
  - apply spawnFrom_outcome in Hrun as (Hc & Ha & _). auto.
Qed.

Lemma outcome_inRange s s' :
  spawnOutcome s s' -> Forall inRange (particles s) -> Forall inRange (particles s').
Proof.
  intros (_ & _ & _ & _ & [-> | (_ & p & -> & Hi & _)]) Hall; [exact Hall |].
  apply Forall_app. split; [exact Hall |]. constructor; [| constructor].
  unfold inRange. rewrite Hi. lia.
Qed.

(** A whole number below 2^53 is represented exactly, and so are the
    counts it is compared with. *)
Lemma wholeLimit_countOf (m upto : nat) :
  (Z.of_nat m < 2 ^ 53)%Z -> (Z.of_nat upto < 2 ^ 53)%Z ->
  wholeLimit (countOf m) m upto.
Proof.
  intros Hm Hupto n Hn.
  assert (Hsmall : (Z.of_nat n < 2 ^ 53)%Z) by lia.
  split; [apply countOf_leb | apply countOf_ltb]; assumption.
Qed.

(** While the limit compares as the whole number m, a spawn adds a
    particle only below m. *)
Lemma outcome_capacity m upto s s' :
  wholeLimit (maxParticles (config s)) m upto -> m <= upto ->
  spawnOutcome s s' ->
  length (particles s) <= upto -> length (particles s') <= upto.
Proof.
  intros Hw Hm (_ & _ & _ & _ & [-> | (Hcap & p & -> & _)]) Hle; [exact Hle |].
  unfold atCapacity in Hcap. destruct (Hw _ Hle) as [Hleb _].
  rewrite Hleb in Hcap. apply Nat.leb_gt in Hcap.
  rewrite length_app. simpl. lia.
Qed.

Lemma splices_inRange (idx : list nat) :
  forall arr : list Particle,
    Forall inRange arr -> Forall inRange (fold_left (fun arr i => delete i arr) idx arr).
Proof.
  induction idx as [| i idx IH]; intros arr Harr; simpl; [exact Harr |].
  apply IH. apply Forall_delete. exact Harr.
Qed.

Lemma updateParticles_inRange dt wall s :
  Forall inRange (particles s) -> Forall inRange (particles (_updateParticles dt wall s)).
Proof.
  intros Hall. rewrite updateParticles_eq. simpl.
  apply Forall_map. apply Forall_forall. intros p Hin.
  apply list_elem_of_In, filter_In in Hin as [_ Hlive].
  apply advanceParticle_inRange. destruct (completed p); [discriminate | reflexivity].
Qed.

Lemma updateParticles_length dt wall s :
  length (particles (_updateParticles dt wall s)) <= length (particles s).
Proof.
  rewrite updateParticles_eq. simpl. rewrite length_map. apply filter_length_le.
Qed.

Lemma call_inRange random fuel c s k s' k' :
  call random fuel c s k = Some (s', k') ->
  Forall inRange (particles s) -> Forall inRange (particles s').
Proof.
  destruct c as [dt time wall | | nodeId]; simpl; intros Hrun Hall.
  - unfold update in Hrun.
    destruct (_spawnParticle random fuel time s k) as [[s1 k1] |] eqn:Hsp; [| discriminate].
    injection Hrun as <- <-. apply spawnParticle_outcome in Hsp.
    apply (updateParticles_inRange dt wall s1). eapply outcome_inRange; eassumption.
  - eapply outcome_inRange; [eapply spawnOne_outcome |]; eassumption.
  - eapply outcome_inRange; [eapply spawnFrom_outcome |]; eassumption.
Qed.

Lemma call_capacity random fuel m upto c s k s' k' :
  wholeLimit (maxParticles (config s)) m upto -> m <= upto ->
  call random fuel c s k = Some (s', k') ->
  length (particles s) <= upto -> length (particles s') <= upto.
Proof.
  intros Hw Hm.
  destruct c as [dt time wall | | nodeId]; simpl; intros Hrun Hle.
  - unfold update in Hrun.
    destruct (_spawnParticle random fuel time s k) as [[s1 k1] |] eqn:Hsp; [| discriminate].
    injection Hrun as <- <-. apply spawnParticle_outcome in Hsp.
    pose proof (outcome_capacity _ _ _ _ Hw Hm Hsp Hle) as Hle1.
    pose proof (updateParticles_length dt wall s1) as Hlen.
    rewrite updateParticles_eq in *. simpl in *. lia.
  - eapply outcome_capacity; [exact Hw | exact Hm | eapply spawnOne_outcome |]; eassumption.
  - eapply outcome_capacity; [exact Hw | exact Hm | eapply spawnFrom_outcome |]; eassumption.
Qed.

(** At capacity each of the three spawn paths returns with the state as
    it was. *)
Lemma spawn_at_capacity random fuel time nodeId s k :
  atCapacity s = true ->
  spawnOne random fuel s k = Some (s, k)
  /\ spawnFrom random fuel nodeId s k = Some (s, k)
  /\ _spawnParticle random fuel time s k = Some (s, k).
Proof.
  intros Hcap. unfold spawnOne, spawnFrom, _spawnParticle. rewrite Hcap.
  destruct (startNodeId (config s)) as [start |];
    [destruct (negb (truthy start)) |]; auto.
Qed.

(** *** Sequences of calls *)

Lemma calls_invariant (P : System -> Prop) random fuel :
  (forall c s k s' k', call random fuel c s k = Some (s', k') -> P s -> P s') ->
  forall cs s k s' k', calls random fuel cs s k = Some (s', k') -> P s -> P s'.
Proof.
  intros Hstep. induction cs as [| c cs IH]; simpl; intros s k s' k' Hrun HP.
  - injection Hrun as <- <-. exact HP.
  - destruct (call random fuel c s k) as [[s1 k1] |] eqn:Hc; [| discriminate].
    eapply IH; [exact Hrun |]. eapply Hstep; eassumption.
Qed.

Lemma calls_frame random fuel cs :
  forall s k s' k', calls random fuel cs s k = Some (s', k') ->
    config s' = config s /\ adjacency s' = adjacency s.
Proof.
  induction cs as [| c cs IH]; simpl; intros s k s' k' Hrun.
  - injection Hrun as <- <-. auto.
  - destruct (call random fuel c s k) as [[s1 k1] |] eqn:Hc; [| discriminate].
    apply call_frame in Hc as [Hc1 Ha1]. apply IH in Hrun as [Hc2 Ha2].
    split; congruence.
Qed.

(** While the limit compares as the whole number m with the counts up to
    [upto], a run that starts with at most [upto] particles stays there. *)
Lemma calls_capacity random fuel m upto cs :
  forall s k s' k',
    wholeLimit (maxParticles (config s)) m upto -> m <= upto ->
    calls random fuel cs s k = Some (s', k') ->
    length (particles s) <= upto -> length (particles s') <= upto.
Proof.
  induction cs as [| c cs IH]; simpl; intros s k s' k' Hw Hm Hrun Hle.
  - injection Hrun as <- <-. exact Hle.
  - destruct (call random fuel c s k) as [[s1 k1] |] eqn:Hc; [| discriminate].
    pose proof (call_frame _ _ _ _ _ _ _ Hc) as [Hcfg _].
    eapply (IH s1 k1); [rewrite Hcfg; exact Hw | exact Hm | exact Hrun |].
    eapply call_capacity; eassumption.
Qed.

(** On a graph without cycles every sequence of calls returns, given enough
    iterations for the router. *)
Lemma calls_return random fuel (rank : string -> nat) cs :
  (forall n, rank n < fuel) ->
  forall s k,
    (forall n es e, adjacency s !! n = Some es -> e ∈ es -> rank (target e) < rank n) ->
    exists s' k', calls random fuel cs s k = Some (s', k').
Proof.
  intros Hfuel. induction cs as [| c cs IH]; intros s k Hrank; simpl; [eauto |].
  assert (Hgen : forall start j, exists r,
             _generatePath random (adjacency s) fuel start j = Some r).
  { intros start j.
    destruct (generatePath_loop_terminates random (adjacency s) rank Hrank fuel [] start j
                (Hfuel start)) as (rest & Hrun & _).
    unfold _generatePath. rewrite Hrun. eauto. }
  assert (Hcall : exists s1 k1, call random fuel c s k = Some (s1, k1)).
  { destruct c as [dt time wall | | nodeId]; simpl.
    - unfold update, _spawnParticle.
      destruct (startNodeId (config s)) as [start |]; [| eauto].
      destruct (negb (truthy start)); [eauto |].
      destruct (atCapacity s); [eauto |].
      destruct (PrimFloat.ltb _ _); [eauto |]. simpl.
      destruct (Hgen start k) as [[path j] ->].
      destruct (length path =? 0); eauto.
    - unfold spawnOne.
      destruct (startNodeId (config s)) as [start |]; [| eauto].
      destruct (negb (truthy start)); [eauto |].
      destruct (atCapacity s); [eauto |].
      destruct (Hgen start k) as [[path j] ->].
      destruct (length path =? 0); eauto.
    - unfold spawnFrom. destruct (atCapacity s); [eauto |].
      destruct (Hgen nodeId k) as [[path j] ->].
      destruct (length path =? 0); eauto. }
  destruct Hcall as (s1 & k1 & Hc). rewrite Hc.
  apply IH. apply call_frame in Hc as [_ ->]. exact Hrank.
Qed.

(** C5.  In every state reached from a state whose particles have their
    edge index within [0, edgePath.length] the same holds; it holds after
    each callback of an update pass, after each splice, and after the pass.  The pass removes
    exactly the particles whose edge index equals the length of their path
    when it starts, counts each of them as completed, and advances only the
    others. *)
Theorem C5_edge_index_within_path random fuel cs s0 k0 s k dt wall :
  Forall inRange (particles s0) ->
  calls random fuel cs s0 k0 = Some (s, k) ->
  Forall inRange (particles s)
  /\ (forall n, n <= length (particles s) ->
        Forall inRange (particles (forEachParticle dt wall n s).1))
  /\ (forall j,
        let visited := forEachParticle dt wall (length (particles s)) s in
        Forall inRange (fold_left (fun arr i => delete i arr)
                          (take j (rev visited.2)) (particles visited.1)))
  /\ particles (_updateParticles dt wall s)
     = map (advanceParticle (config s) (edgePaths s) dt)
         (List.filter (fun p => edgeIndex p <? length (edgePath p)) (particles s))
  /\ _completedCount (_updateParticles dt wall s)
     = _completedCount s
       + length (List.filter (fun p => edgeIndex p =? length (edgePath p)) (particles s))
  /\ Forall inRange (particles (_updateParticles dt wall s)).
Proof.
  intros H0 Hrun.
  assert (Hs : Forall inRange (particles s)).
  { eapply (calls_invariant (fun s => Forall inRange (particles s)));
      [| exact Hrun | exact H0].
    intros c s1 k1 s2 k2 Hc. eapply call_inRange; exact Hc. }
  assert (Hpass : forall n, n <= length (particles s) ->
            Forall inRange (particles (forEachParticle dt wall n s).1)).
  { intros n Hn. rewrite forEachParticle_state by exact Hn. simpl.
    apply Forall_app. split.
    - apply Forall_map. eapply Forall_impl; [apply Forall_take; exact Hs |].
      intros p Hp. apply settle_inRange; exact Hp.
    - apply Forall_drop; exact Hs. }
  split; [exact Hs |]. split; [exact Hpass |]. split; [| split; [| split]].
  - intros j visited. apply splices_inRange. apply Hpass. lia.
  - rewrite updateParticles_eq. simpl. f_equal. apply List.filter_ext.
    intros p. unfold completed. rewrite Nat.ltb_antisym. reflexivity.
  - rewrite updateParticles_eq. simpl. f_equal. f_equal.
    apply filter_ext_in. intros p Hin.
    assert (Hp : inRange p).
    { rewrite Forall_forall in Hs. apply Hs. apply list_elem_of_In. exact Hin. }
    unfold inRange in Hp. unfold completed.
    destruct (Nat.leb_spec (length (edgePath p)) (edgeIndex p)) as [Hle | Hlt];
      symmetry; [apply Nat.eqb_eq | apply Nat.eqb_neq]; lia.
  - apply updateParticles_inRange; exact Hs.
Qed.

(** C6 (as amended).  When maxParticles is a whole number m (below 2^53,
    where binary64 holds every whole number) and the live count is at most
    m, every sequence of update, spawnOne and spawnFrom calls leaves the
    configuration as it was and the live count at most m, so that
    [length > maxParticles] is false afterwards; and a spawn attempted at
    capacity returns the state unchanged: the attempt is not recorded
    anywhere. *)
Theorem C6_live_count_bounded random fuel cs s k s' k' (m : nat) :
  maxParticles (config s) = countOf m -> (Z.of_nat m < 2 ^ 53)%Z ->
  length (particles s) <= m ->
  calls random fuel cs s k = Some (s', k') ->
  config s' = config s
  /\ length (particles s') <= m
  /\ PrimFloat.ltb (maxParticles (config s)) (countOf (length (particles s'))) = false
  /\ (atCapacity s' = true ->
      forall time nodeId,
        spawnOne random fuel s' k' = Some (s', k')
        /\ spawnFrom random fuel nodeId s' k' = Some (s', k')
        /\ _spawnParticle random fuel time s' k' = Some (s', k')).
Proof.
  intros Hlimit Hm Hle Hrun.
  assert (Hw : wholeLimit (maxParticles (config s)) m m)
    by (rewrite Hlimit; apply wholeLimit_countOf; exact Hm).
  destruct (calls_frame _ _ _ _ _ _ _ Hrun) as [Hcfg _].
  assert (Hle' : length (particles s') <= m)
    by (eapply calls_capacity; [exact Hw | reflexivity | exact Hrun | exact Hle]).
  split; [exact Hcfg |]. split; [exact Hle' |]. split.
  - destruct (Hw _ Hle') as [_ ->]. apply Nat.ltb_ge. exact Hle'.
  - intros Hcap time nodeId. apply spawn_at_capacity; exact Hcap.
Qed.

(** C7 (as amended).  spawnOne and the scheduled spawn return without
    error and leave the particle collection unchanged when no start node is
    configured, when the live count is at or above maxParticles, or when the
    router returns an empty path from the start node.  spawnFrom does so when
    the live count is at or above maxParticles or when the router returns an
    empty path from the node it is given; it does not look at the configured
    start node. *)
Theorem C7_spawn_is_noop random fuel time nodeId s k :
  ((startNodeId (config s) = None \/ startNodeId (config s) = Some ""%string
    \/ atCapacity s = true
    \/ (exists start k', startNodeId (config s) = Some start
          /\ _generatePath random (adjacency s) fuel start k = Some ([], k'))) ->
   spawnOne random fuel s k = Some (s, k)
   /\ exists s', _spawnParticle random fuel time s k = Some (s', k)
                 /\ particles s' = particles s)
  /\ ((atCapacity s = true
       \/ (exists k', _generatePath random (adjacency s) fuel nodeId k = Some ([], k'))) ->
      spawnFrom random fuel nodeId s k = Some (s, k)).
Proof.
  split.
  - intros [Hnone | [Hempty | [Hcap | (start & k' & Hstart & Hgen)]]].
    + unfold spawnOne, _spawnParticle. rewrite Hnone. eauto.
    + unfold spawnOne, _spawnParticle. rewrite Hempty. simpl. eauto.
    + destruct (spawn_at_capacity random fuel time nodeId s k Hcap) as (H1 & _ & H3).
      eauto.
    + destruct (generatePath_empty _ _ _ _ _ _ Hgen) as [-> _].
      unfold spawnOne, _spawnParticle. rewrite Hstart. 
      destruct (negb (truthy start)); [eauto |].
      destruct (atCapacity s); [eauto |].
      rewrite Hgen. simpl. split; [reflexivity |].
      destruct (PrimFloat.ltb _ _); [eauto |].
      simpl. rewrite Hgen. simpl. eauto.
  - intros [Hcap | (k' & Hgen)].
    + apply (spawn_at_capacity random fuel time nodeId s k Hcap).
    + destruct (generatePath_empty _ _ _ _ _ _ Hgen) as [-> _].
      unfold spawnFrom. destruct (atCapacity s); [reflexivity |].
      rewrite Hgen. reflexivity.
Qed.

(** *** Scenario: entry -> exit, maxParticles = 1, spawnRate = 10/s *)

Definition demo0 : System := buildAdjacency twoNodes (new (withStart "entry" 1 0)).

(** The state in which the only particle has finished its only edge. *)
Definition demoFinished : System * nat :=
  default (demo0, 0) (calls halves 3 [CallSpawnOne; CallUpdate 3000 100 100] demo0 0).

(** The state after two manual spawns and one frame. *)
Definition demoFull : System * nat :=
  default (demo0, 0)
    (calls halves 3 [CallSpawnOne; CallSpawnOne; CallUpdate 16 100 100] demo0 0).

(** The same graph with no start node configured. *)
Definition demoNoStart : System := buildAdjacency twoNodes (new defaultConfig).

(** The particle of [demoFinished] has used up its path and the next pass
    removes and counts it. *)
Example demoFinished_particle :
  map edgeIndex (particles demoFinished.1) = [1]
  /\ map edgePath (particles demoFinished.1) = [["e1"%string]].
Proof. vm_compute. split; reflexivity. Qed.

Example demoFinished_removed :
  particles (_updateParticles 16 200 demoFinished.1) = []
  /\ _completedCount (_updateParticles 16 200 demoFinished.1) = 1.
Proof. vm_compute. split; reflexivity. Qed.

(** The second manual spawn of [demoFull] was skipped: one particle is live. *)
Example demoFull_count : length (particles demoFull.1) = 1.
Proof. vm_compute. reflexivity. Qed.

Lemma C5_edge_index_within_path_witness :
  Forall inRange (particles demoFinished.1)
  /\ (forall n, n <= length (particles demoFinished.1) ->
        Forall inRange (particles (forEachParticle 16 200 n demoFinished.1).1))
  /\ (forall j,
        let visited :=
          forEachParticle 16 200 (length (particles demoFinished.1)) demoFinished.1 in
        Forall inRange (fold_left (fun arr i => delete i arr)
                          (take j (rev visited.2)) (particles visited.1)))
  /\ particles (_updateParticles 16 200 demoFinished.1)
     = map (advanceParticle (config demoFinished.1) (edgePaths demoFinished.1) 16)
         (List.filter (fun p => edgeIndex p <? length (edgePath p))
            (particles demoFinished.1))
  /\ _completedCount (_updateParticles 16 200 demoFinished.1)
     = _completedCount demoFinished.1
       + length (List.filter (fun p => edgeIndex p =? length (edgePath p))
                   (particles demoFinished.1))
  /\ Forall inRange (particles (_updateParticles 16 200 demoFinished.1)).
Proof.
  apply (C5_edge_index_within_path halves 3 [CallSpawnOne; CallUpdate 3000 100 100]
           demo0 0 demoFinished.1 demoFinished.2 16 200).
  - constructor.
  - vm_compute. reflexivity.
Defined.

Lemma C6_live_count_bounded_witness :
  config demoFull.1 = config demo0
  /\ length (particles demoFull.1) <= 1
  /\ PrimFloat.ltb (maxParticles (config demo0)) (countOf (length (particles demoFull.1)))
     = false
  /\ (atCapacity demoFull.1 = true ->
      forall time nodeId,
        spawnOne halves 3 demoFull.1 demoFull.2 = Some (demoFull.1, demoFull.2)
        /\ spawnFrom halves 3 nodeId demoFull.1 demoFull.2 = Some (demoFull.1, demoFull.2)
        /\ _spawnParticle halves 3 time demoFull.1 demoFull.2
           = Some (demoFull.1, demoFull.2)).
Proof.
  apply (C6_live_count_bounded halves 3
           [CallSpawnOne; CallSpawnOne; CallUpdate 16 100 100] demo0 0).
  - vm_compute. reflexivity.
  - vm_compute. reflexivity.
  - simpl. lia.
  - vm_compute. reflexivity.
Defined.

(** The limit of the default configuration is the whole number 50. *)
Example defaultConfig_limit : maxParticles defaultConfig = countOf 50.
Proof. vm_compute. reflexivity. Qed.

(** *** Scenario: the same graph with maxParticles = 1.5 *)

Definition demoFractional : System :=
  buildAdjacency twoNodes (new (withStart "entry" 1.5 0)).

(** Nothing checks that maxParticles is whole.  With a limit of 1.5 the
    empty collection is below the limit, the first spawn makes the count 1,
    [1 >= 1.5] is false, and the second spawn makes it 2, which exceeds
    1.5. *)
Lemma C6_fractional_limit_exceeded :
  PrimFloat.ltb (maxParticles (config demoFractional))
    (countOf (length (particles demoFractional))) = false
  /\ exists s' k',
       calls halves 3 [CallSpawnOne; CallSpawnOne] demoFractional 0 = Some (s', k')
       /\ config s' = config demoFractional
       /\ length (particles s') = 2
       /\ PrimFloat.ltb (maxParticles (config demoFractional))
            (countOf (length (particles s'))) = true.
Proof.
  split; [vm_compute; reflexivity |].
  destruct (calls halves 3 [CallSpawnOne; CallSpawnOne] demoFractional 0)
    as [[s' k'] |] eqn:Hrun; [| vm_compute in Hrun; discriminate].
  exists s', k'. split; [reflexivity |].
  assert (Hs : Some (s', k') = calls halves 3 [CallSpawnOne; CallSpawnOne] demoFractional 0)
    by (symmetry; exact Hrun).
  clear Hrun.
  assert (Hlen : option_map (fun r => length (particles r.1)) (Some (s', k')) = Some 2)
    by (rewrite Hs; vm_compute; reflexivity).
  assert (Hcfg : option_map (fun r => config r.1) (Some (s', k'))
                 = Some (config demoFractional))
    by (rewrite Hs; vm_compute; reflexivity).
  simpl in Hlen, Hcfg. injection Hlen as Hlen. injection Hcfg as Hcfg.
  split; [exact Hcfg |]. split; [exact Hlen |].
  rewrite Hlen. vm_compute. reflexivity.
Qed.

Lemma C7_spawn_is_noop_witness :
  (spawnOne halves 3 demoNoStart 0 = Some (demoNoStart, 0)
   /\ exists s', _spawnParticle halves 3 100 demoNoStart 0 = Some (s', 0)
                 /\ particles s' = particles demoNoStart)
  /\ spawnFrom halves 3 "exit" demoNoStart 0 = Some (demoNoStart, 0).
Proof.
  destruct (C7_spawn_is_noop halves 3 100 "exit" demoNoStart 0) as [Hone Hfrom].
  split.
  - apply Hone. left. reflexivity.
  - apply Hfrom. right. exists 0. vm_compute. reflexivity.
Defined.

(** With no start node configured, spawnFrom at the entry node of the
    two-node graph adds a particle to the empty collection. *)
Lemma C7_spawnFrom_ignores_start_node :
  startNodeId (config demoNoStart) = None
  /\ particles demoNoStart = []
  /\ option_map (fun r => length (particles r.1)) (spawnFrom halves 3 "entry" demoNoStart 0)
     = Some 1
  /\ spawnFrom halves 3 "entry" demoNoStart 0 <> Some (demoNoStart, 0).
Proof.
  repeat split; try (vm_compute; reflexivity).
  intros Heq.
  apply (f_equal (option_map (fun r => length (particles r.1)))) in Heq.
  vm_compute in Heq. discriminate.
Qed.

End PoolProperties.

(** ** Case lifecycle state machine *)

Module CaseProperties.
Import CaseEngine.

Section Update.
Variable e : Engine.
Variable now : float.

Lemma fold_delete_lookup (rem : list string) :
  forall (acc : gmap string Case) (i : string),
    fold_left (fun m id => delete id m) rem acc !! i
    = if decide (i ∈ rem) then None else acc !! i.
Proof.
  induction rem as [| j rem IH]; intros acc i; simpl.
  - destruct (decide (i ∈ [])) as [Hin | _]; [inversion Hin | reflexivity].
  - rewrite IH. destruct (decide (i = j)) as [-> | Hne].
    + rewrite lookup_delete_eq.
      destruct (decide (j ∈ rem)), (decide (j ∈ j :: rem)) as [| Hn]; try reflexivity;
        exfalso; apply Hn; left.
    + rewrite lookup_delete_ne by congruence.
      destruct (decide (i ∈ rem)) as [Hin | Hnin], (decide (i ∈ j :: rem)) as [Hin' | Hnin'];
        try reflexivity.
      * exfalso. apply Hnin'. right. exact Hin.
      * exfalso. apply elem_of_cons in Hin'. destruct Hin'; contradiction.
Qed.

(** The loop of [tick] updates every case in place and removes exactly
    those for which [updateCase] returns null. *)
Lemma updateCases_lookup (m : gmap string Case) (i : string) :
  updateCases e now m !! i = m !! i ≫= fun c => updateCase e c now.
Proof.
  unfold updateCases.
  set (f := fun (id : string) (caseItem : Case) (acc : gmap string Case * list string) =>
              match updateCase e caseItem now with
              | Some updated => (<[id:=updated]> acc.1, acc.2)
              | None => (acc.1, acc.2 ++ [id])
              end).
  assert (Hfold : forall m0 m' : gmap string Case,
    let r := map_fold f (m0, []) m' in
    forall j,
      r.1 !! j = match m' !! j ≫= (fun c => updateCase e c now) with
                 | Some u => Some u
                 | None => m0 !! j
                 end
      /\ (j ∈ r.2 <-> exists c, m' !! j = Some c /\ updateCase e c now = None)).
  { intros m0 m'. apply (map_fold_weak_ind
      (fun (r : gmap string Case * list string) (m' : gmap string Case) =>
         forall j,
           r.1 !! j = match m' !! j ≫= (fun c => updateCase e c now) with
                      | Some u => Some u
                      | None => m0 !! j
                      end
           /\ (j ∈ r.2 <-> exists c, m' !! j = Some c /\ updateCase e c now = None))).
    - intros j. simpl. rewrite lookup_empty. simpl. split; [reflexivity |].
      split; [intros Hin; inversion Hin | intros (c & Hc & _); discriminate].
    - intros k x mk r Hfresh IH j. destruct (IH j) as [Hacc Hrem].
      unfold f. destruct (updateCase e x now) as [u |] eqn:Hu; simpl.
      + destruct (decide (j = k)) as [-> | Hne].
        * rewrite !lookup_insert_eq. simpl. rewrite Hu. split; [reflexivity |].
          rewrite Hrem, Hfresh. split; intros (c & Hc & Hn); [discriminate |].
          injection Hc as <-. congruence.
        * rewrite !lookup_insert_ne by congruence. split; assumption.
      + destruct (decide (j = k)) as [-> | Hne].
        * rewrite lookup_insert_eq. simpl. rewrite Hu.
          rewrite Hacc, Hfresh. simpl. split; [reflexivity |].
          split; [eauto |]. intros _. apply elem_of_app. right. left.
        * rewrite lookup_insert_ne by congruence. split; [exact Hacc |].
          rewrite elem_of_app, Hrem. split; [| tauto].
          intros [H | H]; [exact H |]. apply list_elem_of_singleton in H. contradiction. }
  specialize (Hfold m m). destruct (map_fold f (m, []) m) as [m1 rem] eqn:Hrun.
  simpl in Hfold. destruct (Hfold i) as [Hacc Hrem].
  rewrite fold_delete_lookup.
  destruct (decide (i ∈ rem)) as [Hin | Hnin].
  - apply Hrem in Hin as (c & -> & Hn). simpl. rewrite Hn. reflexivity.
  - rewrite Hacc. destruct (m !! i) as [c |] eqn:Hc; simpl; [| reflexivity].
    destruct (updateCase e c now) eqn:Hu; [reflexivity |].
    exfalso. apply Hnin, Hrem. eauto.
Qed.

(** Every result of [updateCase] is a spread of the case it was given. *)
Lemma updateCase_spread (c c' : Case) :
  updateCase e c now = Some c' ->
  id c' = id c /\ spawnedAt c' = spawnedAt c /\ holdDuration c' = holdDuration c.
Proof.
  unfold updateCase. intros Hrun.
  repeat match type of Hrun with
         | Some _ = Some _ => injection Hrun as <-
         | None = Some _ => discriminate Hrun
         | context [match ?x with _ => _ end] => destruct x
         end; auto.
Qed.

Lemma updateCase_null (c : Case) :
  updateCase e c now = None ->
  state c = at_outbox
  /\ PrimFloat.leb (PrimFloat.mul (retentionSeconds (getOutboxConfig e)) 1000)
       (PrimFloat.sub now (stateStartedAt c)) = true.
Proof.
  unfold updateCase. intros Hrun.
  destruct (state c); try reflexivity;
    repeat match type of Hrun with
           | Some _ = None => discriminate Hrun
           | context [match ?x with _ => _ end] => destruct x eqn:?
           end; auto.
Qed.
End Update.

(** The transition trigger of a case waiting at the inbox or in transit:
    the hold duration, or the transition duration, has elapsed. *)
Definition triggerFired (e : Engine) (c : Case) (now : float) : bool :=
  let elapsed := PrimFloat.sub now (stateStartedAt c) in
  match state c with
  | at_inbox => PrimFloat.leb (default 1000%float (holdDuration c)) elapsed
  | transitioning =>
      PrimFloat.leb 1 (Math_min 1 (PrimFloat.div elapsed (transitionDuration (config e))))
  | _ => false
  end.

(** The retention period of the outbox has elapsed for a case. *)
Definition retentionElapsed (e : Engine) (c : Case) (now : float) : Prop :=
  PrimFloat.leb (PrimFloat.mul (retentionSeconds (getOutboxConfig e)) 1000)
    (PrimFloat.sub now (stateStartedAt c)) = true.

(** What the code maintains about the stage index. *)
Definition stageIndexKept (c : Case) : Prop :=
  match state c with
  | at_inbox | at_outbox => currentStageIndex c = (-1)%Z
  | at_procedure_stage => (0 <= currentStageIndex c)%Z
  | transitioning => (-1 <= currentStageIndex c)%Z
  | at_procedure => True
  end.

Lemma spawnCase_new_case (now rnd : float) (e : Engine) :
  exists c, cases (spawnCase now rnd e) !! caseId (S (caseIdCounter e)) = Some c
    /\ state c = at_inbox /\ currentStageIndex c = (-1)%Z /\ spawnedAt c = now
    /\ (forall i, i <> caseId (S (caseIdCounter e)) ->
          cases (spawnCase now rnd e) !! i = cases e !! i).
Proof.
  unfold spawnCase; simpl. eexists. rewrite lookup_insert_eq.
  repeat split; try reflexivity. intros i Hi. rewrite lookup_insert_ne by congruence.
  reflexivity.
Qed.

Lemma updateCase_stageIndexKept (e : Engine) (now : float) (c c' : Case) :
  updateCase e c now = Some c' -> stageIndexKept c -> stageIndexKept c'.
Proof.
  unfold updateCase, stageIndexKept. intros Hrun Hc.
  destruct (state c) eqn:Hst;
    repeat match type of Hrun with
 | Some _ = Some _ => injection Hrun as <-
 | None = Some _ => discriminate Hrun
 | context [match ?x with _ => _ end] => destruct x
 end; simpl; rewrite ?Hst; try exact Hc; lia.
Qed.

(** The case map after a tick is the update of the map before it, with the
    newly spawned case when one was due. *)
Lemma tick_cases (e : Engine) (now spawnNow rnd : float) (frame : Z) :
  cases (tick now spawnNow rnd frame e).1 = updateCases e now (cases e)
  \/ cases (tick now spawnNow rnd frame e).1
     = updateCases e now (cases (spawnCase spawnNow rnd e)).
Proof.
  unfold tick. cbv zeta.
  destruct (PrimFloat.ltb 0 (casesPerMinute (getInboxConfig e)));
    [destruct (PrimFloat.leb _ _) |]; [right | left | left]; reflexivity.
Qed.

(** C8.  A tick removes a case only from the outbox state once the
    retention period has elapsed; and when getNextNodeId returns null for a
    case at the inbox or in transit whose trigger has fired, updateCase
    returns the case unchanged. *)
Theorem C8_frozen_not_dropped (e : Engine) (now : float) :
  (forall c, getNextNodeId e (currentNodeId c) = None ->
   triggerFired e c now = true -> updateCase e c now = Some c)
  /\ (forall c, updateCase e c now = None ->
      state c = at_outbox /\ retentionElapsed e c now)
  /\ (forall spawnNow rnd frame i c,
        cases e !! i = Some c ->
        cases (tick now spawnNow rnd frame e).1 !! i = None ->
        state c = at_outbox /\ retentionElapsed e c now).
Proof.
  split; [| split].
  - intros c Hnext Hfired. unfold triggerFired in Hfired. unfold updateCase.
    destruct (state c); try discriminate; rewrite Hfired, Hnext; reflexivity.
  - intros c Hnull. apply updateCase_null; exact Hnull.
  - intros spawnNow rnd frame i c Hc Hgone.
    destruct (tick_cases e now spawnNow rnd frame) as [Heq | Heq];
      rewrite Heq, updateCases_lookup in Hgone.
    + rewrite Hc in Hgone. simpl in Hgone. apply updateCase_null; exact Hgone.
    + destruct (spawnCase_new_case spawnNow rnd e) as (c0 & Hnew & Hst & _ & _ & Hother).
      destruct (decide (i = caseId (S (caseIdCounter e)))) as [-> | Hne].
      * rewrite Hnew in Hgone. simpl in Hgone.
        apply (updateCase_null _ now) in Hgone as [Habs _]. congruence.
      * rewrite (Hother i Hne), Hc in Hgone. simpl in Hgone.
        apply (updateCase_null e now c). exact Hgone.
Qed.

(** C10.  A case that is still in the map after the update loop of a tick
    is the update of the case that was there, with the same id, the same
    spawnedAt and the same hold duration; the other five fields are the only
    ones an update can change. *)
Theorem C10_tick_keeps_identity (e : Engine) (now : float) (m : gmap string Case)
    (i : string) (c' : Case) :
  updateCases e now m !! i = Some c' ->
  exists c, m !! i = Some c /\ updateCase e c now = Some c'
    /\ id c' = id c /\ spawnedAt c' = spawnedAt c /\ holdDuration c' = holdDuration c.
Proof.
  rewrite updateCases_lookup. intros Hrun.
  destruct (m !! i) as [c |]; [| discriminate]. simpl in Hrun.
  exists c. split; [reflexivity |]. split; [exact Hrun |].
  eapply updateCase_spread; exact Hrun.
Qed.

(** C9.  reset returns normally from every state with an empty case set
    and notifies the listener with an empty list; resetting the result again
    gives the same result, also when ticks have run in between; clearing the
    particles twice is the same as clearing them once. *)
Theorem C9_reset_idempotent (e : Engine) (s : ParticleSystem.System) :
  cases (reset e).1 = ∅ /\ getCases (reset e).1 = [] /\ (reset e).2 = []
  /\ reset (reset e).1 = reset e
  /\ (forall now spawnNow rnd frame,
        let ticked := (tick now spawnNow rnd frame (reset e).1).1 in
        cases (reset ticked).1 = ∅ /\ (reset ticked).2 = [])
  /\ ParticleSystem.particles (ParticleSystem.clear s) = []
  /\ ParticleSystem.clear (ParticleSystem.clear s) = ParticleSystem.clear s.
Proof.
  repeat split.
  unfold reset, stop. destruct e as [m ks cfg order ns t [f |] n]; reflexivity.
Qed.

(** *** A case followed through the three-node workflow *)

Definition frame (now : float) (e : Engine) : Engine := (tick now now 0 1 e).1.

Definition spawned : Engine := spawnCase 0 0 workflow.
Definition atStage : Engine := frame 600 (frame 500 spawned).
Definition leftStage : Engine := frame 1100 atStage.
Definition atOutbox : Engine := frame 1200 leftStage.

Definition theCase (st : CaseState) (node : string) (stageIndex : Z) (since : float) : Case :=
  {| id := "case-1"; state := st; currentNodeId := node; currentStageIndex := stageIndex;
     progress := 0; spawnedAt := 0; stateStartedAt := since;
     holdDuration := Some 500%float |}.

(** An engine whose order ends at the inbox: no next node. *)
Definition deadEnd : Engine := setProceduralOrder ["inbox"%string] spawned.

(** With a hold duration of 500 ms the spawned case stays at the inbox at
    499 ms and is in transit at 500 ms. *)
Example hold_duration_500 :
  updateCase spawned (theCase at_inbox "inbox" (-1) 0) 499
    = Some (theCase at_inbox "inbox" (-1) 0)
  /\ updateCase spawned (theCase at_inbox "inbox" (-1) 0) 500
    = Some (theCase transitioning "inbox" (-1) 500).
Proof. vm_compute. split; reflexivity. Qed.

Lemma C8_frozen_not_dropped_witness :
  updateCase deadEnd (theCase at_inbox "inbox" (-1) 0) 5000
    = Some (theCase at_inbox "inbox" (-1) 0)
  /\ (state (theCase at_outbox "outbox" (-1) 1200) = at_outbox
      /\ retentionElapsed atOutbox (theCase at_outbox "outbox" (-1) 1200) 4200)
  /\ (state (theCase at_outbox "outbox" (-1) 1200) = at_outbox
      /\ retentionElapsed atOutbox (theCase at_outbox "outbox" (-1) 1200) 4200).
Proof.
  split; [| split].
  - apply (C8_frozen_not_dropped deadEnd 5000); vm_compute; reflexivity.
  - apply (C8_frozen_not_dropped atOutbox 4200); vm_compute; reflexivity.
  - destruct (C8_frozen_not_dropped atOutbox 4200) as (_ & _ & Htick).
    apply (Htick 4200%float 0%float 1%Z "case-1"%string); vm_compute; reflexivity.
Defined.

Lemma C10_tick_keeps_identity_witness :
  exists c, cases atStage !! "case-1"%string = Some c
    /\ updateCase atStage c 1100 = Some (theCase transitioning "proc" 0 1100)
    /\ id (theCase transitioning "proc" 0 1100) = id c
    /\ spawnedAt (theCase transitioning "proc" 0 1100) = spawnedAt c
    /\ holdDuration (theCase transitioning "proc" 0 1100) = holdDuration c.
Proof.
  apply (C10_tick_keeps_identity atStage 1100 (cases atStage) "case-1").
  vm_compute. reflexivity.
Defined.

(** C1, at the failing input.  The case spawned at time 0 reaches the only
    stage of the procedure node at time 600 with stage index 0; the update at
    time 1100 moves it to the transitioning state and leaves the stage index
    at 0, where the field is documented to be -1. *)
Theorem C1_stage_index_kept_in_transit :
  cases atStage !! "case-1"%string = Some (theCase at_procedure_stage "proc" 0 600)
  /\ updateCase atStage (theCase at_procedure_stage "proc" 0 600) 1100
     = Some (theCase transitioning "proc" 0 1100)
  /\ cases leftStage !! "case-1"%string = Some (theCase transitioning "proc" 0 1100)
  /\ currentStageIndex (theCase transitioning "proc" 0 1100) <> (-1)%Z
  /\ cases atOutbox !! "case-1"%string = Some (theCase at_outbox "outbox" (-1) 1200).
Proof.
  repeat split; try (vm_compute; reflexivity). discriminate.
Qed.

End CaseProperties.

(** * Further properties of the code *)

(** ** Graph construction and routing *)

Module RouterExtras.
Import ParticleSystem RouterProperties.

(** The adjacency entry that [buildAdjacency] makes of an edge. *)
Definition toInfo (e : FlowEdge) : EdgeInfo :=
  {| edgeId := fe_id e; target := fe_target e; weight := default 1%float (fe_weight e) |}.

Definition leaves (n : string) (e : FlowEdge) : bool := String.eqb (fe_source e) n.

Lemma buildAdjacency_fold (edges : list FlowEdge) :
  forall (m : gmap string (list EdgeInfo)) (n : string),
    fold_left (fun (m : gmap string (list EdgeInfo)) edge =>
                 <[ fe_source edge := default [] (m !! fe_source edge) ++ [toInfo edge] ]> m)
      edges m !! n
    = match List.filter (leaves n) edges with
      | [] => m !! n
      | l => Some (default [] (m !! n) ++ map toInfo l)
      end.
Proof.
  induction edges as [| e es IH]; intros m n; simpl; [reflexivity |].
  rewrite IH. unfold leaves at 2. destruct (String.eqb_spec (fe_source e) n) as [-> | Hne].
  - rewrite lookup_insert_eq. simpl.
    destruct (List.filter (leaves n) es); simpl; [reflexivity |].
    rewrite <- app_assoc. reflexivity.
  - rewrite lookup_insert_ne by congruence. reflexivity.
Qed.

Lemma buildAdjacency_lookup (edges : list FlowEdge) (s : System) (n : string) :
  adjacency (buildAdjacency edges s) !! n
  = match List.filter (leaves n) edges with
    | [] => None
    | l => Some (map toInfo l)
    end.
Proof.
  unfold buildAdjacency. cbn [adjacency].
  exact (buildAdjacency_fold edges ∅ n).
Qed.

Lemma buildAdjacency_entry (edges : list FlowEdge) (s : System) n es e :
  adjacency (buildAdjacency edges s) !! n = Some es -> e ∈ es ->
  exists fe, fe ∈ edges /\ fe_source fe = n /\ e = toInfo fe.
Proof.
  rewrite buildAdjacency_lookup. intros Hlook Hin.
  assert (Hes : es = map toInfo (List.filter (leaves n) edges)).
  { destruct (List.filter (leaves n) edges); [discriminate |].
    injection Hlook as <-. reflexivity. }
  subst es. apply list_elem_of_In, in_map_iff in Hin as (fe & <- & Hfe).
  apply filter_In in Hfe as [Hfe Hsrc]. unfold leaves in Hsrc.
  apply String.eqb_eq in Hsrc. exists fe. split; [apply list_elem_of_In; exact Hfe | auto].
Qed.

Lemma buildAdjacency_none (edges : list FlowEdge) (s : System) n :
  adjacency (buildAdjacency edges s) !! n = None
  <-> forall e, e ∈ edges -> fe_source e <> n.
Proof.
  rewrite buildAdjacency_lookup. split.
  - intros Hnone e He Hsrc.
    assert (Hin : In e (List.filter (leaves n) edges)).
    { apply filter_In. split; [apply list_elem_of_In; exact He |].
      unfold leaves. apply String.eqb_eq. exact Hsrc. }
    destruct (List.filter (leaves n) edges); [exact Hin | discriminate].
  - intros Hall. destruct (List.filter (leaves n) edges) as [| e l] eqn:Hf; [reflexivity |].
    exfalso.
    assert (Hin : In e (List.filter (leaves n) edges)) by (rewrite Hf; left; reflexivity).
    apply filter_In in Hin as [Hin Hsrc]. unfold leaves in Hsrc.
    apply String.eqb_eq in Hsrc. apply (Hall e); [apply list_elem_of_In; exact Hin | exact Hsrc].
Qed.

Lemma buildAdjacency_no_empty_entry (edges : list FlowEdge) (s : System) n :
  adjacency (buildAdjacency edges s) !! n <> Some [].
Proof.
  rewrite buildAdjacency_lookup. destruct (List.filter (leaves n) edges); discriminate.
Qed.

(** X1.  Whatever the adjacency was before, after [buildAdjacency] the
    entry of a node lists exactly the given edges that leave it, in the
    order given, each with weight 1 unless it carries one; a node that no
    edge leaves has no entry, and no entry is an empty list. *)
Theorem X1_buildAdjacency_groups_by_source (edges : list FlowEdge) (s : System) (n : string) :
  default [] (adjacency (buildAdjacency edges s) !! n)
    = map toInfo (List.filter (leaves n) edges)
  /\ adjacency (buildAdjacency edges s) !! n <> Some []
  /\ (adjacency (buildAdjacency edges s) !! n = None
      <-> forall e, e ∈ edges -> fe_source e <> n).
Proof.
  split; [| split; [apply buildAdjacency_no_empty_entry | apply buildAdjacency_none]].
  rewrite buildAdjacency_lookup.
  destruct (List.filter (leaves n) edges); reflexivity.
Qed.

(** X2.  Whatever the graph, a path returned by the router names the
    edges of a walk from the start node to a sink, one draw was taken per
    edge, and the same result is returned with any larger iteration bound. *)
Theorem X2_generated_path_is_walk_to_sink random adj fuel start k path k' :
  _generatePath random adj fuel start k = Some (path, k') ->
  (exists last, Walk adj start path last /\ sink adj last)
  /\ k' = k + length path
  /\ forall fuel', fuel <= fuel' ->
       _generatePath random adj fuel' start k = Some (path, k').
Proof.
  intros Hrun. unfold _generatePath in *.
  destruct (generatePath_loop_sound _ _ _ _ _ _ _ _ Hrun)
    as (rest & last & Hp & Hk & Hwalk & Hsink).
  simpl in Hp. subst rest. split; [eauto |]. split; [exact Hk |].
  intros fuel' Hle. eapply generatePath_loop_mono; eassumption.
Qed.

Lemma X2_generated_path_is_walk_to_sink_witness :
  (exists last, Walk adjChain "a" ["e1"; "e2"]%string last /\ sink adjChain last)
  /\ 2 = 0 + length ["e1"; "e2"]%string
  /\ forall fuel', 3 <= fuel' ->
       _generatePath halves adjChain fuel' "a" 0 = Some (["e1"; "e2"]%string, 2).
Proof.
  apply (X2_generated_path_is_walk_to_sink halves adjChain 3 "a" 0).
  vm_compute. reflexivity.
Defined.

(** A chain of the given edges from one node to another, at whose end no
    edge leaves. *)
Inductive Chain (edges : list FlowEdge) : string -> list FlowEdge -> string -> Prop :=
| Chain_end n : (forall e, e ∈ edges -> fe_source e <> n) -> Chain edges n [] n
| Chain_hop n e p m :
    e ∈ edges -> fe_source e = n -> Chain edges (fe_target e) p m ->
    Chain edges n (e :: p) m.

Lemma walk_chain (edges : list FlowEdge) (s : System) n path last :
  Walk (adjacency (buildAdjacency edges s)) n path last ->
  sink (adjacency (buildAdjacency edges s)) last ->
  exists chosen, path = map fe_id chosen /\ Chain edges n chosen last.
Proof.
  intros Hwalk Hsink. induction Hwalk as [n | n es e p m Hlook Hin Hwalk IH].
  - exists []. split; [reflexivity |]. constructor.
    apply (buildAdjacency_none edges s n).
    destruct Hsink as [Hnone | Hnil]; [exact Hnone |].
    exfalso. exact (buildAdjacency_no_empty_entry edges s n Hnil).
  - destruct (IH Hsink) as (chosen & -> & Hchain).
    destruct (buildAdjacency_entry _ _ _ _ _ Hlook Hin) as (fe & Hfe & Hsrc & ->).
    exists (fe :: chosen). split; [reflexivity |].
    apply Chain_hop; assumption.
Qed.

(** X3.  On the adjacency built from a list of edges, a path returned by
    the router is the list of ids of a connected chain of those edges that
    starts at the start node and ends at a node that none of the edges
    leaves. *)
Theorem X3_generated_path_follows_given_edges random edges s fuel start k path k' :
  _generatePath random (adjacency (buildAdjacency edges s)) fuel start k = Some (path, k') ->
  exists chosen last, path = map fe_id chosen /\ Chain edges start chosen last.
Proof.
  intros Hrun. unfold _generatePath in Hrun.
  destruct (generatePath_loop_sound _ _ _ _ _ _ _ _ Hrun)
    as (rest & last & Hp & _ & Hwalk & Hsink).
  simpl in Hp. subst rest.
  destruct (walk_chain _ _ _ _ _ Hwalk Hsink) as (chosen & Hpath & Hchain). eauto.
Qed.

Lemma X3_generated_path_follows_given_edges_witness :
  exists chosen last, ["e1"; "e2"]%string = map fe_id chosen /\ Chain chain "a" chosen last.
Proof.
  apply (X3_generated_path_follows_given_edges halves chain (new defaultConfig) 3 "a" 0
           ["e1"; "e2"]%string 2).
  vm_compute. reflexivity.
Defined.



End RouterExtras.

(** ** Particles over a run *)

Module PoolExtras.
Import Curve ParticleSystem RouterProperties PoolProperties.

(** *** The exact shape of a spawn *)

Lemma spawnOne_shape random fuel s k s' k' :
  spawnOne random fuel s k = Some (s', k') ->
  s' = s
  \/ exists path k0, path <> [] /\ atCapacity s = false
       /\ s' = push_particle random path k0 s.
Proof.
  unfold spawnOne. intros Hrun.
  repeat match type of Hrun with
         | Some _ = Some _ => injection Hrun as <- <-
         | None = Some _ => discriminate Hrun
         | context [match ?x with _ => _ end] => destruct x eqn:?
         end; auto.
  right. eexists _, _. split; [| split; reflexivity].
  intros ->. discriminate.
Qed.

Lemma spawnFrom_shape random fuel nodeId s k s' k' :
  spawnFrom random fuel nodeId s k = Some (s', k') ->
  s' = s
  \/ exists path k0, path <> [] /\ atCapacity s = false
       /\ s' = push_particle random path k0 s.
Proof.
  unfold spawnFrom. intros Hrun.
  repeat match type of Hrun with
         | Some _ = Some _ => injection Hrun as <- <-
         | None = Some _ => discriminate Hrun
         | context [match ?x with _ => _ end] => destruct x eqn:?
         end; auto.
  right. eexists _, _. split; [| split; reflexivity].
  intros ->. discriminate.
Qed.

Lemma spawnParticle_shape random fuel time s k s' k' :
  _spawnParticle random fuel time s k = Some (s', k') ->
  s' = s
  \/ (atCapacity s = false
      /\ PrimFloat.ltb (PrimFloat.sub time (_lastSpawnTime s))
           (PrimFloat.div 1000 (spawnRate (config s))) = false
      /\ (exists start, startNodeId (config s) = Some start /\ start <> ""%string)
      /\ (s' = set_lastSpawnTime time s
          \/ exists path k0, path <> []
               /\ s' = push_particle random path k0 (set_lastSpawnTime time s))).
Proof.
  unfold _spawnParticle. intros Hrun.
  destruct (startNodeId (config s)) as [start |] eqn:Hstart;
    [| injection Hrun as <- <-; auto].
  destruct (negb (truthy start)) eqn:Htruthy; [injection Hrun as <- <-; auto |].
  destruct (atCapacity s) eqn:Hcap; [injection Hrun as <- <-; auto |].
  destruct (PrimFloat.ltb _ _) eqn:Hdue; [injection Hrun as <- <-; auto |].
  right. split; [reflexivity |]. split; [reflexivity |]. split.
  { exists start. split; [reflexivity |]. intros ->. discriminate. }
  cbv zeta in Hrun.
  destruct (_generatePath _ _ _ _ _) as [[path k0] |]; [| discriminate].
  destruct (length path =? 0) eqn:Hlen; injection Hrun as <- <-; [left; reflexivity |].
  right. eexists _, _. split; [| reflexivity]. intros ->. discriminate.
Qed.

(** *** Properties of every particle *)


Lemma newParticle_fields random cfg path k :
  let p := newParticle random cfg path k in
  edgeIndex p = 0 /\ edgePath p = path /\ trail p = []
  /\ progress p = 0%float /\ maxTrailLength p = trailLength cfg.
Proof.
  unfold newParticle. destruct (particleSizeRange cfg), (speedVariation cfg).
  simpl. auto.
Qed.







(** *** Accounting *)

Lemma filter_split_length (A : Type) (f : A -> bool) (l : list A) :
  length (List.filter f l) + length (List.filter (fun a => negb (f a)) l) = length l.
Proof.
  induction l as [| a l IH]; simpl; [reflexivity |].
  destruct (f a); simpl; lia.
Qed.

(** The particles admitted so far that are accounted for: live or counted
    as completed. *)
Definition accounted (s : System) : nat := length (particles s) + _completedCount s.

Lemma push_accounted random path k0 s :
  accounted (push_particle random path k0 s) = S (accounted s)
  /\ _completedCount (push_particle random path k0 s) = _completedCount s.
Proof.
  unfold accounted, push_particle; simpl. rewrite length_app. simpl. lia.
Qed.

Lemma call_accounted random fuel c s k s' k' :
  call random fuel c s k = Some (s', k') ->
  accounted s <= accounted s' <= S (accounted s)
  /\ _completedCount s <= _completedCount s'.
Proof.
  intros Hc. destruct c as [dt time wall | | nodeId]; simpl in Hc.
  - unfold update in Hc.
    destruct (_spawnParticle random fuel time s k) as [[s1 k1] |] eqn:Hsp; [| discriminate].
    injection Hc as <- <-.
    assert (H1 : accounted s <= accounted s1 <= S (accounted s)
                 /\ _completedCount s1 = _completedCount s).
    { apply spawnParticle_shape in Hsp
        as [-> | (_ & _ & _ & [-> | (path & k0 & _ & ->)])].
      - lia.
      - unfold accounted; simpl. lia.
      - destruct (push_accounted random path k0 (set_lastSpawnTime time s)) as [Ha Hn].
        rewrite Ha, Hn. unfold accounted; simpl. lia. }
    unfold accounted in *. unfold _cleanupCompletions. simpl.
    rewrite updateParticles_eq. simpl. rewrite length_map.
    pose proof (filter_split_length _ completed (particles s1)). lia.
  - apply spawnOne_shape in Hc as [-> | (path & k0 & _ & _ & ->)]; [lia |].
    destruct (push_accounted random path k0 s) as [Ha Hn]. lia.
  - apply spawnFrom_shape in Hc as [-> | (path & k0 & _ & _ & ->)]; [lia |].
    destruct (push_accounted random path k0 s) as [Ha Hn]. lia.
Qed.

(** X7.  No particle is lost: over a run the number of live particles plus
    the completed count never decreases and grows by at most one per call
    (the particle that call admitted); the completed count never decreases. *)
Theorem X7_particles_accounted_for random fuel cs :
  forall s k s' k',
    calls random fuel cs s k = Some (s', k') ->
    accounted s <= accounted s' <= accounted s + length cs
    /\ _completedCount s <= _completedCount s'.
Proof.
  induction cs as [| c cs IH]; simpl; intros s k s' k' Hrun.
  - injection Hrun as <- <-. lia.
  - destruct (call random fuel c s k) as [[s1 k1] |] eqn:Hc; [| discriminate].
    apply call_accounted in Hc. apply IH in Hrun. lia.
Qed.

(** X8.  When maxParticles is a whole number m, then from any state, also
    one that holds more particles than m (the limit may have been lowered
    while particles were in flight), a run never raises the live count
    above the larger of the count it started from and m.  Limit and count
    are below 2^53, where binary64 holds every whole number. *)
Theorem X8_live_count_never_grows_past_limit random fuel cs s k s' k' (m : nat) :
  maxParticles (config s) = countOf m -> (Z.of_nat m < 2 ^ 53)%Z ->
  (Z.of_nat (length (particles s)) < 2 ^ 53)%Z ->
  calls random fuel cs s k = Some (s', k') ->
  length (particles s') <= Nat.max (length (particles s)) m.
Proof.
  intros Hlimit Hm Hlen Hrun.
  assert (Hw : wholeLimit (maxParticles (config s)) m (Nat.max (length (particles s)) m))
    by (rewrite Hlimit; apply wholeLimit_countOf; lia).
  eapply calls_capacity; [exact Hw | | exact Hrun |]; lia.
Qed.

(** *** The completion window *)

Lemma filter_sublist (A : Type) (f : A -> bool) (l : list A) : List.filter f l `sublist_of` l.
Proof.
  induction l as [| a l IH]; simpl; [constructor |].
  destruct (f a); [apply sublist_skip | apply sublist_cons]; exact IH.
Qed.

Lemma spawnParticle_statistics random fuel time s k s' k' :
  _spawnParticle random fuel time s k = Some (s', k') ->
  _completedCount s' = _completedCount s /\ _recentCompletions s' = _recentCompletions s.
Proof.
  intros Hsp. apply spawnParticle_shape in Hsp
    as [-> | (_ & _ & _ & [-> | (path & k0 & _ & ->)])]; auto.
Qed.

(** X9.  After an update that read the clock as [wall], every completion
    timestamp still kept is later than [wall - 5000]; the kept timestamps are
    a subsequence, in order, of the ones kept before followed by one [wall]
    for each particle this update counted as completed. *)
Theorem X9_completion_window random fuel dt time wall s k s' k' :
  update random fuel dt time wall s k = Some (s', k') ->
  Forall (fun t => PrimFloat.ltb (PrimFloat.sub wall 5000) t = true) (_recentCompletions s')
  /\ _recentCompletions s'
       `sublist_of` (_recentCompletions s
                  ++ replicate (_completedCount s' - _completedCount s) wall).
Proof.
  unfold update. intros Hrun.
  destruct (_spawnParticle random fuel time s k) as [[s1 k1] |] eqn:Hsp; [| discriminate].
  injection Hrun as <- <-. apply spawnParticle_statistics in Hsp as [Hn Hr].
  unfold _cleanupCompletions. simpl. rewrite updateParticles_eq. simpl. split.
  - apply Forall_forall. intros t Hin.
    apply list_elem_of_In, filter_In in Hin as [_ Hnew]. exact Hnew.
  - rewrite Hn, Hr.
    replace (_completedCount s + length (List.filter completed (particles s1))
             - _completedCount s)
      with (length (List.filter completed (particles s1))) by lia.
    apply filter_sublist.
Qed.

(** *** What an update does to a particle *)

(** [p'] is [p] one update later. *)
Definition advancedFrom (p p' : Particle) : Prop :=
  id p' = id p /\ edgePath p' = edgePath p /\ speed p' = speed p
  /\ color p' = color p /\ size p' = size p /\ lateralOffset p' = lateralOffset p
  /\ maxTrailLength p' = maxTrailLength p
  /\ (edgeIndex p' = edgeIndex p
      \/ (edgeIndex p' = S (edgeIndex p) /\ progress p' = 0%float)).

Lemma advanceParticle_advancedFrom cfg paths dt p :
  advancedFrom p (advanceParticle cfg paths dt p).
Proof.
  unfold advancedFrom, advanceParticle. cbn [id edgePath speed color size lateralOffset
    maxTrailLength edgeIndex progress].
  repeat split.
  match goal with
  | |- context [if PrimFloat.leb 1 ?q then _ else _] => destruct (PrimFloat.leb 1 q)
  end; auto.
Qed.

(** X10.  The particles after an update pass are, in the same order, the
    particles that had not completed before it; each keeps its id, path,
    speed, colour, size, lateral offset and trail maximum, and its edge index
    either stays or goes up by exactly one, in which case its progress
    restarts at 0. *)
Theorem X10_update_keeps_particle_identity dt wall s :
  Forall2 advancedFrom
    (List.filter (fun p => negb (completed p)) (particles s))
    (particles (_updateParticles dt wall s)).
Proof.
  rewrite updateParticles_eq. simpl.
  induction (List.filter (fun p => negb (completed p)) (particles s)) as [| p l IH]; simpl;
    constructor; [apply advanceParticle_advancedFrom | exact IH].
Qed.

(** Two particles that agree on everything but their trail. *)
Definition sameMotion (p q : Particle) : Prop :=
  id p = id q /\ edgePath p = edgePath q /\ edgeIndex p = edgeIndex q
  /\ progress p = progress q /\ speed p = speed q /\ color p = color q
  /\ maxTrailLength p = maxTrailLength q /\ size p = size q
  /\ lateralOffset p = lateralOffset q.

(** Two systems that agree on everything but the edge geometry, the
    selection and the trails of their particles. *)
Definition sameSimulation (s t : System) : Prop :=
  Forall2 sameMotion (particles s) (particles t)
  /\ adjacency s = adjacency t /\ config s = config t
  /\ _lastSpawnTime s = _lastSpawnTime t /\ _completedCount s = _completedCount t
  /\ _recentCompletions s = _recentCompletions t.

Lemma sameMotion_refl (p : Particle) : sameMotion p p.
Proof. unfold sameMotion. auto 10. Qed.

Lemma sameMotion_completed p q : sameMotion p q -> completed p = completed q.
Proof. intros (_ & Hpath & Hi & _). unfold completed. rewrite Hpath, Hi. reflexivity. Qed.

Lemma sameMotion_advance cfg paths paths' dt p q :
  sameMotion p q ->
  sameMotion (advanceParticle cfg paths dt p) (advanceParticle cfg paths' dt q).
Proof.
  intros (Hid & Hpath & Hi & Hprog & Hspeed & Hcol & Hmax & Hsize & Hoff).
  unfold sameMotion, advanceParticle.
  cbn [id edgePath edgeIndex progress speed color maxTrailLength size lateralOffset].
  rewrite Hprog, Hspeed, Hi. auto 10.
Qed.

Lemma sameMotion_pass cfg paths paths' dt (l l' : list Particle) :
  Forall2 sameMotion l l' ->
  Forall2 sameMotion
    (map (advanceParticle cfg paths dt) (List.filter (fun p => negb (completed p)) l))
    (map (advanceParticle cfg paths' dt) (List.filter (fun p => negb (completed p)) l'))
  /\ length (List.filter completed l) = length (List.filter completed l').
Proof.
  induction 1 as [| p q l l' Hpq Hl [IH1 IH2]]; simpl; [split; [constructor | reflexivity] |].
  rewrite <- (sameMotion_completed p q Hpq). destruct (completed p); simpl.
  - split; [exact IH1 | lia].
  - split; [| exact IH2]. constructor; [apply sameMotion_advance; exact Hpq | exact IH1].
Qed.

Lemma sameSimulation_push random path k0 s t :
  sameSimulation s t ->
  sameSimulation (push_particle random path k0 s) (push_particle random path k0 t).
Proof.
  intros (Hp & Ha & Hc & Hl & Hn & Hr). unfold sameSimulation, push_particle. simpl.
  rewrite Hc. repeat split; try assumption.
  apply Forall2_app; [exact Hp |]. constructor; [apply sameMotion_refl | constructor].
Qed.

Lemma sameSimulation_capacity s t : sameSimulation s t -> atCapacity s = atCapacity t.
Proof.
  intros (Hp & _ & Hc & _). unfold atCapacity.
  rewrite Hc, (Forall2_length _ _ _ Hp). reflexivity.
Qed.

Lemma sameSimulation_call random fuel c s t k s' k' :
  sameSimulation s t ->
  call random fuel c s k = Some (s', k') ->
  exists t', call random fuel c t k = Some (t', k') /\ sameSimulation s' t'.
Proof.
  intros Hst Hc. pose proof (sameSimulation_capacity _ _ Hst) as Hcap.
  pose proof Hst as (Hp & Ha & Hcfg & Hl & Hn & Hr).
  assert (Hspawn : forall start,
    match _generatePath random (adjacency s) fuel start k with
    | Some (path, k0) =>
        if length path =? 0 then Some (s, k0)
        else Some (push_particle random path k0 s, k0 + 5)
    | None => None
    end = Some (s', k') ->
    exists t',
      match _generatePath random (adjacency t) fuel start k with
      | Some (path, k0) =>
          if length path =? 0 then Some (t, k0)
          else Some (push_particle random path k0 t, k0 + 5)
      | None => None
      end = Some (t', k') /\ sameSimulation s' t').
  { intros start. rewrite <- Ha.
    destruct (_generatePath random (adjacency s) fuel start k) as [[path k0] |];
      [| discriminate].
    destruct (length path =? 0); intros [= <- <-]; eexists; (split; [reflexivity |]);
      [exact Hst | apply sameSimulation_push; exact Hst]. }
  destruct c as [dt time wall | | nodeId]; simpl in *.
  - unfold update in *. unfold _spawnParticle in *. rewrite <- Hcfg, <- Hcap, <- Hl.
    assert (Hset : sameSimulation (set_lastSpawnTime time s) (set_lastSpawnTime time t)).
    { unfold sameSimulation. simpl. auto 10. }
    assert (Hfin : forall s1 t1, sameSimulation s1 t1 ->
              sameSimulation (_cleanupCompletions wall (_updateParticles dt wall s1))
                             (_cleanupCompletions wall (_updateParticles dt wall t1))).
    { intros s1 t1 (Hp1 & Ha1 & Hc1 & Hl1 & Hn1 & Hr1).
      unfold sameSimulation, _cleanupCompletions. simpl. rewrite !updateParticles_eq. simpl.
      destruct (sameMotion_pass (config s1) (edgePaths s1) (edgePaths t1) dt _ _ Hp1)
        as [Hpass Hcount].
      rewrite <- Hc1, <- Hcount, <- Hn1, <- Hr1. auto 10. }
    destruct (startNodeId (config s)) as [start |];
      [| injection Hc as <- <-; eexists; split; [reflexivity | apply Hfin; exact Hst]].
    destruct (negb (truthy start));
      [injection Hc as <- <-; eexists; split; [reflexivity | apply Hfin; exact Hst] |].
    destruct (atCapacity s);
      [injection Hc as <- <-; eexists; split; [reflexivity | apply Hfin; exact Hst] |].
    destruct (PrimFloat.ltb _ _);
      [injection Hc as <- <-; eexists; split; [reflexivity | apply Hfin; exact Hst] |].
    cbv zeta in *. cbn [adjacency set_lastSpawnTime] in *. rewrite <- Ha.
    destruct (_generatePath random (adjacency s) fuel start k) as [[path k0] |];
      [| discriminate].
    destruct (length path =? 0); injection Hc as <- <-; eexists; (split; [reflexivity |]);
      apply Hfin; [exact Hset | apply sameSimulation_push; exact Hset].
  - unfold spawnOne in *. rewrite <- Hcfg, <- Hcap.
    destruct (startNodeId (config s)) as [start |];
      [| injection Hc as <- <-; eauto].
    destruct (negb (truthy start)); [injection Hc as <- <-; eauto |].
    destruct (atCapacity s); [injection Hc as <- <-; eauto |].
    apply Hspawn. exact Hc.
  - unfold spawnFrom in *. rewrite <- Hcap.
    destruct (atCapacity s); [injection Hc as <- <-; eauto |].
    apply Hspawn. exact Hc.
Qed.

(** X11.  The edge geometry never influences the simulation: two systems
    that differ only in their edge paths, their selection and the trails of
    their particles answer every sequence of calls alike: the same particles
    with the same ids, paths, edge indices and progress, the same completion
    statistics, the same number of draws.  Only the trails differ. *)
Theorem X11_geometry_does_not_influence_simulation random fuel cs :
  forall s t k s' k',
    sameSimulation s t ->
    calls random fuel cs s k = Some (s', k') ->
    exists t', calls random fuel cs t k = Some (t', k') /\ sameSimulation s' t'.
Proof.
  induction cs as [| c cs IH]; simpl; intros s t k s' k' Hst Hrun.
  - injection Hrun as <- <-. eauto.
  - destruct (call random fuel c s k) as [[s1 k1] |] eqn:Hc; [| discriminate].
    destruct (sameSimulation_call _ _ _ _ _ _ _ _ Hst Hc) as (t1 & -> & Hst1).
    eapply IH; eassumption.
Qed.

(** *** Manual and scheduled spawns *)

(** The array is unchanged or has one new particle, without trail, at the
    start of a non-empty path. *)
Definition atMostOneNew (s s' : System) : Prop :=
  particles s' = particles s
  \/ exists p, particles s' = particles s ++ [p]
       /\ edgeIndex p = 0 /\ trail p = [] /\ edgePath p <> []
       /\ maxTrailLength p = trailLength (config s).

Lemma push_atMostOneNew random path k0 s t :
  path <> [] -> particles t = particles s -> config t = config s ->
  atMostOneNew s (push_particle random path k0 t).
Proof.
  intros Hne Hp Hc. right. unfold push_particle; simpl. eexists. rewrite Hp.
  split; [reflexivity |].
  destruct (newParticle_fields random (config t) path k0) as (Hi & Hpath & Htrail & _ & Hmax).
  rewrite Hi, Hpath, Htrail, Hmax, Hc. auto.
Qed.

(** X12.  A manual spawn (spawnOne or spawnFrom) leaves everything but the
    particle array as it was, in particular the time of the last scheduled
    spawn and the completion statistics; the particles already live are
    untouched and at most one is appended. *)
Theorem X12_manual_spawn_frame random fuel nodeId s k s' k' :
  spawnOne random fuel s k = Some (s', k')
  \/ spawnFrom random fuel nodeId s k = Some (s', k') ->
  _lastSpawnTime s' = _lastSpawnTime s
  /\ _completedCount s' = _completedCount s
  /\ _recentCompletions s' = _recentCompletions s
  /\ edgePaths s' = edgePaths s /\ adjacency s' = adjacency s
  /\ selectedEdgeIds s' = selectedEdgeIds s /\ config s' = config s
  /\ atMostOneNew s s'.
Proof.
  intros Hrun.
  assert (Hshape : s' = s \/ exists path k0, path <> [] /\ atCapacity s = false
                              /\ s' = push_particle random path k0 s).
  { destruct Hrun as [H | H]; [eapply spawnOne_shape | eapply spawnFrom_shape]; exact H. }
  destruct Hshape as [-> | (path & k0 & Hne & _ & ->)].
  - repeat split. left. reflexivity.
  - repeat split. apply push_atMostOneNew; auto.
Qed.

(** X13.  The scheduled spawn changes the state only when a non-empty start
    node is configured, the system is below capacity and the spawn interval
    1000 / spawnRate has elapsed since the last scheduled spawn; it then
    records the current time as the time of the last spawn, whether or not
    the router found a path, and appends at most one particle. *)
Theorem X13_scheduled_spawn_conditions random fuel time s k s' k' :
  _spawnParticle random fuel time s k = Some (s', k') ->
  atMostOneNew s s'
  /\ (s' <> s ->
      _lastSpawnTime s' = time
      /\ atCapacity s = false
      /\ PrimFloat.ltb (PrimFloat.sub time (_lastSpawnTime s))
           (PrimFloat.div 1000 (spawnRate (config s))) = false
      /\ exists start, startNodeId (config s) = Some start /\ start <> ""%string).
Proof.
  intros Hsp. apply spawnParticle_shape in Hsp
    as [-> | (Hcap & Hdue & Hstart & [-> | (path & k0 & Hne & ->)])].
  - split; [left; reflexivity |]. intros Hdiff. contradiction.
  - split; [left; reflexivity |]. intros _. auto.
  - split; [apply push_atMostOneNew; auto |]. intros _. auto.
Qed.

(** *** The scenario with geometry: one vertical edge from entry to exit *)

Definition demoGeo : System :=
  setEdgePaths {[ "e1"%string := CurveProperties.verticalF ]} demo0.

(** Two particles spawned under a limit of 2, and the limit then lowered
    to 1 ([updateConfig({maxParticles: 1})]). *)
Definition demoLowered : System :=
  set_particles
    (particles (default (demo0, 0)
                  (calls halves 3 [CallSpawnOne; CallSpawnOne]
                     (buildAdjacency twoNodes (new (withStart "entry" 2 0))) 0)).1)
    demo0.

Definition demoLoweredRun : System * nat :=
  default (demoLowered, 0)
    (calls halves 3 [CallSpawnOne; CallUpdate 16 0 0] demoLowered 0).

Definition threeFrames : list Call :=
  [CallSpawnOne; CallUpdate 16 0 0; CallUpdate 16 16 16; CallUpdate 16 32 32].

Definition demoTrail : System * nat :=
  default (demoGeo, 0) (calls halves 3 threeFrames demoGeo 0).

(** After three frames the particle has three trail points. *)
Example demoTrail_points : map (fun p => length (trail p)) (particles demoTrail.1) = [3].
Proof. vm_compute. reflexivity. Qed.

Definition demoSpawned : System * nat := default (demoGeo, 0) (spawnOne halves 3 demoGeo 0).

Definition demoScheduled : System * nat :=
  default (demoGeo, 0) (_spawnParticle halves 3 100 demoGeo 0).

Definition demoRemoved : System * nat :=
  default demoFinished (update halves 3 16 150 200 demoFinished.1 demoFinished.2).



Lemma X7_particles_accounted_for_witness :
  accounted demoGeo <= accounted demoTrail.1 <= accounted demoGeo + length threeFrames
  /\ _completedCount demoGeo <= _completedCount demoTrail.1.
Proof.
  apply (X7_particles_accounted_for halves 3 threeFrames demoGeo 0 demoTrail.1 demoTrail.2).
  vm_compute. reflexivity.
Defined.

Lemma X8_live_count_never_grows_past_limit_witness :
  length (particles demoLoweredRun.1) <= Nat.max (length (particles demoLowered)) 1.
Proof.
  apply (X8_live_count_never_grows_past_limit halves 3
           [CallSpawnOne; CallUpdate 16 0 0] demoLowered 0
           demoLoweredRun.1 demoLoweredRun.2 1).
  - vm_compute. reflexivity.
  - vm_compute. reflexivity.
  - vm_compute. reflexivity.
  - vm_compute. reflexivity.
Defined.

(** [demoLowered] holds two particles under a limit of 1, and the run keeps
    both. *)
Example demoLowered_count :
  length (particles demoLowered) = 2 /\ length (particles demoLoweredRun.1) = 2.
Proof. vm_compute. split; reflexivity. Qed.

Lemma X9_completion_window_witness :
  Forall (fun t => PrimFloat.ltb (PrimFloat.sub 200 5000) t = true)
    (_recentCompletions demoRemoved.1)
  /\ _recentCompletions demoRemoved.1
       `sublist_of` (_recentCompletions demoFinished.1
                  ++ replicate (_completedCount demoRemoved.1
                                - _completedCount demoFinished.1) 200%float).
Proof.
  apply (X9_completion_window halves 3 16 150 200 demoFinished.1 demoFinished.2
           demoRemoved.1 demoRemoved.2).
  vm_compute. reflexivity.
Defined.

(** The update of [demoRemoved] counted the finished particle at time 200. *)
Example demoRemoved_statistics :
  _recentCompletions demoRemoved.1 = [200%float] /\ _completedCount demoRemoved.1 = 1.
Proof. vm_compute. split; reflexivity. Qed.

Lemma demo_sameSimulation : sameSimulation demoGeo demo0.
Proof. unfold sameSimulation. simpl. repeat split; constructor. Qed.

Lemma X11_geometry_does_not_influence_simulation_witness :
  exists t', calls halves 3 threeFrames demo0 0 = Some (t', demoTrail.2)
             /\ sameSimulation demoTrail.1 t'.
Proof.
  apply (X11_geometry_does_not_influence_simulation halves 3 threeFrames demoGeo demo0 0).
  - exact demo_sameSimulation.
  - vm_compute. reflexivity.
Defined.

Lemma X12_manual_spawn_frame_witness :
  _lastSpawnTime demoSpawned.1 = _lastSpawnTime demoGeo
  /\ _completedCount demoSpawned.1 = _completedCount demoGeo
  /\ _recentCompletions demoSpawned.1 = _recentCompletions demoGeo
  /\ edgePaths demoSpawned.1 = edgePaths demoGeo
  /\ adjacency demoSpawned.1 = adjacency demoGeo
  /\ selectedEdgeIds demoSpawned.1 = selectedEdgeIds demoGeo
  /\ config demoSpawned.1 = config demoGeo
  /\ atMostOneNew demoGeo demoSpawned.1.
Proof.
  apply (X12_manual_spawn_frame halves 3 "entry" demoGeo 0 demoSpawned.1 demoSpawned.2).
  left. vm_compute. reflexivity.
Defined.

Lemma demoScheduled_changed : demoScheduled.1 <> demoGeo.
Proof.
  intros Heq. apply (f_equal (fun s => length (particles s))) in Heq.
  vm_compute in Heq. discriminate.
Qed.

Lemma X13_scheduled_spawn_conditions_witness :
  atMostOneNew demoGeo demoScheduled.1
  /\ _lastSpawnTime demoScheduled.1 = 100%float
  /\ atCapacity demoGeo = false
  /\ PrimFloat.ltb (PrimFloat.sub 100 (_lastSpawnTime demoGeo))
       (PrimFloat.div 1000 (spawnRate (config demoGeo))) = false
  /\ exists start, startNodeId (config demoGeo) = Some start /\ start <> ""%string.
Proof.
  destruct (X13_scheduled_spawn_conditions halves 3 100 demoGeo 0
              demoScheduled.1 demoScheduled.2) as [Hnew Hwhen].
  - vm_compute. reflexivity.
  - split; [exact Hnew |]. apply Hwhen. exact demoScheduled_changed.
Defined.

(** The scheduled spawn of [demoScheduled] did add a particle. *)
Example demoScheduled_count : length (particles demoScheduled.1) = 1.
Proof. vm_compute. reflexivity. Qed.

End PoolExtras.

(** ** The canvas *)

Module CanvasExtras.
Import Curve ParticleSystem ParticleCanvas RouterExtras PoolProperties.

Lemma nodeMap_fold (nodes : list FlowNode) :
  forall (m : gmap string SizedNode) (n : string) (sn : SizedNode),
    fold_left (fun (m : gmap string SizedNode) nd => <[ n_id nd := sized nd ]> m) nodes m !! n
      = Some sn ->
    m !! n = Some sn \/ exists nd, nd ∈ nodes /\ n_id nd = n /\ sn = sized nd.
Proof.
  induction nodes as [| a nodes IH]; intros m n sn Hlook; simpl in Hlook; [auto |].
  apply IH in Hlook as [Hm | (nd & Hin & Hid & Hsn)].
  - destruct (decide (n_id a = n)) as [<- | Hne].
    + rewrite lookup_insert_eq in Hm. injection Hm as <-.
      right. exists a. split; [left | auto].
    + rewrite lookup_insert_ne in Hm by exact Hne. auto.
  - right. exists nd. split; [right; exact Hin | auto].
Qed.

Lemma nodeMap_fold_present (nodes : list FlowNode) :
  forall (m : gmap string SizedNode) (n : string),
    (is_Some (m !! n) \/ exists nd, nd ∈ nodes /\ n_id nd = n) ->
    is_Some (fold_left (fun (m : gmap string SizedNode) nd => <[ n_id nd := sized nd ]> m)
               nodes m !! n).
Proof.
  induction nodes as [| a nodes IH]; intros m n Hpre; simpl.
  - destruct Hpre as [Hm | (nd & Hin & _)]; [exact Hm | inversion Hin].
  - apply IH. destruct Hpre as [Hm | (nd & Hin & Hid)].
    + left. destruct (decide (n_id a = n)) as [<- | Hne];
        [rewrite lookup_insert_eq; eauto | rewrite lookup_insert_ne by exact Hne; exact Hm].
    + apply elem_of_cons in Hin as [-> | Hin].
      * left. rewrite <- Hid, lookup_insert_eq. eauto.
      * right. eauto.
Qed.

(** A node with the given id is among the nodes. *)
Definition present (nodes : list FlowNode) (n : string) : Prop :=
  exists nd, nd ∈ nodes /\ n_id nd = n.

Lemma nodeMapOf_present (nodes : list FlowNode) (n : string) :
  is_Some (nodeMapOf nodes !! n) <-> present nodes n.
Proof.
  unfold nodeMapOf, present. split.
  - intros [sn Hsn]. apply nodeMap_fold in Hsn as [Hm | (nd & Hin & Hid & _)]; [| eauto].
    rewrite lookup_empty in Hm. discriminate.
  - intros Hp. apply nodeMap_fold_present. right. exact Hp.
Qed.

Lemma nodeMapOf_sized (nodes : list FlowNode) (n : string) (sn : SizedNode) :
  nodeMapOf nodes !! n = Some sn -> exists nd, nd ∈ nodes /\ n_id nd = n /\ sn = sized nd.
Proof.
  unfold nodeMapOf. intros Hsn. apply nodeMap_fold in Hsn as [Hm | Hnd]; [| exact Hnd].
  rewrite lookup_empty in Hm. discriminate.
Qed.

(** Both ends of the edge are among the nodes. *)
Definition anchored (nodes : list FlowNode) (e : FlowEdge) : Prop :=
  present nodes (fe_source e) /\ present nodes (fe_target e).

Lemma edgePaths_fold (nodes : list FlowNode) (edges : list FlowEdge) :
  forall (m : gmap string (EdgePath float)) (i : string),
    let step := fun (edgePaths : gmap string (EdgePath float)) edge =>
      match nodeMapOf nodes !! fe_source edge, nodeMapOf nodes !! fe_target edge with
      | Some sourceNode, Some targetNode =>
          <[ fe_id edge := connect sourceNode targetNode ]> edgePaths
      | _, _ => edgePaths
      end in
    (forall p, fold_left step edges m !! i = Some p ->
       m !! i = Some p
       \/ exists e a b, e ∈ edges /\ fe_id e = i
            /\ a ∈ nodes /\ n_id a = fe_source e /\ b ∈ nodes /\ n_id b = fe_target e
            /\ p = connect (sized a) (sized b))
    /\ ((is_Some (m !! i) \/ exists e, e ∈ edges /\ fe_id e = i /\ anchored nodes e) ->
        is_Some (fold_left step edges m !! i)).
Proof.
  induction edges as [| e edges IH]; intros m i step; simpl.
  - split; [auto |]. intros [Hm | (e & Hin & _)]; [exact Hm | inversion Hin].
  - destruct (IH (step m e) i) as [IHval IHkey]. fold step in IHval, IHkey. split.
    + intros p Hp. apply IHval in Hp as [Hm | (e' & a & b & Hin & Hrest)].
      * unfold step in Hm.
        destruct (nodeMapOf nodes !! fe_source e) as [sn |] eqn:Hs; [| auto].
        destruct (nodeMapOf nodes !! fe_target e) as [tn |] eqn:Ht; [| auto].
        destruct (decide (fe_id e = i)) as [Hid | Hne].
        -- rewrite <- Hid, lookup_insert_eq in Hm. injection Hm as <-.
           apply nodeMapOf_sized in Hs as (a & Ha & Haid & ->).
           apply nodeMapOf_sized in Ht as (b & Hb & Hbid & ->).
           right. exists e, a, b. repeat split; auto. left.
        -- rewrite lookup_insert_ne in Hm by exact Hne. auto.
      * right. exists e', a, b. split; [right; exact Hin | exact Hrest].
    + intros Hpre. apply IHkey. destruct Hpre as [Hm | (e' & Hin & Hid & Hanch)].
      * left. unfold step.
        destruct (nodeMapOf nodes !! fe_source e), (nodeMapOf nodes !! fe_target e);
          try exact Hm.
        destruct (decide (fe_id e = i)) as [<- | Hne];
          [rewrite lookup_insert_eq; eauto | rewrite lookup_insert_ne by exact Hne; exact Hm].
      * apply elem_of_cons in Hin as [-> | Hin]; [| right; eauto].
        left. unfold step. destruct Hanch as [Hs Ht].
        apply nodeMapOf_present in Hs as [sn ->]. apply nodeMapOf_present in Ht as [tn ->].
        rewrite <- Hid, lookup_insert_eq. eauto.
Qed.

Lemma computeEdgePaths_key (nodes : list FlowNode) (edges : list FlowEdge) (i : string) :
  is_Some (computeEdgePaths nodes edges !! i)
  <-> exists e, e ∈ edges /\ fe_id e = i /\ anchored nodes e.
Proof.
  unfold computeEdgePaths. cbv zeta.
  destruct (edgePaths_fold nodes edges ∅ i) as [Hval Hkey]. split.
  - intros [p Hp]. apply Hval in Hp as [Hm | (e & a & b & Hin & Hid & Ha & Haid & Hb & Hbid & _)].
    + rewrite lookup_empty in Hm. discriminate.
    + exists e. repeat split; [exact Hin | exact Hid | exists a; auto | exists b; auto].
  - intros He. apply Hkey. right. exact He.
Qed.


(** X15.  After [updateEdgePaths], an edge with a missing end (and no
    edge of the same id with both ends) is still in the adjacency of its
    source, so the router can choose it, but it has no geometry: a particle
    sent over it advances without a trail. *)
Theorem X15_dangling_edge_routed_without_geometry (nodes : list FlowNode)
    (edges : list CanvasEdge) (s : System) (e : FlowEdge) :
  e ∈ map flow edges ->
  (forall e', e' ∈ map flow edges -> fe_id e' = fe_id e -> ~ anchored nodes e') ->
  toInfo e ∈ default [] (adjacency (updateEdgePaths nodes edges s) !! fe_source e)
  /\ edgePaths (updateEdgePaths nodes edges s) !! fe_id e = None.
Proof.
  intros He Hdangling. unfold updateEdgePaths. cbv zeta. cbn [adjacency edgePaths setSelectedEdges].
  split.
  - rewrite buildAdjacency_lookup.
    assert (Hin : In e (List.filter (leaves (fe_source e)) (map flow edges))).
    { apply filter_In. split; [apply list_elem_of_In; exact He |].
      unfold leaves. apply String.eqb_refl. }
    destruct (List.filter (leaves (fe_source e)) (map flow edges)) as [| f l] eqn:Hf;
      [destruct Hin |].
    cbn [default]. apply list_elem_of_In, in_map. exact Hin.
  - unfold buildAdjacency, setEdgePaths. cbn [edgePaths].
    destruct (computeEdgePaths nodes (map flow edges) !! fe_id e) as [p |] eqn:Hp;
      [| reflexivity].
    exfalso. assert (Hsome : is_Some (computeEdgePaths nodes (map flow edges) !! fe_id e))
      by eauto.
    apply computeEdgePaths_key in Hsome as (e' & Hin & Hid & Hanch).
    exact (Hdangling e' Hin Hid Hanch).
Qed.

(** X16.  [updateEdgePaths] does not touch the particles, the
    configuration, the time of the last spawn or the completion statistics;
    and it replaces the selection by the ids of exactly the edges flagged as
    selected. *)
Theorem X16_updateEdgePaths_frame (nodes : list FlowNode) (edges : list CanvasEdge)
    (s : System) :
  let s' := updateEdgePaths nodes edges s in
  particles s' = particles s /\ config s' = config s
  /\ _lastSpawnTime s' = _lastSpawnTime s /\ _completedCount s' = _completedCount s
  /\ _recentCompletions s' = _recentCompletions s
  /\ forall i, i ∈ selectedEdgeIds s'
       <-> exists e, e ∈ edges /\ selected e = true /\ fe_id (flow e) = i.
Proof.
  cbv zeta. unfold updateEdgePaths. cbv zeta. repeat split; intros H.
  - cbn [selectedEdgeIds setSelectedEdges] in H.
    apply elem_of_list_to_set, list_elem_of_In, in_map_iff in H as (e & Hid & Hin).
    apply filter_In in Hin as [Hin Hsel].
    exists e. split; [apply list_elem_of_In; exact Hin | auto].
  - destruct H as (e & Hin & Hsel & Hid).
    cbn [selectedEdgeIds setSelectedEdges].
    apply elem_of_list_to_set, list_elem_of_In, in_map_iff.
    exists e. split; [exact Hid |]. apply filter_In.
    split; [apply list_elem_of_In; exact Hin | exact Hsel].
Qed.

Lemma float_ltb_leb (a b : float) :
  PrimFloat.ltb a b = true -> PrimFloat.leb a b = true.
Proof.
  rewrite FloatAxioms.ltb_spec, FloatAxioms.leb_spec. unfold SFltb, SFleb.
  destruct (SFcompare (Prim2SF a) (Prim2SF b)) as [[| |] |]; congruence.
Qed.

(** X17.  The delta time that [animate] passes to [update] is never above
    100: it is NaN (when the time stamps give no number) or at most 100. *)
Theorem X17_frame_delta_capped (lastTime : option float) (time : float) :
  PrimFloat.is_nan (frameDelta lastTime time) = true
  \/ PrimFloat.leb (frameDelta lastTime time) 100 = true.
Proof.
  unfold frameDelta, CaseEngine.Math_min. cbv zeta.
  set (d := PrimFloat.sub time (default time lastTime)).
  destruct (PrimFloat.is_nan d || PrimFloat.is_nan 100) eqn:Hnan; [left; reflexivity |].
  right. destruct (PrimFloat.ltb d 100) eqn:Hlt; [apply float_ltb_leb; exact Hlt |].
  reflexivity.
Qed.

(** *** A flow with a dangling edge *)

Definition box (i : string) (px py : float) : FlowNode :=
  {| n_id := i; position_x := px; position_y := py; element := None;
     measured_width := None; measured_height := None |}.

Definition twoBoxes : list FlowNode := [box "entry" 0 0; box "exit" 0 200].

Definition wired : list CanvasEdge :=
  [ {| flow := edge "e1" "entry" "exit"; selected := true |};
    {| flow := edge "e2" "entry" "gone"; selected := false |} ].


Lemma wired_dangling (e' : FlowEdge) :
  e' ∈ map flow wired -> fe_id e' = fe_id (edge "e2" "entry" "gone") ->
  ~ anchored twoBoxes e'.
Proof.
  intros Hin Hid [_ (nd & Hnd & Htarget)].
  simpl in Hin. apply elem_of_cons in Hin as [-> | Hin]; [discriminate |].
  apply list_elem_of_singleton in Hin as ->. simpl in Htarget.
  unfold twoBoxes in Hnd. apply elem_of_cons in Hnd as [-> | Hnd]; [discriminate |].
  apply list_elem_of_singleton in Hnd as ->. discriminate.
Qed.

Lemma X15_dangling_edge_routed_without_geometry_witness :
  toInfo (edge "e2" "entry" "gone")
    ∈ default [] (adjacency (updateEdgePaths twoBoxes wired demo0) !! "entry"%string)
  /\ edgePaths (updateEdgePaths twoBoxes wired demo0) !! "e2"%string = None.
Proof.
  apply (X15_dangling_edge_routed_without_geometry twoBoxes wired demo0
           (edge "e2" "entry" "gone")).
  - simpl. right. left.
  - exact wired_dangling.
Defined.

End CanvasExtras.

(** ** The case engine *)

Module CaseExtras.
Import CaseEngine CaseProperties.

(** *** The procedural order *)

Lemma indexOf_found (l : list string) (v : string) :
  forall i, indexOf l v = Some i ->
    exists l1 l2, l = l1 ++ v :: l2 /\ length l1 = i /\ v ∉ l1.
Proof.
  induction l as [| a l IH]; intros i Hi; simpl in Hi; [discriminate |].
  destruct (String.eqb_spec a v) as [-> | Hne].
  - injection Hi as <-. exists [], l. repeat split. apply not_elem_of_nil.
  - destruct (indexOf l v) as [j |] eqn:Hj; [| discriminate].
    simpl in Hi. injection Hi as <-.
    destruct (IH j eq_refl) as (l1 & l2 & -> & Hlen & Hnot).
    exists (a :: l1), l2. repeat split; [simpl; lia |].
    apply not_elem_of_cons. split; [congruence | exact Hnot].
Qed.

Lemma indexOf_first (l1 l2 : list string) (v : string) :
  v ∉ l1 -> indexOf (l1 ++ v :: l2) v = Some (length l1).
Proof.
  induction l1 as [| a l1 IH]; intros Hnot; simpl.
  - rewrite String.eqb_refl. reflexivity.
  - apply not_elem_of_cons in Hnot as [Hne Hnot].
    destruct (String.eqb_spec a v) as [-> | _]; [contradiction |].
    rewrite (IH Hnot). reflexivity.
Qed.

(** X18.  [getNextNodeId] returns the element that follows the first
    occurrence of the node in the procedural order, and null when the node is
    not in the order or its first occurrence is the last element. *)
Theorem X18_getNextNodeId_is_successor (e : Engine) (cur nxt : string) :
  getNextNodeId e cur = Some nxt
  <-> exists l1 l2, proceduralOrder e = l1 ++ cur :: nxt :: l2 /\ cur ∉ l1.
Proof.
  unfold getNextNodeId. split.
  - destruct (indexOf (proceduralOrder e) cur) as [i |] eqn:Hi; [| discriminate].
    destruct (indexOf_found _ _ _ Hi) as (l1 & l2 & Horder & Hlen & Hnot).
    rewrite Horder. destruct (Z.leb _ _) eqn:Hlt; [discriminate |].
    intros Hnext. rewrite lookup_app_r, <- Hlen in Hnext by lia.
    replace (length l1 + 1 - length l1) with 1 in Hnext by lia.
    destruct l2 as [| n l2]; [discriminate |]. simpl in Hnext. injection Hnext as ->.
    exists l1, l2. auto.
  - intros (l1 & l2 & -> & Hnot). rewrite (indexOf_first l1 (nxt :: l2) cur Hnot).
    rewrite length_app. cbn [length].
    destruct (Z.leb_spec (Z.of_nat (length l1 + S (S (length l2))) - 1)
                (Z.of_nat (length l1))) as [Hle | _]; [lia |].
    rewrite lookup_app_r by lia.
    replace (length l1 + 1 - length l1) with 1 by lia. reflexivity.
Qed.

Lemma X18_getNextNodeId_is_successor_witness :
  exists l1 l2, proceduralOrder workflow = l1 ++ "proc"%string :: "outbox"%string :: l2
                /\ "proc"%string ∉ l1.
Proof.
  apply (X18_getNextNodeId_is_successor workflow "proc" "outbox"). reflexivity.
Defined.

(** *** The state machine *)

(** The transitions of the state diagram, staying in place included. *)
Definition allowed (a b : CaseState) : bool :=
  match a, b with
  | at_inbox, (at_inbox | transitioning) => true
  | transitioning, (transitioning | at_outbox | at_procedure_stage) => true
  | at_procedure_stage, (at_procedure_stage | transitioning) => true
  | at_outbox, at_outbox => true
  | at_procedure, at_procedure => true
  | _, _ => false
  end.

Ltac update_cases H :=
  repeat match type of H with
         | Some _ = Some _ => injection H as <-
         | None = Some _ => discriminate H
         | context [match ?x with _ => _ end] => destruct x eqn:?
         end.

(** X19.  An update only makes transitions of the state diagram: from the
    inbox into transit; from transit to the outbox or to a procedure stage;
    from a stage to a stage or into transit; nothing leads back to the inbox,
    out of the outbox, or into or out of the at_procedure state. *)
Theorem X19_update_follows_state_diagram (e : Engine) (now : float) (c c' : Case) :
  updateCase e c now = Some c' -> allowed (state c) (state c') = true.
Proof.
  unfold updateCase. intros Hrun. update_cases Hrun; simpl;
    repeat match goal with H : state c = _ |- _ => rewrite H end; reflexivity.
Qed.

Lemma X19_update_follows_state_diagram_witness :
  allowed (state (theCase at_procedure_stage "proc" 0 600))
          (state (theCase transitioning "proc" 0 1100)) = true.
Proof.
  apply (X19_update_follows_state_diagram atStage 1100). vm_compute. reflexivity.
Defined.

(** X20.  An update either restarts the clock of the case, setting
    stateStartedAt to the current time and progress to 0, or leaves its
    state, node, stage index and stateStartedAt as they were; so the clock
    restarts whenever the state, the node or the stage changes. *)
Theorem X20_clock_restarts_on_every_change (e : Engine) (now : float) (c c' : Case) :
  updateCase e c now = Some c' ->
  (stateStartedAt c' = now /\ progress c' = 0%float)
  \/ (state c' = state c /\ currentNodeId c' = currentNodeId c
      /\ currentStageIndex c' = currentStageIndex c
      /\ stateStartedAt c' = stateStartedAt c).
Proof.
  unfold updateCase. intros Hrun. update_cases Hrun; simpl; auto.
Qed.

Lemma X20_clock_restarts_on_every_change_witness :
  (stateStartedAt (theCase transitioning "proc" 0 1100) = 1100%float
   /\ progress (theCase transitioning "proc" 0 1100) = 0%float)
  \/ (state (theCase transitioning "proc" 0 1100)
        = state (theCase at_procedure_stage "proc" 0 600)
      /\ currentNodeId (theCase transitioning "proc" 0 1100)
        = currentNodeId (theCase at_procedure_stage "proc" 0 600)
      /\ currentStageIndex (theCase transitioning "proc" 0 1100)
        = currentStageIndex (theCase at_procedure_stage "proc" 0 600)
      /\ stateStartedAt (theCase transitioning "proc" 0 1100)
        = stateStartedAt (theCase at_procedure_stage "proc" 0 600)).
Proof.
  apply (X20_clock_restarts_on_every_change atStage 1100). vm_compute. reflexivity.
Defined.

(** X21.  The node of a case changes only when a case in transit arrives:
    the new node is then the successor of the old one in the procedural
    order, and it is an outbox (entered with stage index -1) or a procedure
    (entered at stage 0). *)
Theorem X21_node_changes_only_on_arrival (e : Engine) (now : float) (c c' : Case) :
  updateCase e c now = Some c' ->
  currentNodeId c' = currentNodeId c
  \/ (state c = transitioning
      /\ getNextNodeId e (currentNodeId c) = Some (currentNodeId c')
      /\ ((getNodeType e (currentNodeId c') = Some "outbox"%string
           /\ state c' = at_outbox /\ currentStageIndex c' = (-1)%Z)
          \/ (getNodeType e (currentNodeId c') = Some "procedure"%string
              /\ state c' = at_procedure_stage /\ currentStageIndex c' = 0%Z))).
Proof.
  unfold updateCase. intros Hrun.
  destruct (state c) eqn:Hst; update_cases Hrun; simpl; auto.
  - right. split; [reflexivity |]. split; [reflexivity |]. left.
    split; [| auto]. eapply bool_decide_eq_true_1. eassumption.
  - right. split; [reflexivity |]. split; [reflexivity |]. right.
    split; [| auto]. eapply bool_decide_eq_true_1. eassumption.
Qed.

Lemma X21_node_changes_only_on_arrival_witness :
  currentNodeId (theCase at_outbox "outbox" (-1) 1200)
    = currentNodeId (theCase transitioning "proc" 0 1100)
  \/ (state (theCase transitioning "proc" 0 1100) = transitioning
      /\ getNextNodeId leftStage (currentNodeId (theCase transitioning "proc" 0 1100))
         = Some (currentNodeId (theCase at_outbox "outbox" (-1) 1200))
      /\ ((getNodeType leftStage (currentNodeId (theCase at_outbox "outbox" (-1) 1200))
             = Some "outbox"%string
           /\ state (theCase at_outbox "outbox" (-1) 1200) = at_outbox
           /\ currentStageIndex (theCase at_outbox "outbox" (-1) 1200) = (-1)%Z)
          \/ (getNodeType leftStage (currentNodeId (theCase at_outbox "outbox" (-1) 1200))
                = Some "procedure"%string
              /\ state (theCase at_outbox "outbox" (-1) 1200) = at_procedure_stage
              /\ currentStageIndex (theCase at_outbox "outbox" (-1) 1200) = 0%Z))).
Proof.
  apply (X21_node_changes_only_on_arrival leftStage 1200). vm_compute. reflexivity.
Defined.

(** X22.  A case in transit whose next node is neither an outbox nor a
    procedure (another node type, or an id that is not among the nodes) never
    arrives: every update leaves it in transit at the same node with the same
    stateStartedAt. *)
Theorem X22_transit_to_other_node_never_arrives (e : Engine) (now : float) (c : Case)
    (nxt : string) :
  state c = transitioning ->
  getNextNodeId e (currentNodeId c) = Some nxt ->
  getNodeType e nxt <> Some "outbox"%string ->
  getNodeType e nxt <> Some "procedure"%string ->
  exists c', updateCase e c now = Some c'
    /\ state c' = transitioning /\ currentNodeId c' = currentNodeId c
    /\ currentStageIndex c' = currentStageIndex c
    /\ stateStartedAt c' = stateStartedAt c.
Proof.
  intros Hst Hnext Hout Hproc. unfold updateCase. rewrite Hst, Hnext.
  rewrite (bool_decide_eq_false_2 _ Hout), (bool_decide_eq_false_2 _ Hproc).
  destruct (PrimFloat.leb 1 _); [destruct (negb _) |]; eexists; (split; [reflexivity |]);
    simpl; auto.
Qed.

(** An engine whose order leads from the inbox to a node of type "agent". *)
Definition detour : Engine :=
  setNodes [ {| node_id := "inbox"; node_type := Some "inbox"%string; data := noData |};
             {| node_id := "bot"; node_type := Some "agent"%string; data := noData |};
             {| node_id := "outbox"; node_type := Some "outbox"%string; data := noData |} ]
    (setProceduralOrder ["inbox"; "bot"; "outbox"]%string (new DEFAULT_CONFIG)).

Lemma X22_transit_to_other_node_never_arrives_witness :
  exists c', updateCase detour (theCase transitioning "inbox" (-1) 500) 10000 = Some c'
    /\ state c' = transitioning
    /\ currentNodeId c' = currentNodeId (theCase transitioning "inbox" (-1) 500)
    /\ currentStageIndex c' = currentStageIndex (theCase transitioning "inbox" (-1) 500)
    /\ stateStartedAt c' = stateStartedAt (theCase transitioning "inbox" (-1) 500).
Proof.
  apply (X22_transit_to_other_node_never_arrives detour 10000
           (theCase transitioning "inbox" (-1) 500) "bot").
  - reflexivity.
  - reflexivity.
  - vm_compute. discriminate.
  - vm_compute. discriminate.
Defined.

(** *** Stage indices *)

(** A case at a procedure stage is at one of the stages of its node. *)
Definition stageInRange (e : Engine) (c : Case) : Prop :=
  state c = at_procedure_stage ->
  (0 <= currentStageIndex c
   < Z.of_nat (length (stages (getProcedureConfig e (currentNodeId c)))))%Z.

(** X23.  As long as the nodes are not edited and no node has an empty
    stage list, an update keeps a case that is at a procedure stage at one of
    the stages of its node: it enters a procedure at stage 0 and moves one
    stage at a time, never past the last. *)
Theorem X23_stage_index_in_range (e : Engine) (now : float) (c c' : Case) :
  (forall n, stages (getProcedureConfig e n) <> []) ->
  updateCase e c now = Some c' -> stageInRange e c -> stageInRange e c'.
Proof.
  intros Hstages Hrun Hc. unfold stageInRange in *. unfold updateCase in Hrun.
  destruct (state c) eqn:Hst; update_cases Hrun;
    cbn [state currentNodeId currentStageIndex enter with_progress];
    intros Hs; rewrite ?Hst in Hs; try discriminate Hs.
  - match goal with
    | |- context [getProcedureConfig e ?n] =>
        pose proof (Hstages n) as Hne; destruct (stages (getProcedureConfig e n))
    end; [contradiction | simpl; lia].
  - match goal with H : (_ <? _)%Z = true |- _ => apply Z.ltb_lt in H end.
    specialize (Hc eq_refl). lia.
  - apply Hc. reflexivity.
Qed.

(** A workflow whose procedure node carries no stage list of its own and
    so runs the ten default stages. *)
Definition tenStages : Engine :=
  setNodes [ {| node_id := "inbox"; node_type := Some "inbox"%string; data := noData |};
             {| node_id := "proc"; node_type := Some "procedure"%string; data := noData |};
             {| node_id := "outbox"; node_type := Some "outbox"%string; data := noData |} ]
    (setProceduralOrder ["inbox"; "proc"; "outbox"]%string (new DEFAULT_CONFIG)).

Lemma tenStages_stages (n : string) : stages (getProcedureConfig tenStages n) <> [].
Proof.
  unfold getProcedureConfig, findNode, tenStages, setNodes.
  cbn [nodes List.find node_id stages].
  destruct (String.eqb "inbox" n); [cbn; discriminate |].
  destruct (String.eqb "proc" n); [cbn; discriminate |].
  destruct (String.eqb "outbox" n); cbn; discriminate.
Qed.

(** A case that has spent the stage duration at stage 3 of the ten moves on
    to stage 4, which is again one of the ten. *)
Lemma X23_stage_index_in_range_witness :
  updateCase tenStages (theCase at_procedure_stage "proc" 3 0) 500
  = Some (theCase at_procedure_stage "proc" 4 500)
  /\ (0 <= currentStageIndex (theCase at_procedure_stage "proc" 4 500)
      < Z.of_nat (length (stages (getProcedureConfig tenStages
                                    (currentNodeId (theCase at_procedure_stage "proc" 4 500))))))%Z.
Proof.
  assert (Hrun : updateCase tenStages (theCase at_procedure_stage "proc" 3 0) 500
                 = Some (theCase at_procedure_stage "proc" 4 500))
    by (vm_compute; reflexivity).
  split; [exact Hrun |].
  apply (X23_stage_index_in_range tenStages 500
           (theCase at_procedure_stage "proc" 3 0)
           (theCase at_procedure_stage "proc" 4 500)).
  - exact tenStages_stages.
  - exact Hrun.
  - intros _. vm_compute. split; [discriminate | reflexivity].
  - reflexivity.
Defined.

(** *** Case ids *)

Lemma append_inj (p x y : string) : String.append p x = String.append p y -> x = y.
Proof.
  induction p as [| a p IH]; simpl; [auto |]. intros Heq. injection Heq as Heq. auto.
Qed.

Lemma caseId_inj (n m : nat) : caseId n = caseId m -> n = m.
Proof.
  unfold caseId. intros Heq. apply append_inj in Heq.
  apply (f_equal NilEmpty.uint_of_string) in Heq. rewrite !NilEmpty.usu in Heq.
  injection Heq as Heq. apply (f_equal Nat.of_uint) in Heq.
  rewrite !DecimalNat.Unsigned.of_to in Heq. exact Heq.
Qed.

(** Every case is stored under its own id, and the ids in use are
    "case-1" ... "case-n" for the current value n of the counter. *)
Definition idsInUse (m : gmap string Case) (counter : nat) : Prop :=
  forall i c, m !! i = Some c ->
    id c = i /\ exists n, 1 <= n <= counter /\ i = caseId n.

Lemma idsInUse_fresh m counter : idsInUse m counter -> m !! caseId (S counter) = None.
Proof.
  intros Hids. destruct (m !! caseId (S counter)) as [c |] eqn:Hc; [| reflexivity].
  destruct (Hids _ _ Hc) as (_ & n & Hn & Heq). apply caseId_inj in Heq. lia.
Qed.

Lemma idsInUse_spawn now rnd e :
  idsInUse (cases e) (caseIdCounter e) ->
  idsInUse (cases (spawnCase now rnd e)) (caseIdCounter (spawnCase now rnd e)).
Proof.
  intros Hids i c. unfold spawnCase. simpl.
  destruct (decide (i = caseId (S (caseIdCounter e)))) as [-> | Hne].
  - rewrite lookup_insert_eq. intros [= <-]. simpl. split; [reflexivity |].
    exists (S (caseIdCounter e)). split; [lia | reflexivity].
  - rewrite lookup_insert_ne by congruence. intros Hc.
    destruct (Hids _ _ Hc) as (Hid & n & Hn & Heq). split; [exact Hid |].
    exists n. split; [lia | exact Heq].
Qed.

Lemma idsInUse_update e now m counter :
  idsInUse m counter -> idsInUse (updateCases e now m) counter.
Proof.
  intros Hids i c'. rewrite updateCases_lookup.
  destruct (m !! i) as [c |] eqn:Hc; [| discriminate]. simpl. intros Hrun.
  destruct (Hids _ _ Hc) as (Hid & Hn).
  apply updateCase_spread in Hrun as (Hid' & _). split; [congruence | exact Hn].
Qed.

Lemma idsInUse_tick (e : Engine) (now spawnNow rnd : float) (fr : Z) :
  idsInUse (cases e) (caseIdCounter e) ->
  idsInUse (cases (tick now spawnNow rnd fr e).1)
           (caseIdCounter (tick now spawnNow rnd fr e).1).
Proof.
  intros Hids. unfold tick. cbv zeta.
  destruct (PrimFloat.ltb 0 (casesPerMinute (getInboxConfig e)));
    [destruct (PrimFloat.leb _ _) |]; cbn [fst cases caseIdCounter set_animationFrameId
      set_cases set_lastSpawnTime].
  - apply (idsInUse_update _ now (cases (spawnCase spawnNow rnd e))
             (caseIdCounter (spawnCase spawnNow rnd e))).
    apply idsInUse_spawn. exact Hids.
  - apply idsInUse_update. exact Hids.
  - apply idsInUse_update. exact Hids.
Qed.

(** X24.  The engine keeps every case under its own id, and the ids in use
    are "case-1" to "case-n" for the counter value n: this holds of a new and
    of a reset engine and is kept by spawnCase and by every tick.  So the id
    of a spawned case is never in use, and spawnCase adds a case without
    replacing one. *)
Theorem X24_case_ids_are_fresh (e : Engine) (now spawnNow rnd : float) (fr : Z) :
  idsInUse (cases (reset e).1) (caseIdCounter (reset e).1)
  /\ (idsInUse (cases e) (caseIdCounter e) ->
      cases e !! caseId (S (caseIdCounter e)) = None
      /\ size (cases (spawnCase spawnNow rnd e)) = S (size (cases e))
      /\ idsInUse (cases (spawnCase spawnNow rnd e)) (caseIdCounter (spawnCase spawnNow rnd e))
      /\ idsInUse (cases (tick now spawnNow rnd fr e).1)
                  (caseIdCounter (tick now spawnNow rnd fr e).1)).
Proof.
  split.
  - intros i c. unfold reset. simpl. rewrite lookup_empty. discriminate.
  - intros Hids. pose proof (idsInUse_fresh _ _ Hids) as Hfresh.
    split; [exact Hfresh |]. split; [| split].
    + unfold spawnCase. simpl. apply map_size_insert_None. exact Hfresh.
    + apply idsInUse_spawn. exact Hids.
    + apply idsInUse_tick. exact Hids.
Qed.

Lemma spawned_ids : idsInUse (cases spawned) (caseIdCounter spawned).
Proof.
  apply (idsInUse_spawn 0 0 workflow). intros i c. simpl. rewrite lookup_empty. discriminate.
Qed.

Lemma X24_case_ids_are_fresh_witness :
  idsInUse (cases (reset spawned).1) (caseIdCounter (reset spawned).1)
  /\ cases spawned !! caseId (S (caseIdCounter spawned)) = None
  /\ size (cases (spawnCase 10 0 spawned)) = S (size (cases spawned))
  /\ idsInUse (cases (spawnCase 10 0 spawned)) (caseIdCounter (spawnCase 10 0 spawned))
  /\ idsInUse (cases (tick 500 10 0 1 spawned).1)
              (caseIdCounter (tick 500 10 0 1 spawned).1).
Proof.
  destruct (X24_case_ids_are_fresh spawned 500 10 0 1) as [Hreset Hkept].
  split; [exact Hreset |]. apply Hkept. exact spawned_ids.
Defined.

(** *** Views of the case set *)

Lemma filter_split_perm (A : Type) (f g : A -> bool) (l : list A) :
  List.filter f l
  ≡ₚ List.filter (fun a => f a && negb (g a)) l ++ List.filter (fun a => f a && g a) l.
Proof.
  induction l as [| a l IH]; simpl; [reflexivity |].
  destruct (f a), (g a); simpl; try exact IH.
  - rewrite IH. apply Permutation_middle.
  - rewrite IH. reflexivity.
Qed.

(** X25.  For every node, the cases whose current node it is are exactly
    the cases returned by getCasesAtNode together with those returned by
    getCasesTransitioningFrom; no case is in both. *)
Theorem X25_cases_at_node_partition (e : Engine) (nodeId : string) :
  List.filter (fun c => String.eqb (currentNodeId c) nodeId) (getCases e)
    ≡ₚ getCasesAtNode e nodeId ++ getCasesTransitioningFrom e nodeId
  /\ Forall (fun c => state c <> transitioning) (getCasesAtNode e nodeId)
  /\ Forall (fun c => state c = transitioning) (getCasesTransitioningFrom e nodeId).
Proof.
  unfold getCasesAtNode, getCasesTransitioningFrom. split; [| split].
  - apply (filter_split_perm Case (fun c => String.eqb (currentNodeId c) nodeId)
             (fun c => bool_decide (state c = transitioning))).
  - apply Forall_forall. intros c Hin.
    apply list_elem_of_In, filter_In in Hin as [_ Hc].
    apply andb_true_iff in Hc as [_ Hc]. apply negb_true_iff in Hc.
    eapply bool_decide_eq_false_1. exact Hc.
  - apply Forall_forall. intros c Hin.
    apply list_elem_of_In, filter_In in Hin as [_ Hc].
    apply andb_true_iff in Hc as [_ Hc]. eapply bool_decide_eq_true_1. exact Hc.
Qed.

(** *** The spawn policy of a tick *)

(** The condition under which [tick] spawns: a positive rate, and the
    spawn interval elapsed since the last spawn. *)
Definition spawnDue (e : Engine) (now : float) : bool :=
  PrimFloat.ltb 0 (casesPerMinute (getInboxConfig e))
  && PrimFloat.leb (PrimFloat.div 60000 (casesPerMinute (getInboxConfig e)))
       (PrimFloat.sub now (lastSpawnTime e)).

Lemma updateCases_size (e : Engine) (now : float) (m : gmap string Case) :
  size (updateCases e now m) <= size m.
Proof.
  rewrite <- !(size_dom (D := gset string)). apply subseteq_size.
  intros i Hi. apply elem_of_dom in Hi. apply elem_of_dom.
  rewrite updateCases_lookup in Hi. destruct (m !! i); [eauto |].
  destruct Hi as [c Hc]. discriminate.
Qed.

(** The case that [spawnCase] stores: at the inbox, with the next id and a
    hold duration drawn between the configured bounds. *)
Definition spawnedCase (e : Engine) (spawnNow rnd : float) : Case :=
  {| id := caseId (S (caseIdCounter e)); state := at_inbox; currentNodeId := "inbox";
     currentStageIndex := -1; progress := 0; spawnedAt := spawnNow;
     stateStartedAt := spawnNow;
     holdDuration :=
       Some (PrimFloat.add (holdDurationMin (getInboxConfig e))
               (PrimFloat.mul rnd
                  (PrimFloat.sub (holdDurationMax (getInboxConfig e))
                     (holdDurationMin (getInboxConfig e))))) |}.

Lemma updateCase_at_inbox (e : Engine) (c : Case) (now : float) :
  state c = at_inbox -> is_Some (updateCase e c now).
Proof.
  intros Hst. unfold updateCase. rewrite Hst.
  destruct (PrimFloat.leb _ _); [destruct (truthy _) |]; eauto.
Qed.

(** X26.  A tick keeps the configuration, the nodes and the procedural
    order.  When the rate is positive and the interval 60000 /
    casesPerMinute has elapsed since the last spawn, it spawns one case: the
    counter goes up by one, the current time is recorded, and the map holds
    under the id "case-(counter+1)" the new inbox case after its first
    update.  Otherwise counter and last spawn time are unchanged.  Every
    other entry of the map is the update of the entry that was there, so no
    other case appears and the map grows by at most one. *)
Theorem X26_tick_spawns_at_most_one (e : Engine) (now spawnNow rnd : float) (fr : Z) :
  let e' := (tick now spawnNow rnd fr e).1 in
  let fresh := caseId (S (caseIdCounter e)) in
  config e' = config e /\ nodes e' = nodes e /\ proceduralOrder e' = proceduralOrder e
  /\ (if spawnDue e now
      then caseIdCounter e' = S (caseIdCounter e) /\ lastSpawnTime e' = now
           /\ cases e' !! fresh = updateCase e (spawnedCase e spawnNow rnd) now
           /\ is_Some (cases e' !! fresh)
      else caseIdCounter e' = caseIdCounter e /\ lastSpawnTime e' = lastSpawnTime e
           /\ cases e' !! fresh = cases e !! fresh ≫= fun c => updateCase e c now)
  /\ (forall i, i <> fresh ->
        cases e' !! i = cases e !! i ≫= fun c => updateCase e c now)
  /\ (forall i, is_Some (cases e' !! i) ->
        is_Some (cases e !! i) \/ (spawnDue e now = true /\ i = fresh))
  /\ size (cases e') <= S (size (cases e)).
Proof.
  cbv zeta. unfold tick, spawnDue. cbv zeta.
  destruct (PrimFloat.ltb 0 (casesPerMinute (getInboxConfig e)));
    [destruct (PrimFloat.leb _ _) |];
    cbn [fst snd andb cases config nodes proceduralOrder caseIdCounter lastSpawnTime
         set_animationFrameId set_cases set_lastSpawnTime spawnCase];
    repeat split.
  - rewrite updateCases_lookup, lookup_insert_eq. reflexivity.
  - rewrite updateCases_lookup, lookup_insert_eq.
    apply updateCase_at_inbox. reflexivity.
  - intros i Hne. rewrite updateCases_lookup, lookup_insert_ne by congruence.
    reflexivity.
  - intros i [c' Hc']. rewrite updateCases_lookup in Hc'.
    destruct (decide (i = caseId (S (caseIdCounter e)))) as [-> | Hne]; [auto |].
    rewrite lookup_insert_ne in Hc' by congruence.
    destruct (cases e !! i); [eauto | discriminate].
  - etransitivity; [apply updateCases_size |].
    rewrite map_size_insert. destruct (cases e !! _); unfold Datatypes.id; lia.
  - apply updateCases_lookup.
  - intros i _. apply updateCases_lookup.
  - intros i [c' Hc']. rewrite updateCases_lookup in Hc'.
    destruct (cases e !! i); [eauto | discriminate].
  - etransitivity; [apply updateCases_size | lia].
  - apply updateCases_lookup.
  - intros i _. apply updateCases_lookup.
  - intros i [c' Hc']. rewrite updateCases_lookup in Hc'.
    destruct (cases e !! i); [eauto | discriminate].
  - etransitivity; [apply updateCases_size | lia].
Qed.

(** The example workflow spawns two cases a minute: at 30000 ms the first
    tick stores "case-1". *)
Lemma X26_tick_spawns_at_most_one_witness :
  spawnDue workflow 30000 = true
  /\ caseIdCounter (tick 30000 30000 0 1 workflow).1 = 1
  /\ is_Some (cases (tick 30000 30000 0 1 workflow).1 !! "case-1"%string).
Proof.
  pose proof (X26_tick_spawns_at_most_one workflow 30000 30000 0 1) as Htick.
  cbv zeta in Htick. destruct Htick as (_ & _ & _ & Hspawn & _).
  assert (Hdue : spawnDue workflow 30000 = true) by (vm_compute; reflexivity).
  rewrite Hdue in Hspawn. destruct Hspawn as (Hcounter & _ & _ & Hheld).
  split; [exact Hdue |]. split; [exact Hcounter | exact Hheld].
Defined.

(** X27.  A case at the outbox whose retention period has elapsed is
    removed by the tick: afterwards the engine holds no case under its id. *)
Theorem X27_expired_case_is_removed (e : Engine) (now spawnNow rnd : float) (fr : Z)
    (i : string) (c : Case) :
  idsInUse (cases e) (caseIdCounter e) ->
  cases e !! i = Some c -> state c = at_outbox -> retentionElapsed e c now ->
  cases (tick now spawnNow rnd fr e).1 !! i = None.
Proof.
  intros Hids Hc Hst Hret.
  assert (Hnull : updateCase e c now = None).
  { unfold updateCase. rewrite Hst. unfold retentionElapsed in Hret. rewrite Hret.
    reflexivity. }
  assert (Hne : i <> caseId (S (caseIdCounter e))).
  { intros ->. rewrite (idsInUse_fresh _ _ Hids) in Hc. discriminate. }
  destruct (tick_cases e now spawnNow rnd fr) as [-> | ->]; rewrite updateCases_lookup.
  - rewrite Hc. exact Hnull.
  - unfold spawnCase. cbn [cases]. rewrite lookup_insert_ne, Hc by congruence. exact Hnull.
Qed.

Lemma atOutbox_ids : idsInUse (cases atOutbox) (caseIdCounter atOutbox).
Proof.
  unfold atOutbox, leftStage, atStage, frame.
  repeat apply idsInUse_tick. exact spawned_ids.
Qed.

Lemma X27_expired_case_is_removed_witness :
  cases (tick 4200 4200 0 1 atOutbox).1 !! "case-1"%string = None.
Proof.
  apply (X27_expired_case_is_removed atOutbox 4200 4200 0 1 "case-1"
           (theCase at_outbox "outbox" (-1) 1200)).
  - exact atOutbox_ids.
  - vm_compute. reflexivity.
  - reflexivity.
  - vm_compute. reflexivity.
Defined.

(** *** The order of the case list *)

(** The iteration order lists the keys of the map, each once. *)
Definition orderWf (e : Engine) : Prop :=
  NoDup (caseOrder e) /\ forall i, i ∈ caseOrder e <-> is_Some (cases e !! i).

Lemma omap_filter_lookup (m : gmap string Case) (l : list string) :
  omap (fun id => m !! id) (List.filter (fun id => bool_decide (is_Some (m !! id))) l)
  = omap (fun id => m !! id) l.
Proof.
  induction l as [| a l IH]; simpl; [reflexivity |].
  destruct (m !! a) as [c |] eqn:Ha.
  - rewrite bool_decide_eq_true_2 by eauto. simpl. rewrite Ha. f_equal. exact IH.
  - rewrite bool_decide_eq_false_2 by (intros [c Hc]; discriminate). exact IH.
Qed.

Lemma omap_updateCases (e : Engine) (now : float) (m : gmap string Case) (l : list string) :
  omap (fun id => updateCases e now m !! id) l
  = omap (fun c => updateCase e c now) (omap (fun id => m !! id) l).
Proof.
  induction l as [| a l IH]; simpl; [reflexivity |].
  rewrite updateCases_lookup. destruct (m !! a) as [c |]; simpl; [| exact IH].
  destruct (updateCase e c now); [f_equal |]; exact IH.
Qed.

Lemma omap_insert_other (m : gmap string Case) (i : string) (c : Case) (l : list string) :
  i ∉ l -> omap (fun id => <[ i := c ]> m !! id) l = omap (fun id => m !! id) l.
Proof.
  induction l as [| a l IH]; simpl; [reflexivity |]. intros Hnot.
  apply not_elem_of_cons in Hnot as [Hne Hnot].
  rewrite lookup_insert_ne by congruence.
  destruct (m !! a); [f_equal |]; apply IH; exact Hnot.
Qed.

Lemma orderWf_spawnCase (now rnd : float) (e : Engine) :
  orderWf e -> orderWf (spawnCase now rnd e).
Proof.
  intros [Hnd Hkeys]. unfold orderWf, spawnCase. cbn [caseOrder cases].
  case_bool_decide as Hin.
  - split; [exact Hnd |]. intros i. rewrite Hkeys.
    destruct (decide (i = caseId (S (caseIdCounter e)))) as [-> | Hne].
    + rewrite lookup_insert_eq. split; eauto.
    + rewrite lookup_insert_ne by congruence. reflexivity.
  - split.
    + apply NoDup_app. split; [exact Hnd |]. split; [| apply NoDup_singleton].
      intros i Hi Hfresh. apply list_elem_of_singleton in Hfresh as ->.
      apply Hin, Hkeys, Hi.
    + intros i. rewrite elem_of_app, list_elem_of_singleton, Hkeys.
      destruct (decide (i = caseId (S (caseIdCounter e)))) as [-> | Hne].
      * rewrite lookup_insert_eq. split; eauto.
      * rewrite lookup_insert_ne by congruence. split; [intros [H | H]; [exact H | contradiction] | auto].
Qed.

Lemma orderWf_updated (e e1 : Engine) (now : float) :
  orderWf e1 -> orderWf (set_cases (updateCases e now (cases e1)) e1).
Proof.
  intros [Hnd Hkeys]. unfold orderWf, set_cases. cbn [caseOrder cases]. split.
  - apply NoDup_ListNoDup, List.NoDup_filter, NoDup_ListNoDup. exact Hnd.
  - intros i. rewrite list_elem_of_In, filter_In, <- list_elem_of_In, Hkeys.
    split.
    + intros [_ Hheld]. apply bool_decide_eq_true_1 in Hheld. exact Hheld.
    + intros Hheld. split; [| apply bool_decide_eq_true_2; exact Hheld].
      destruct Hheld as [c Hc]. rewrite updateCases_lookup in Hc.
      destruct (cases e1 !! i); [eauto | discriminate].
Qed.

(** X28.  From an engine whose case list is in order and whose ids are in
    use as the counter says, a tick passes the listener the cases it held
    before, in the order in which they were inserted, each replaced by its
    update and those that expired left out, followed by the newly spawned
    case when one was due; and the case list of the engine is in order
    again. *)
Theorem X28_listener_receives_cases_in_order (e : Engine) (now spawnNow rnd : float)
    (fr : Z) :
  orderWf e -> idsInUse (cases e) (caseIdCounter e) ->
  orderWf (tick now spawnNow rnd fr e).1
  /\ (tick now spawnNow rnd fr e).2
     = omap (fun c => updateCase e c now) (getCases e)
       ++ (if spawnDue e now
           then option_list (updateCase e (spawnedCase e spawnNow rnd) now)
           else []).
Proof.
  intros Hwf Hids.
  assert (Hfresh : caseId (S (caseIdCounter e)) ∉ caseOrder e).
  { intros Hin. apply Hwf in Hin as [c Hc].
    rewrite (idsInUse_fresh _ _ Hids) in Hc. discriminate. }
  unfold tick, spawnDue. cbv zeta.
  destruct (PrimFloat.ltb 0 (casesPerMinute (getInboxConfig e)));
    [destruct (PrimFloat.leb _ _) |]; cbn [fst snd andb].
  - split.
    + apply (orderWf_updated e). apply (orderWf_spawnCase spawnNow rnd e Hwf).
    + unfold getCases. cbn [cases caseOrder set_cases set_lastSpawnTime].
      rewrite omap_filter_lookup.
      change (omap (fun id => updateCases e now (cases (spawnCase spawnNow rnd e)) !! id)
                (caseOrder (spawnCase spawnNow rnd e))
              = omap (fun c => updateCase e c now)
                  (omap (fun id => cases e !! id) (caseOrder e))
                ++ option_list (updateCase e (spawnedCase e spawnNow rnd) now)).
      rewrite omap_updateCases. unfold spawnCase. cbn [cases caseOrder].
      rewrite bool_decide_eq_false_2
        by (rewrite (idsInUse_fresh _ _ Hids); intros [c Hc]; discriminate).
      rewrite !omap_app. rewrite omap_insert_other by exact Hfresh.
      f_equal. simpl. rewrite lookup_insert_eq. simpl.
      unfold spawnedCase. destruct (updateCase e _ now); reflexivity.
  - split.
    + apply (orderWf_updated e). exact Hwf.
    + unfold getCases. cbn [cases caseOrder set_cases].
      rewrite omap_filter_lookup, omap_updateCases, app_nil_r. reflexivity.
  - split.
    + apply (orderWf_updated e). exact Hwf.
    + unfold getCases. cbn [cases caseOrder set_cases].
      rewrite omap_filter_lookup, omap_updateCases, app_nil_r. reflexivity.
Qed.

Lemma atStage_ids : idsInUse (cases atStage) (caseIdCounter atStage).
Proof.
  unfold atStage, frame. repeat apply idsInUse_tick. exact spawned_ids.
Qed.

Lemma atStage_order : orderWf atStage.
Proof.
  assert (Horder : caseOrder atStage = ["case-1"%string]) by (vm_compute; reflexivity).
  assert (Hkeys : cases atStage
                  = {[ "case-1"%string := theCase at_procedure_stage "proc" 0 600 ]})
    by (vm_compute; reflexivity).
  split.
  - rewrite Horder. apply NoDup_singleton.
  - intros i. rewrite Horder, Hkeys, list_elem_of_singleton, lookup_singleton_is_Some.
    split; congruence.
Qed.

(** At 30000 ms the case of [atStage] has finished its stage and a new case
    is due: the listener receives the older case, now in transit, and then
    the new one. *)
Lemma X28_listener_receives_cases_in_order_witness :
  orderWf (tick 30000 30000 0 1 atStage).1
  /\ (tick 30000 30000 0 1 atStage).2
     = omap (fun c => updateCase atStage c 30000) (getCases atStage)
       ++ (if spawnDue atStage 30000
           then option_list (updateCase atStage (spawnedCase atStage 30000 0) 30000)
           else []).
Proof.
  apply (X28_listener_receives_cases_in_order atStage 30000 30000 0 1).
  - exact atStage_order.
  - exact atStage_ids.
Defined.

Example atStage_listener :
  map id (tick 30000 30000 0 1 atStage).2 = ["case-1"; "case-2"]%string
  /\ map state (tick 30000 30000 0 1 atStage).2 = [transitioning; at_inbox].
Proof. vm_compute. split; reflexivity. Qed.

(** The same tick on [atOutbox], whose case has expired: the listener
    receives the new case alone. *)
Example atOutbox_listener :
  map id (getCases atOutbox) = ["case-1"%string]
  /\ map id (tick 30000 30000 0 1 atOutbox).2 = ["case-2"%string].
Proof. vm_compute. split; reflexivity. Qed.

End CaseExtras.
